(** * graphism: the graph / propagation engine of [graphism/graph.py]

    A shallow embedding of the class [Graph] and of the part of its
    collaborators [Node] and [Edge] that [Graph] consumes, followed by the
    properties of the engine.

    Python objects are mutable and shared, so node instances live in a store
    ([heap]) and are designated by references; the registry [__nodes] and the
    index [__infected] of a graph are dictionaries from names to references.
    Methods are computations in a state-and-exception monad: a raised
    exception keeps the mutations made before it, as in Python.

    What the embedding fixes: floats are IEEE 754 binary64 numbers; the
    random draws of the nodes come from a sequence of samples held in the
    state; a callback supplied by the caller is opaque (it returns, is
    recorded in a trace when it runs and does not touch the graph: a
    callback that raises, or that calls the graph, is outside the embedding,
    and the properties that depend on it name the condition, [quiet]); a set
    or a dictionary
    is iterated in the order of [elements] and [map_to_list]; a [Node]
    instance is truthy and is compared by identity. *)

From Stdlib Require Import ZArith Lia.
From Stdlib Require Import Floats.SpecFloat.
From stdpp Require Import gmap strings list fin_maps.

Local Open Scope Z_scope.

(** ** Python values used by the engine *)

(** Node names: the hashable values found in edge lists (integers in the
    class docstring, strings in the parameter descriptions).  Identity of a
    name is exact equality of the value. *)
Inductive Name :=
  | NInt (z : Z)
  | NStr (s : string).

#[global] Instance Name_eq_dec : EqDecision Name.
Proof. solve_decision. Defined.

Definition Name_to_sum (n : Name) : Z + string :=
  match n with NInt z => inl z | NStr s => inr s end.

Definition Name_of_sum (x : Z + string) : Name :=
  match x with inl z => NInt z | inr s => NStr s end.

#[global] Instance Name_countable : Countable Name.
Proof.
  apply (inj_countable' Name_to_sum Name_of_sum).
  intros []; reflexivity.
Defined.

(** References to node instances (object identity). *)
Abbreviation ref := positive.

(** The exceptions that computations on values raise: the default
    transmission probability, or a function supplied by the caller. *)
Inductive exn :=
  | KeyError (key : string)          (* d[k] with k absent *)
  | NameKeyError (key : Name)        (* d[name] with name absent *)
  | ZeroDivisionError                (* float division by zero *)
  | OverflowError                    (* float(n) for n out of range *)
  | OtherError (msg : string).       (* anything else a caller's function raises *)

(** How a method can fail: with an exception of a computation on values,
    or with the [TypeError] of calling [self.__infection] or
    [self.__recovery] while the attribute is [None]. *)
Inductive failure :=
  | Exn (e : exn)
  | NoneNotCallable
  | DanglingRef (r : ref).           (* no Python counterpart: see [deref] *)

Inductive result (E A : Type) :=
  | Ok (a : A)
  | Raise (e : E).
Arguments Ok {E A} a.
Arguments Raise {E A} e.

(** ** Floats

    Python floats are IEEE 754 binary64 numbers: [spec_float] with a
    mantissa of 53 bits and [emax = 1024]. *)
Module PyFloat.

Definition prec : Z := 53.
Definition emax : Z := 1024.

(** The literals [0.0] and [1.0]. *)
Definition zero : spec_float := S754_zero false.
Definition one : spec_float := Eval cbv in SFone prec emax.

(** [float(n)] for a Python int or long: round to nearest even;
    [OverflowError] when the result is not finite. *)
Definition of_long (n : Z) : result exn spec_float :=
  match binary_normalize prec emax n 0 false with
  | S754_infinity _ => Raise OverflowError
  | f => Ok f
  end.

(** [a / b] on floats: [ZeroDivisionError] when [b] is a zero. *)
Definition div (a b : spec_float) : result exn spec_float :=
  match b with
  | S754_zero _ => Raise ZeroDivisionError
  | _ => Ok (SFdiv prec emax a b)
  end.

Definition ltb (a b : spec_float) : bool := SFltb a b.

End PyFloat.

(** ** Edge and Node objects *)

(** Modelled from the spec: graphism/edge.py is not among the sources.  An
    edge holds a multiplicity, a type tag and a weight; [target] is the
    neighbor the edge leads to, which [Node.propagate] needs to call the
    callback on it. *)
Record Edge := mkEdge {
  multiplicity : Z;
  type_ : option string;
  weight_ : spec_float;
  target : ref
}.

(** What a function of (parent, child) sees of a node: its name and its
    adjacency, from neighbor name to Edge. *)
Definition NodeView : Type := Name * gmap Name Edge.

(** A transmission-probability function, of the parent and the child: the
    closure [tp] that [Graph.__init__] creates, or a function supplied by
    the caller. *)
Definition TransFn : Type := NodeView → NodeView → result exn spec_float.

(** Modelled from the spec: graphism/node.py is not among the sources.  A
    node holds a name, an adjacency mapping and the transmission-probability
    function bound at its construction. *)
Record NodeObj := mkNode {
  node_name : Name;
  node_edges : gmap Name Edge;
  node_tp : TransFn
}.

Definition view (o : NodeObj) : NodeView := (node_name o, node_edges o).

(** Callbacks supplied by the caller are opaque to the engine: a callback is
    known by an identifier and observed through the trace of its calls.
    The callbacks embedded are those that return and leave the graph alone.
    [CbNoop] is the [lambda n: None] of [Graph.__init__]. *)
Inductive Callback :=
  | CbNoop
  | CbUser (id : nat).

(** The closures built by [set_infection] ([i]) and [set_recovery] ([r]),
    each closed over the callback it was given. *)
Inductive Proc :=
  | InfectionWrapper (callback : Callback)
  | RecoveryWrapper (callback : Callback).

(** Observable events, most recent first. *)
Inductive Event :=
  | EvCallback (cb : Callback) (n : ref)   (* a caller callback ran on n *)
  | EvNodeInfect (n : ref)                 (* Node.infect was called on n *)
  | EvNodePropagate (n : ref)              (* Node.propagate was called on n *)
  | EvNodeRecover (n : ref).               (* Node.recover was called on n *)

(** ** The state: the object store and one graph *)

(** The five attributes of the graph keep their names.  [samples] and
    [cursor] stand for the random source that the nodes draw from,
    [recovers] for the recovery policy of the nodes (the spec leaves it to
    Node), and [trace] records the calls that were made. *)
Record State := mkState {
  heap : gmap ref NodeObj;
  __nodes : gmap Name ref;
  __infected : gmap Name ref;
  __transmission_probability : TransFn;
  __infection : option Proc;
  __recovery : option Proc;
  samples : nat → spec_float;        (* the values random() will return *)
  cursor : nat;                      (* how many of them were consumed *)
  recovers : Name → spec_float → bool;
  trace : list Event
}.

Definition set_heap (h : gmap ref NodeObj) (s : State) : State :=
  mkState h (__nodes s) (__infected s) (__transmission_probability s)
          (__infection s) (__recovery s) (samples s) (cursor s) (recovers s) (trace s).
Definition assign_nodes (m : gmap Name ref) (s : State) : State :=
  mkState (heap s) m (__infected s) (__transmission_probability s)
          (__infection s) (__recovery s) (samples s) (cursor s) (recovers s) (trace s).
Definition assign_infected (m : gmap Name ref) (s : State) : State :=
  mkState (heap s) (__nodes s) m (__transmission_probability s)
          (__infection s) (__recovery s) (samples s) (cursor s) (recovers s) (trace s).
Definition assign_transmission_probability (f : TransFn) (s : State) : State :=
  mkState (heap s) (__nodes s) (__infected s) f
          (__infection s) (__recovery s) (samples s) (cursor s) (recovers s) (trace s).
Definition assign_infection (p : option Proc) (s : State) : State :=
  mkState (heap s) (__nodes s) (__infected s) (__transmission_probability s)
          p (__recovery s) (samples s) (cursor s) (recovers s) (trace s).
Definition assign_recovery (p : option Proc) (s : State) : State :=
  mkState (heap s) (__nodes s) (__infected s) (__transmission_probability s)
          (__infection s) p (samples s) (cursor s) (recovers s) (trace s).
Definition set_cursor (c : nat) (s : State) : State :=
  mkState (heap s) (__nodes s) (__infected s) (__transmission_probability s)
          (__infection s) (__recovery s) (samples s) c (recovers s) (trace s).
Definition set_trace (t : list Event) (s : State) : State :=
  mkState (heap s) (__nodes s) (__infected s) (__transmission_probability s)
          (__infection s) (__recovery s) (samples s) (cursor s) (recovers s) t.

(** ** The monad of methods *)

Definition M (A : Type) : Type := State → result failure A * State.

Definition ret {A} (a : A) : M A := fun s => (Ok a, s).
Definition raise {A} (e : failure) : M A := fun s => (Raise e, s).
Definition bind {A B} (c : M A) (k : A → M B) : M B :=
  fun s => match c s with
           | (Ok a, s') => k a s'
           | (Raise e, s') => (Raise e, s')
           end.
Definition get : M State := fun s => (Ok s, s).
Definition modify (f : State → State) : M unit := fun s => (Ok tt, f s).
Definition lift {A} (r : result exn A) : M A :=
  fun s => match r with
           | Ok a => (Ok a, s)
           | Raise e => (Raise (Exn e), s)
           end.

#[global] Instance M_ret : MRet M := @ret.
#[global] Instance M_bind : MBind M := fun A B k c => bind c k.

(** [for x in l: body(x)] *)
Fixpoint for_each {A} (l : list A) (body : A → M unit) : M unit :=
  match l with
  | [] => ret tt
  | x :: l' => body x ;; for_each l' body
  end.

Definition log (e : Event) : M unit := modify (fun s => set_trace (e :: trace s) s).

(** Reading the object a reference designates.  A Python reference always
    designates a live object; [DanglingRef] only makes the function total on
    references that were never allocated. *)
Definition deref (r : ref) : M NodeObj :=
  s ← get;
  match heap s !! r with
  | Some o => ret o
  | None => raise (DanglingRef r)
  end.

Definition store (r : ref) (o : NodeObj) : M unit :=
  modify (fun s => set_heap (<[r := o]> (heap s)) s).

(** [random.random()] *)
Definition random : M spec_float :=
  s ← get;
  modify (set_cursor (S (cursor s)));;
  ret (samples s (cursor s)).

Definition result_bind {E A B} (r : result E A) (k : A → result E B) : result E B :=
  match r with
  | Ok a => k a
  | Raise e => Raise e
  end.

(** ** The collaborator Node *)

Module Node.

(** Modelled from the spec: [degree()], the sum of the multiplicities of
    the node's edges. *)
Definition degree_of (edges : gmap Name Edge) : Z :=
  map_fold (fun _ e acc => multiplicity e + acc) 0 edges.

(** Modelled from the spec: [Node(name=..., transmission_probability=...)],
    a new node without edges. *)
Definition new (name : Name) (transmission_probability : TransFn) : M ref :=
  s ← get;
  let r := fresh (dom (heap s)) in
  store r (mkNode name ∅ transmission_probability);;
  ret r.

(** Modelled from the spec: [name()], [edges()] and [degree()]. *)
Definition name (n : ref) : M Name := o ← deref n; ret (node_name o).

Definition edges (n : ref) : M (gmap Name Edge) := o ← deref n; ret (node_edges o).

Definition degree (n : ref) : M Z := o ← deref n; ret (degree_of (node_edges o)).

(** Modelled from the spec: [add_child(other, type_, weight_)] creates the
    edge to [other] with multiplicity 1, or increments the multiplicity of
    the existing edge; it is one-directional. *)
Definition add_child (n other : ref) (type_ : option string) (weight_ : spec_float)
  : M unit :=
  o ← deref n;
  oname ← name other;
  let e := match node_edges o !! oname with
           | Some (mkEdge m t w c) => mkEdge (m + 1) t w c
           | None => mkEdge 1 type_ weight_ other
           end in
  store n (mkNode (node_name o) (<[oname := e]> (node_edges o)) (node_tp o)).

(** Modelled from the spec: [infect(callback)] invokes the callback on the
    node itself. *)
Definition infect (n : ref) (callback : ref → M unit) : M unit :=
  log (EvNodeInfect n);;
  callback n.

(** Modelled from the spec: [propagate(callback)] draws once per edge
    against the transmission probability of the edge (the function bound
    to the node, applied to the node and the neighbor) and on success
    invokes the callback on the neighbor. *)
Definition propagate (n : ref) (callback : ref → M unit) : M unit :=
  log (EvNodePropagate n);;
  o ← deref n;
  for_each (map_to_list (node_edges o)) (fun ne =>
    oc ← deref (target ne.2);
    p ← lift (node_tp o (view o) (view oc));
    u ← random;
    if PyFloat.ltb u p then callback (target ne.2) else ret tt).

(** Modelled from the spec: [recover(callback)] invokes the callback on the
    node itself when the node's policy decides so. *)
Definition recover (n : ref) (callback : ref → M unit) : M unit :=
  log (EvNodeRecover n);;
  o ← deref n;
  u ← random;
  s ← get;
  if recovers s (node_name o) u then callback n else ret tt.

End Node.

(** ** The class Graph *)

(** An edge record of the keyword form: a dictionary with the keys [from_],
    [to_], [type_] and [weight_], each present or absent. *)
Record EdgeRecord := mkEdgeRecord {
  from_ : option Name;
  to_ : option Name;
  rec_type_ : option string;
  rec_weight_ : option spec_float
}.

(** The arguments of a call of [Graph]: the first positional argument
    when there is one, and the keywords the constructor reads. *)
Record InitArgs := mkInitArgs {
  args : option (list (Name * Name));
  kw_graph : option (list EdgeRecord);
  kw_directed : option bool;
  kw_transmission_probability : option TransFn
}.

Module Graph.

(** The closure [tp] of [__init__], the default transmission probability
    (the comparison with [0L] is a comparison with the integer 0). *)
Definition tp (from_node to_node : NodeView) : result exn spec_float :=
  match from_node.2 !! to_node.1 with
  | None => Raise (NameKeyError to_node.1)
  | Some edge =>
      let multiplicity := multiplicity edge in
      let degree := Node.degree_of from_node.2 in
      if degree =? 0 then Ok PyFloat.zero
      else
        result_bind (PyFloat.of_long multiplicity) (fun a =>
        result_bind (PyFloat.of_long degree) (fun b =>
        PyFloat.div a b))
  end.

Definition get_node_by_name (name : Name) : M (option ref) :=
  s ← get; ret (__nodes s !! name).

Definition add_node (node : ref) : M ref :=
  name ← Node.name node;
  s ← get;
  (if decide (__nodes s !! name = None)
   then modify (assign_nodes (<[name := node]> (__nodes s)))
   else ret tt);;
  ret node.

(** [transmission_probability or self.__transmission_probability] *)
Definition tp_or_default (transmission_probability : option TransFn) : M TransFn :=
  s ← get;
  ret (default (__transmission_probability s) transmission_probability).

Definition add_edge_by_node_sequence (parent child : Name) (directed : option bool)
    (transmission_probability : option TransFn) (type_ : option string)
    (weight_ : spec_float) : M unit :=
  p ← get_node_by_name parent;
  p ← match p with
      | Some p => ret p
      | None => f ← tp_or_default transmission_probability; Node.new parent f
      end;
  c ← get_node_by_name child;
  c ← match c with
      | Some c => ret c
      | None => f ← tp_or_default transmission_probability; Node.new child f
      end;
  Node.add_child p c type_ weight_;;
  add_node p;;
  add_node c;;
  ret tt.

Definition __init_nodes_from_kwargs (kwargs : InitArgs) (graph : list EdgeRecord)
  : M unit :=
  let directed := default false (kw_directed kwargs) in
  let transmission_probability := kw_transmission_probability kwargs in
  for_each graph (fun edge =>
    match from_ edge with
    | None => raise (Exn (KeyError "from_"))
    | Some parent =>
        match to_ edge with
        | None => raise (Exn (KeyError "to_"))
        | Some child =>
            let type_ := rec_type_ edge in
            let weight_ := default PyFloat.one (rec_weight_ edge) in
            add_edge_by_node_sequence parent child (Some directed)
              transmission_probability type_ weight_
        end
    end).

Definition __init_nodes_from_args (graph : list (Name * Name)) (kwargs : InitArgs)
  : M unit :=
  for_each graph (fun edge =>
    let '(parent, child) := edge in
    add_edge_by_node_sequence parent child None None None PyFloat.one).

Definition callback_call (callback : Callback) (n : ref) : M unit :=
  log (EvCallback callback n).

(** The closure [i] of [set_infection]. *)
Definition i (callback : Callback) (n : ref) : M unit :=
  name ← Node.name n;
  s ← get;
  (if decide (__infected s !! name = None)
   then modify (assign_infected (<[name := n]> (__infected s)))
   else ret tt);;
  callback_call callback n.

(** The closure [r] of [set_recovery]. *)
Definition r (callback : Callback) (n : ref) : M unit :=
  name ← Node.name n;
  s ← get;
  if decide (__infected s !! name = None)
  then ret tt
  else modify (assign_infected (delete name (__infected s))).

(** Calling the value of [self.__infection] or [self.__recovery]. *)
Definition call (f : option Proc) (n : ref) : M unit :=
  match f with
  | None => raise NoneNotCallable
  | Some (InfectionWrapper callback) => i callback n
  | Some (RecoveryWrapper callback) => r callback n
  end.

Definition set_infection (callback : Callback) : M unit :=
  modify (assign_infection (Some (InfectionWrapper callback))).

Definition set_recovery (callback : Callback) : M unit :=
  modify (assign_recovery (Some (RecoveryWrapper callback))).

(** [__init__] on a fresh instance, whose attributes are the class
    attributes ([None]) until [__init__] assigns them. *)
Definition __init__ (a : InitArgs) : M unit :=
  modify (assign_infection None);;
  modify (assign_recovery None);;
  modify (assign_nodes ∅);;
  modify (assign_infected ∅);;
  modify (assign_transmission_probability tp);;
  match kw_graph a with
  | Some graph => __init_nodes_from_kwargs a graph
  | None =>
      match args a with
      | Some graph => __init_nodes_from_args graph a
      | None => ret tt
      end
  end;;
  set_infection CbNoop;;
  set_recovery CbNoop.

(** [add_edge]: a Node instance is not a key of [__nodes] (the keys are
    names), so both membership tests succeed and [add_node] runs. *)
Definition add_edge (from_ to_ : ref) : M (ref * Edge * ref) :=
  add_node from_;;
  add_node to_;;
  Node.add_child from_ to_ None PyFloat.one;;
  es ← Node.edges from_;
  tname ← Node.name to_;
  match es !! tname with
  | Some e => ret (from_, e, to_)
  | None => raise (Exn (NameKeyError tname))
  end.

Definition infect_seeds (seed_nodes : list ref) : M unit :=
  for_each seed_nodes (fun n =>
    s ← get;
    Node.infect n (call (__infection s))).

Definition infected (s : State) : gset ref := map_img (__infected s).

Definition nodes (s : State) : gset ref := map_img (__nodes s).

Definition susceptible (s : State) : gset ref := nodes s ∖ infected s.

Definition propagate : M unit :=
  s ← get;
  for_each (elements (infected s)) (fun n =>
    s ← get;
    Node.propagate n (call (__infection s))).

Definition recover : M unit :=
  s ← get;
  for_each (elements (infected s)) (fun n =>
    s ← get;
    Node.recover n (call (__recovery s))).

End Graph.

(** * The vocabulary of the properties *)

(** A triple [{P} c {Q | E}]: from a state in [P], [c] ends in [Q] when it
    returns and in [E] when it raises. *)
Definition triple {A} (P : State → Prop) (c : M A)
    (Q : A → State → Prop) (E : failure → State → Prop) : Prop :=
  ∀ s, P s →
    match c s with
    | (Ok a, s') => Q a s'
    | (Raise e, s') => E e s'
    end.

(** [if name not in index: index[name] = n] *)
Definition insert_absent (name : Name) (n : ref) (index : gmap Name ref) : gmap Name ref :=
  if decide (index !! name = None) then <[name := n]> index else index.

(** ** The states that construction produces *)

(** The object of a node after [add_child] towards a node named [oname]. *)
Definition with_child (o : NodeObj) (oname : Name) (other : ref)
    (ty : option string) (w : spec_float) : NodeObj :=
  let e := match node_edges o !! oname with
           | Some (mkEdge m t w' c) => mkEdge (m + 1) t w' c
           | None => mkEdge 1 ty w other
           end in
  mkNode (node_name o) (<[oname := e]> (node_edges o)) (node_tp o).

(** ** Well-formed graphs *)

(** Every registered name designates a live node of that name. *)
Definition registry_ok (s : State) : Prop :=
  ∀ name r, __nodes s !! name = Some r →
    ∃ o, heap s !! r = Some o ∧ node_name o = name.

(** The infected index is a part of the registry. *)
Definition index_ok (s : State) : Prop :=
  ∀ name r, __infected s !! name = Some r → __nodes s !! name = Some r.

(** Every edge of a registered node is keyed by the name of the live node
    it leads to, and that node is the registered one of that name, or is a
    second instance of the owner's own name (what a self-loop record
    creates). *)
Definition edges_ok (s : State) : Prop :=
  ∀ name r o cn e,
    __nodes s !! name = Some r → heap s !! r = Some o →
    node_edges o !! cn = Some e →
    (∃ oc, heap s !! target e = Some oc ∧ node_name oc = cn) ∧
    (__nodes s !! cn = Some (target e) ∨ cn = name).

Definition Inv (s : State) : Prop := registry_ok s ∧ index_ok s ∧ edges_ok s.

(** [get_node_by_name] followed by the creation of the node when the name
    is not registered: the node and the state that result. *)
Definition resolved (name : Name) (tpo : option TransFn) (s : State) : ref * State :=
  match __nodes s !! name with
  | Some r => (r, s)
  | None =>
      let r := fresh (dom (heap s)) in
      (r, set_heap (<[r := mkNode name ∅ (default (__transmission_probability s) tpo)]>
                      (heap s)) s)
  end.

(** The state after [p.add_child(c, ...)], [add_node(p)], [add_node(c)]. *)
Definition linked (parent child : Name) (p c : ref) (op : NodeObj)
    (ty : option string) (w : spec_float) (s : State) : State :=
  assign_nodes (insert_absent child c (insert_absent parent p (__nodes s)))
    (set_heap (<[p := with_child op child c ty w]> (heap s)) s).

(** The state after [add_edge_by_node_sequence]. *)
Definition after_edge (parent child : Name) (tpo : option TransFn)
    (ty : option string) (w : spec_float) (s : State) : State :=
  let s1 := (resolved parent tpo s).2 in
  let p := (resolved parent tpo s).1 in
  let s2 := (resolved child tpo s1).2 in
  let c := (resolved child tpo s1).1 in
  match heap s2 !! p with
  | Some op => linked parent child p c op ty w s2
  | None => s2
  end.

(** What construction steps leave alone. *)
Definition frame (s s' : State) : Prop :=
  __infected s' = __infected s ∧
  __transmission_probability s' = __transmission_probability s ∧
  __infection s' = __infection s ∧ __recovery s' = __recovery s ∧
  trace s' = trace s ∧ cursor s' = cursor s ∧
  samples s' = samples s ∧ recovers s' = recovers s.

(** The registry only grows, and a registered name keeps its instance. *)
Definition registry_kept (s s' : State) : Prop :=
  ∀ name r, __nodes s !! name = Some r → __nodes s' !! name = Some r.

(** An edge record that has both required keys. *)
Definition well_formed (edge : EdgeRecord) : bool :=
  match from_ edge, to_ edge with
  | Some _, Some _ => true
  | _, _ => false
  end.

(** The state of a fresh instance once [__init__] assigned its first three
    attributes. *)
Definition blank (s : State) : State :=
  assign_transmission_probability Graph.tp
    (assign_infected ∅ (assign_nodes ∅ (assign_recovery None (assign_infection None s)))).

(** What a construction loop that returns establishes. *)
Definition built (s s' : State) : Prop :=
  Inv s' ∧ frame s s' ∧ registry_kept s s'.

(** ** Installed callbacks *)

Definition installed (s : State) : Prop :=
  is_Some (__infection s) ∧ is_Some (__recovery s).

(** A property of the state that the simulation steps cannot disturb: it
    depends neither on the trace, nor on the infected index, nor on the
    position in the random samples. *)
Definition step_stable (I : State → Prop) : Prop :=
  ∀ s, I s →
    (∀ t, I (set_trace t s)) ∧ (∀ m, I (assign_infected m s)) ∧
    (∀ c, I (set_cursor c s)).

Definition no_unset (I : State → Prop) (e : failure) (s : State) : Prop :=
  e ≠ NoneNotCallable ∧ I s.

(** ** Ticks *)

(** The nodes whose [propagate] was called, read off a trace (most recent
    first). *)
Definition asked (t : list Event) : list ref :=
  omap (fun ev => match ev with EvNodePropagate n => Some n | _ => None end) t.

(** The events added to [t0], the list [done] of the snapshot nodes already
    asked, and the list [rest] of those still to ask. *)
Definition tick_progress (t0 : list Event) (snapshot rest : list ref) (s : State) : Prop :=
  ∃ new done, trace s = new ++ t0 ∧ snapshot = done ++ rest ∧ asked new = reverse done.

(** Every node of [l] is in the infected index. *)
Definition all_infected (l : list ref) (s : State) : Prop :=
  ∀ n, n ∈ l → ∃ name, __infected s !! name = Some n.

(** The state of one tick of [propagate]: the graph is well formed, the
    attribute [__infection] has the value it had when the tick started and,
    when that value is the infection wrapper, the nodes of the snapshot are
    still infected. *)
Definition tick_inv (f : option Proc) (l : list ref) (s : State) : Prop :=
  Inv s ∧ __infection s = f ∧
  (∀ cb, f = Some (InfectionWrapper cb) → all_infected l s).

Definition recover_inv (f : option Proc) (l : list ref) (s : State) : Prop :=
  Inv s ∧ __recovery s = f ∧
  (∀ cb, f = Some (InfectionWrapper cb) → all_infected l s).

(** The seeds belong to the graph. *)
Definition seeds_registered (seeds : list ref) (s : State) : Prop :=
  ∀ n, n ∈ seeds → n ∈ Graph.nodes s.

(** ** The life of a graph *)

(** The calls a driver makes after the construction of a graph: on the
    graph, and on nodes of its own ([Node(...)] and [add_child], which
    reach the graph through the nodes it shares with the driver). *)
Inductive Op :=
  | OpAddEdgeByNodeSequence (parent child : Name) (directed : option bool)
      (transmission_probability : option TransFn) (ty : option string) (w : spec_float)
  | OpAddNode (node : ref)
  | OpAddEdge (from_ to_ : ref)
  | OpSetInfection (callback : Callback)
  | OpSetRecovery (callback : Callback)
  | OpInfectSeeds (seed_nodes : list ref)
  | OpPropagate
  | OpRecover
  | OpNewNode (name : Name) (transmission_probability : TransFn)
  | OpAddChild (n other : ref) (ty : option string) (w : spec_float).

Definition run_op (op : Op) : M unit :=
  match op with
  | OpAddEdgeByNodeSequence parent child directed tpo ty w =>
      Graph.add_edge_by_node_sequence parent child directed tpo ty w
  | OpAddNode node => Graph.add_node node;; ret tt
  | OpAddEdge from_ to_ => Graph.add_edge from_ to_;; ret tt
  | OpSetInfection callback => Graph.set_infection callback
  | OpSetRecovery callback => Graph.set_recovery callback
  | OpInfectSeeds seed_nodes => Graph.infect_seeds seed_nodes
  | OpPropagate => Graph.propagate
  | OpRecover => Graph.recover
  | OpNewNode name transmission_probability =>
      Node.new name transmission_probability;; ret tt
  | OpAddChild n other ty w => Node.add_child n other ty w
  end.

(** [infect_seeds] is called with nodes of the graph only. *)
Definition seeds_belong (op : Op) (s : State) : Prop :=
  match op with
  | OpInfectSeeds seed_nodes => seeds_registered seed_nodes s
  | _ => True
  end.

(** Every call of [add_node] or [add_edge], which take nodes made by the
    caller, and every call of [add_child] by the caller itself, leaves every
    edge of a registered node leading to a registered node. *)
Definition edges_kept (op : Op) (s : State) : Prop :=
  match op with
  | OpAddNode _ | OpAddEdge _ _ | OpAddChild _ _ _ _ => edges_ok (run_op op s).2
  | _ => True
  end.

Definition allowed (op : Op) (s : State) : Prop :=
  seeds_belong op s ∧ edges_kept op s.

(** The same without the condition on the caller's own [add_child]: the
    conditions on the calls of the graph alone. *)
Definition allowed_graph_calls (op : Op) (s : State) : Prop :=
  seeds_belong op s ∧
  match op with
  | OpAddNode _ | OpAddEdge _ _ => edges_ok (run_op op s).2
  | _ => True
  end.

(** The part of well-formedness that is about names only. *)
Definition names_ok (s : State) : Prop := registry_ok s ∧ index_ok s.

(** The states a graph goes through: after a construction that returned,
    and after each further call (whether it returned or raised). *)
Inductive reachable (allowed : Op → State → Prop) : State → Prop :=
  | reachable_init a s0 s :
      Graph.__init__ a s0 = (Ok tt, s) → reachable allowed s
  | reachable_step op s :
      reachable allowed s → allowed op s → reachable allowed (run_op op s).2.

(** The partition of the nodes into infected and susceptible ones. *)
Definition partitioned (s : State) : Prop :=
  Graph.susceptible s = Graph.nodes s ∖ Graph.infected s ∧
  (∀ name, is_Some (__infected s !! name) → is_Some (__nodes s !! name)) ∧
  Graph.nodes s = Graph.infected s ∪ Graph.susceptible s ∧
  Graph.infected s ∩ Graph.susceptible s = ∅.

(** ** Concrete graphs *)

Module Example.

(** The float 0.5, which every draw returns here. *)
Definition half : spec_float := S754_finite false 4503599627370496 (-53).

(** An empty store, before any graph exists; nodes always recover. *)
Definition world : State :=
  mkState ∅ ∅ ∅ Graph.tp None None (fun _ => half) 0 (fun _ _ => true) [].

(** [lambda parent, child: 1.0] and [lambda parent, child: 0.0] *)
Definition always : TransFn := fun _ _ => Ok PyFloat.one.
Definition never : TransFn := fun _ _ => Ok PyFloat.zero.

(** [Graph([(1, 2), (2, 3)])], then [infect_seeds] on node 1 and one
    tick of [propagate]. *)
Definition chain_args : InitArgs :=
  mkInitArgs (Some [(NInt 1, NInt 2); (NInt 2, NInt 3)]) None None None.
Definition chain : State := (Graph.__init__ chain_args world).2.
Definition chain_seeded : State := (run_op (OpInfectSeeds [1%positive]) chain).2.
Definition chain_tick : State := (run_op OpPropagate chain_seeded).2.

(** Two nodes wired by the caller: [a = Node(name="a", ...)],
    [b = Node(name="b", ...)], [a.add_child(b)]. *)
Definition wire : M (ref * ref) :=
  a ← Node.new (NStr "a") always;
  b ← Node.new (NStr "b") always;
  Node.add_child a b None PyFloat.one;;
  mret (a, b).
Definition wired : State := (wire world).2.

(** [g = Graph()], [g.add_node(a)], [g.infect_seeds([a])],
    [g.propagate()]. *)
Definition no_args : InitArgs := mkInitArgs None None None None.

(** [g = Graph()], [a = Node(name="a", ...)], [b = Node(name="b", ...)],
    [g.add_node(a)], and only then [a.add_child(b)]; [g.infect_seeds([a])],
    [g.propagate()]. *)
Definition late_nodes : State :=
  (run_op (OpNewNode (NStr "b") always)
     (run_op (OpNewNode (NStr "a") always) (Graph.__init__ no_args world).2).2).2.
Definition late_a : State := (run_op (OpAddNode 1%positive) late_nodes).2.
Definition late_wired : State :=
  (run_op (OpAddChild 1%positive 2%positive None PyFloat.one) late_a).2.
Definition late_seeded : State := (run_op (OpInfectSeeds [1%positive]) late_wired).2.
Definition late_tick : State := (run_op OpPropagate late_seeded).2.

(** [Graph([(1, 2)])] and [Graph([(1, 2)], transmission_probability=never)] *)
Definition pair_args (tpo : option TransFn) : InitArgs :=
  mkInitArgs (Some [(NInt 1, NInt 2)]) None None tpo.
Definition pair : State := (Graph.__init__ (pair_args None) world).2.
Definition pair_never : State := (Graph.__init__ (pair_args (Some never)) world).2.

(** [Graph(graph=[{"from_": 1, "to_": 2}], transmission_probability=never)] *)
Definition keyword_args (tpo : option TransFn) : InitArgs :=
  mkInitArgs None (Some [mkEdgeRecord (Some (NInt 1)) (Some (NInt 2)) None None])
    None tpo.
Definition keyword_never : State := (Graph.__init__ (keyword_args (Some never)) world).2.

(** [Graph(graph=[{"from_": 1, "to_": 2}], directed=False)] *)
Definition keyword_undirected : State :=
  (Graph.__init__ (mkInitArgs None
     (Some [mkEdgeRecord (Some (NInt 1)) (Some (NInt 2)) None None])
     (Some false) None) world).2.

(** [Graph(graph=[{"from_": 1, "to_": 2}, {"from_": 2}])] *)
Definition short_record : EdgeRecord := mkEdgeRecord (Some (NInt 2)) None None None.
Definition malformed_graph : list EdgeRecord :=
  [mkEdgeRecord (Some (NInt 1)) (Some (NInt 2)) None None; short_record].
Definition malformed_args : InitArgs :=
  mkInitArgs None (Some malformed_graph) None None.

(** One tick from a seed: [infect_seeds([n])], then [propagate()]. *)
Definition seed_and_tick (n : ref) (s : State) : result failure unit * State :=
  Graph.propagate (Graph.infect_seeds [n] s).2.

(** A second instance of the name 1, made by the caller next to [pair]. *)
Definition twin : State := (Node.new (NInt 1) always pair).2.

(** A single node, not in any graph. *)
Definition node_a : NodeObj := mkNode (NStr "a") ∅ always.
Definition single : State := (Node.new (NStr "a") always world).2.

(** A parent with one edge, of multiplicity 1, to the node named 2; the
    same with an edge of multiplicity 0, so that the degree is 0. *)
Definition edge12 : Edge := mkEdge 1 None PyFloat.one 2%positive.
Definition view1 : NodeView := (NInt 1, {[NInt 2 := edge12]}).
Definition view2 : NodeView := (NInt 2, ∅).
Definition edge_null : Edge := mkEdge 0 None PyFloat.one 2%positive.
Definition view_null : NodeView := (NInt 1, {[NInt 2 := edge_null]}).

(** The names and multiplicities of the edges of the node registered
    under a name. *)
Definition edge_list (s : State) (name : Name) : option (list (Name * Z)) :=
  r ← __nodes s !! name;
  o ← heap s !! r;
  Some (map (fun ne => (ne.1, multiplicity ne.2)) (map_to_list (node_edges o))).

End Example.

(** ** Vocabulary of the further properties *)

(** The callback returns and leaves the graph alone: calling it does
    nothing but record the call.  The [lambda n: None] of [__init__] is
    such a callback; one that raises, or that calls the graph, is not. *)
Definition quiet (cb : Callback) : Prop :=
  ∀ n st, Graph.callback_call cb n st
          = (Ok tt, set_trace (EvCallback cb n :: trace st) st).

(** The infection callback, when one is installed, is quiet; and the
    attribute [__recovery] holds what [set_recovery] puts there, the
    wrapper [r], which calls no callback, or nothing. *)
Definition quiet_installed (s : State) : Prop :=
  (∀ cb, __infection s = Some (InfectionWrapper cb) → quiet cb) ∧
  (∀ cb, __recovery s ≠ Some (InfectionWrapper cb)).

(** What the simulation steps leave alone: the node objects, the registry,
    the default function, the two installed procedures, the values the
    random source returns and the policy of the nodes. *)
Definition same_graph (s s' : State) : Prop :=
  heap s' = heap s ∧ __nodes s' = __nodes s ∧
  __transmission_probability s' = __transmission_probability s ∧
  __infection s' = __infection s ∧ __recovery s' = __recovery s ∧
  samples s' = samples s ∧ recovers s' = recovers s.

(** A property of the state that the construction steps cannot disturb: it
    depends neither on the node objects nor on names added to the
    registry. *)
Definition build_stable (I : State → Prop) : Prop :=
  ∀ s, I s →
    (∀ h, I (set_heap h s)) ∧
    (∀ name r, __nodes s !! name = None → I (assign_nodes (<[name := r]> (__nodes s)) s)).

(** Every entry of the infected index of [s] is an entry of the one of
    [s']. *)
Definition index_kept (s s' : State) : Prop :=
  ∀ name r, __infected s !! name = Some r → __infected s' !! name = Some r.

(** The nodes whose [recover] was called, read off a trace (most recent
    first). *)
Definition asked_to_recover (t : list Event) : list ref :=
  omap (fun ev => match ev with EvNodeRecover n => Some n | _ => None end) t.

(** The same as [tick_progress], for [recover]. *)
Definition recover_progress (t0 : list Event) (snapshot rest : list ref) (s : State) : Prop :=
  ∃ new done, trace s = new ++ t0 ∧ snapshot = done ++ rest ∧
              asked_to_recover new = reverse done.

(** The policy of the node named [name] decides the same way whatever the
    draw. *)
Definition always_recovers (s : State) (name : Name) : Prop :=
  ∀ u, recovers s name u = true.
Definition never_recovers (s : State) (name : Name) : Prop :=
  ∀ u, recovers s name u = false.

(** The state of a call of [recover] on [s] with the snapshot nodes [l]
    still to ask: the store, the procedure and the policy are those of [s],
    the index is a part of the one of [s], and an entry whose node always
    recovers is gone unless its node is still to ask, while an entry whose
    node never recovers is still there. *)
Definition recover_rest (s : State) (l : list ref) (st : State) : Prop :=
  heap st = heap s ∧ __recovery st = __recovery s ∧ recovers st = recovers s ∧
  index_kept st s ∧
  (∀ x, x ∈ l → ∃ name, __infected s !! name = Some x) ∧
  ∀ name n, __infected s !! name = Some n →
    (always_recovers s name → n ∈ l ∨ __infected st !! name = None) ∧
    (never_recovers s name → __infected st !! name = Some n).

(** The events of seeding, in the order of the calls. *)
Definition seeding (cb : Callback) (seeds : list ref) : list Event :=
  flat_map (fun n => [EvNodeInfect n; EvCallback cb n]) seeds.

(** The names that the arguments of a construction mention: those of the
    keyword [graph] when it is given, else those of the positional list. *)
Definition edge_names (a : InitArgs) : list Name :=
  match kw_graph a with
  | Some graph => flat_map (fun e => option_list (from_ e) ++ option_list (to_ e)) graph
  | None =>
      match args a with
      | Some graph => flat_map (fun e => [e.1; e.2]) graph
      | None => []
      end
  end.

(** The function a construction binds to the nodes it creates. *)
Definition bound_function (a : InitArgs) : TransFn :=
  match kw_graph a with
  | Some _ => default Graph.tp (kw_transmission_probability a)
  | None => Graph.tp
  end.

(** Every registered node is bound to [f]. *)
Definition all_bound (f : TransFn) (s : State) : Prop :=
  ∀ name r o, __nodes s !! name = Some r → heap s !! r = Some o → node_tp o = f.

(** What a construction loop establishes from the state [s0], having
    processed records that mention [names]. *)
Definition built_names (f : TransFn) (s0 : State) (names : list Name) (s : State) : Prop :=
  built s0 s ∧ dom (__nodes s) = dom (__nodes s0) ∪ list_to_set names ∧
  (all_bound f s0 → all_bound f s).

(** The nodes one edge away from a node infected in [s]. *)
Definition neighbor_of_infected (s : State) (n : ref) : Prop :=
  ∃ m o cn e, m ∈ Graph.infected s ∧ heap s !! m = Some o ∧
              node_edges o !! cn = Some e ∧ target e = n.

(** The infected nodes of [st] are infected in [s] or one edge away from a
    node infected in [s], the store being the one of [s]. *)
Definition one_hop (s st : State) : Prop :=
  heap st = heap s ∧
  ∀ n, n ∈ Graph.infected st → n ∈ Graph.infected s ∨ neighbor_of_infected s n.

(** The (parent, child) pairs that the arguments of a construction give,
    in order. *)
Definition edge_pairs (a : InitArgs) : list (Name * Name) :=
  match kw_graph a with
  | Some graph =>
      omap (fun e => match from_ e, to_ e with
                     | Some p, Some c => Some (p, c)
                     | _, _ => None
                     end) graph
  | None => default [] (args a)
  end.

(** How many times a pair occurs in a list of pairs. *)
Definition occurrences (pairs : list (Name * Name)) (parent child : Name) : nat :=
  length (filter (fun e => e = (parent, child)) pairs).

(** The multiplicity of the edge from the node registered as [name] to the
    name [cn], if there is such an edge. *)
Definition multiplicity_of (s : State) (name cn : Name) : option Z :=
  r ← __nodes s !! name;
  o ← heap s !! r;
  multiplicity <$> node_edges o !! cn.

(** The multiplicities are the numbers of occurrences of the pairs. *)
Definition counted (pairs : list (Name * Name)) (s : State) : Prop :=
  ∀ name cn,
    multiplicity_of s name cn =
    match occurrences pairs name cn with
    | O => None
    | S k => Some (Z.of_nat (S k))
    end.

(** The transmission function of a node infected in [s] raises [e] on one
    of the edges of the node. *)
Definition tp_raises (s : State) (e : exn) : Prop :=
  ∃ n o cn ed oc, n ∈ Graph.infected s ∧ heap s !! n = Some o ∧
    node_edges o !! cn = Some ed ∧ heap s !! target ed = Some oc ∧
    node_tp o (view o) (view oc) = Raise e.

(** The infected nodes are bound to the default rule, and their degrees
    and multiplicities are integers that [float] converts. *)
Definition small_default (s : State) : Prop :=
  ∀ n o, n ∈ Graph.infected s → heap s !! n = Some o →
    node_tp o = Graph.tp ∧ Z.abs (Node.degree_of (node_edges o)) < 2 ^ 1023 ∧
    ∀ cn ed, node_edges o !! cn = Some ed → Z.abs (multiplicity ed) < 2 ^ 1023.

(** The store and the two callbacks are those of [s]. *)
Definition same_store (s st : State) : Prop :=
  heap st = heap s ∧ __infection st = __infection s ∧ __recovery st = __recovery s.

(** * Reasoning about methods *)

Section Triples.
Context {A B : Type}.
Implicit Types (P : State → Prop) (E : failure → State → Prop).

Lemma triple_ret P (a : A) (Q : A → State → Prop) E :
  (∀ s, P s → Q a s) → triple P (mret a) Q E.
Proof. intros H s Hs. simpl. auto. Qed.

Lemma triple_raise P (e : failure) (Q : A → State → Prop) E :
  (∀ s, P s → E e s) → triple P (raise e) Q E.
Proof. intros H s Hs. simpl. auto. Qed.

Lemma triple_bind P (c : M A) (k : A → M B) (Q : A → State → Prop)
    (R : B → State → Prop) E :
  triple P c Q E → (∀ a, triple (Q a) (k a) R E) → triple P (c ≫= k) R E.
Proof.
  intros Hc Hk s Hs. specialize (Hc s Hs).
  unfold mbind, M_bind, bind.
  destruct (c s) as [[a|e] s']; [apply Hk, Hc | exact Hc].
Qed.

Lemma triple_conseq P P' (c : M A) (Q Q' : A → State → Prop) E E' :
  triple P' c Q' E' →
  (∀ s, P s → P' s) → (∀ a s, Q' a s → Q a s) → (∀ e s, E' e s → E e s) →
  triple P c Q E.
Proof.
  intros Hc HP HQ HE s Hs. specialize (Hc s (HP s Hs)).
  destruct (c s) as [[a|e] s']; auto.
Qed.

Lemma triple_lift P (r : result exn A) (Q : A → State → Prop) E :
  (∀ s, P s → match r with Ok a => Q a s | Raise e => E (Exn e) s end) →
  triple P (lift r) Q E.
Proof. intros H s Hs. specialize (H s Hs). unfold lift. destruct r; auto. Qed.

End Triples.

Lemma triple_get P (Q : State → State → Prop) E :
  (∀ s, P s → Q s s) → triple P get Q E.
Proof. intros H s Hs. simpl. auto. Qed.

Lemma triple_modify P (f : State → State) (Q : unit → State → Prop) E :
  (∀ s, P s → Q tt (f s)) → triple P (modify f) Q E.
Proof. intros H s Hs. simpl. auto. Qed.

Lemma triple_get_bind {B} P (k : State → M B) (Q : B → State → Prop) E :
  (∀ s0, triple (fun s => P s ∧ s = s0) (k s0) Q E) →
  triple P (get ≫= k) Q E.
Proof. intros H s Hs. apply (H s s). by split. Qed.

Lemma triple_log P (ev : Event) (Q : unit → State → Prop) E :
  (∀ s, P s → Q tt (set_trace (ev :: trace s) s)) → triple P (log ev) Q E.
Proof. intros H s Hs. apply H, Hs. Qed.

(** A loop keeps an invariant that each iteration keeps, also when an
    iteration raises. *)
Lemma triple_for_each {A} (I : State → Prop) (l : list A) (body : A → M unit) E :
  (∀ x, x ∈ l → triple I (body x) (fun _ => I) E) →
  triple I (for_each l body) (fun _ => I) E.
Proof.
  induction l as [|x l IH]; intros Hbody.
  - apply triple_ret. auto.
  - simpl. apply triple_bind with (Q := fun _ => I).
    + apply Hbody. set_solver.
    + intros _. apply IH. intros y Hy. apply Hbody. set_solver.
Qed.

(** The same with the list of the elements still to visit. *)
Lemma triple_for_each_rest {A} (I : list A → State → Prop) (l : list A)
    (body : A → M unit) E :
  (∀ x l', triple (I (x :: l')) (body x) (fun _ => I l') E) →
  triple (I l) (for_each l body) (fun _ => I []) E.
Proof.
  intros Hbody. induction l as [|x l IH].
  - apply triple_ret. auto.
  - simpl. apply triple_bind with (Q := fun _ => I l); [apply Hbody | intros _; apply IH].
Qed.

Lemma triple_deref P (r : ref) (Q : NodeObj → State → Prop) E :
  (∀ s, P s → match heap s !! r with
              | Some o => Q o s
              | None => E (DanglingRef r) s
              end) →
  triple P (deref r) Q E.
Proof.
  intros H s Hs. specialize (H s Hs). unfold deref, mbind, M_bind, bind, get.
  destruct (heap s !! r); exact H.
Qed.

Lemma triple_random P (Q : spec_float → State → Prop) E :
  (∀ s, P s → Q (samples s (cursor s)) (set_cursor (S (cursor s)) s)) →
  triple P random Q E.
Proof. intros H s Hs. apply H, Hs. Qed.

Lemma triple_keeps {A} (I : State → Prop) (P : State → Prop) (c : M A) s :
  triple P c (fun _ => I) (fun _ => I) → P s → I (c s).2.
Proof.
  intros H Hs. specialize (H s Hs). by destruct (c s) as [[a|e] s'].
Qed.

Lemma run_pair {A} (c : M A) (s : State) (a : A) :
  (c s).1 = Ok a → c s = (Ok a, (c s).2).
Proof. destruct (c s) as [r s']. simpl. by intros ->. Qed.

Ltac munfold :=
  unfold mbind, mret, M_bind, M_ret, bind, ret, get, modify, raise, lift, log in *.

(** * The default transmission probability *)

(** ** Floats of integers *)

(** The number of binary digits follows the mantissa through the shifts and
    the rounding of [binary_normalize]; this gives that the float of a
    nonzero integer is not a zero, and when it is finite. *)

Lemma digits2_pos_pos p : 0 < Zpos (digits2_pos p).
Proof. lia. Qed.

Lemma Zdigits2_nonneg m : 0 <= Zdigits2 m.
Proof. destruct m; simpl; lia. Qed.

Lemma Zdigits2_pos_iff m : 0 <= m -> (0 < Zdigits2 m <-> 0 < m).
Proof. destruct m; simpl; lia. Qed.

Lemma shr_1_digits mrs :
  0 <= shr_m mrs ->
  0 <= shr_m (shr_1 mrs) /\
  Zdigits2 (shr_m (shr_1 mrs)) = Z.max 0 (Zdigits2 (shr_m mrs) - 1).
Proof.
  destruct mrs as [m r s]. cbn [shr_m]. intros Hm.
  destruct m as [|[p|p|]|p]; cbn [shr_1 shr_m Zdigits2 digits2_pos]; lia.
Qed.

Lemma iter_pos_shr_1_digits n mrs :
  0 <= shr_m mrs ->
  0 <= shr_m (SpecFloat.iter_pos shr_1 n mrs) /\
  Zdigits2 (shr_m (SpecFloat.iter_pos shr_1 n mrs)) = Z.max 0 (Zdigits2 (shr_m mrs) - Zpos n).
Proof.
  revert mrs. induction n as [n IH|n IH|]; intros mrs Hm; simpl.
  - destruct (shr_1_digits mrs Hm) as [H1 E1].
    destruct (IH _ H1) as [H2 E2]. destruct (IH _ H2) as [H3 E3].
    split; [exact H3|]. rewrite E3, E2, E1. lia.
  - destruct (IH _ Hm) as [H2 E2]. destruct (IH _ H2) as [H3 E3].
    split; [exact H3|]. rewrite E3, E2. lia.
  - apply shr_1_digits, Hm.
Qed.

Lemma shr_digits mrs e n :
  0 <= shr_m mrs ->
  0 <= shr_m (fst (shr mrs e n)) /\
  Zdigits2 (shr_m (fst (shr mrs e n))) = Z.max 0 (Zdigits2 (shr_m mrs) - Z.max 0 n) /\
  snd (shr mrs e n) = e + Z.max 0 n.
Proof.
  intros Hm. destruct n as [|n|n]; simpl.
  - pose proof (Zdigits2_nonneg (shr_m mrs)). lia.
  - destruct (iter_pos_shr_1_digits n mrs Hm) as [H E]. rewrite E. lia.
  - pose proof (Zdigits2_nonneg (shr_m mrs)). lia.
Qed.

Lemma shr_record_of_loc_m m l : shr_m (shr_record_of_loc m l) = m.
Proof. destruct l as [|[]]; reflexivity. Qed.

Lemma digits2_pos_succ p :
  Zpos (digits2_pos (Pos.succ p)) = Zpos (digits2_pos p) \/
  Zpos (digits2_pos (Pos.succ p)) = Zpos (digits2_pos p) + 1.
Proof.
  induction p as [p IH|p IH|]; simpl; lia.
Qed.

Lemma round_nearest_even_digits m l :
  0 <= m ->
  m <= round_nearest_even m l /\
  (Zdigits2 (round_nearest_even m l) = Zdigits2 m \/
   Zdigits2 (round_nearest_even m l) = Zdigits2 m + 1).
Proof.
  intros Hm.
  assert (Hs : Zdigits2 (m + 1) = Zdigits2 m \/ Zdigits2 (m + 1) = Zdigits2 m + 1).
  { destruct m as [|p|p]; [simpl; lia| |lia].
    replace (Z.pos p + 1) with (Z.pos (Pos.succ p)) by lia. simpl.
    apply digits2_pos_succ. }
  destruct l as [|[]]; simpl; try (split; [lia|auto]).
  destruct (Z.even m); split; try lia; auto.
Qed.

Lemma digits2_pos_iter_xO p d :
  Zpos (digits2_pos (Pos.iter xO p d)) = Zpos (digits2_pos p) + Zpos d.
Proof.
  induction d as [|d IH] using Pos.peano_ind.
  - simpl. lia.
  - rewrite Pos.iter_succ. simpl. lia.
Qed.

Lemma shr_fexp_digits m e l :
  0 < m -> -1074 <= e ->
  let n := Z.max 0 (Z.max (Zdigits2 m + e - 53) (-1074) - e) in
  0 < shr_m (fst (shr_fexp 53 1024 m e l)) /\
  Zdigits2 (shr_m (fst (shr_fexp 53 1024 m e l))) = Zdigits2 m - n /\
  snd (shr_fexp 53 1024 m e l) = e + n.
Proof.
  intros Hm He n. unfold shr_fexp, fexp, emin.
  pose proof (shr_digits (shr_record_of_loc m l) e
                (Z.max (Zdigits2 m + e - 53) (3 - 1024 - 53) - e)) as H.
  rewrite shr_record_of_loc_m in H. destruct H as (H0 & Hd & Hs); [lia|].
  assert (Hdm : 0 < Zdigits2 m) by (apply Zdigits2_pos_iff; lia).
  assert (Hd' : Zdigits2 (shr_m (fst (shr (shr_record_of_loc m l) e
                  (Z.max (Zdigits2 m + e - 53) (3 - 1024 - 53) - e))))
                = Zdigits2 m - n) by (rewrite Hd; unfold n; lia).
  split; [|split; [exact Hd'|rewrite Hs; unfold n; lia]].
  apply Zdigits2_pos_iff; [exact H0|]. rewrite Hd'. unfold n. lia.
Qed.

Lemma binary_round_aux_finite sx mx ex lx :
  0 < mx -> -1074 <= ex <= 0 ->
  ((exists m e, binary_round_aux 53 1024 sx mx ex lx = S754_finite sx m e) \/
   binary_round_aux 53 1024 sx mx ex lx = S754_infinity sx) /\
  (Zdigits2 mx + ex <= 1023 ->
   exists m e, binary_round_aux 53 1024 sx mx ex lx = S754_finite sx m e).
Proof.
  intros Hm He. unfold binary_round_aux.
  destruct (shr_fexp_digits mx ex lx Hm) as (H1 & D1 & E1); [lia|].
  destruct (shr_fexp 53 1024 mx ex lx) as [mrs' e'] eqn:S1.
  cbn [fst snd] in H1, D1, E1.
  set (m2 := round_nearest_even (shr_m mrs') (loc_of_shr_record mrs')).
  destruct (round_nearest_even_digits (shr_m mrs') (loc_of_shr_record mrs'))
    as (R1 & R2); [lia|]. fold m2 in R1, R2.
  assert (Hm2 : 0 < m2) by lia.
  assert (He' : -1074 <= e') by lia.
  destruct (shr_fexp_digits m2 e' loc_Exact Hm2 He') as (H3 & D3 & E3).
  destruct (shr_fexp 53 1024 m2 e' loc_Exact) as [mrs'' e''] eqn:S2.
  cbn [fst snd] in H3, D3, E3.
  destruct (shr_m mrs'') as [|m3|m3] eqn:M3; [lia| |lia].
  split.
  - destruct (e'' <=? 1024 - 53); eauto.
  - intros Hb. assert (e'' <= 971) by lia.
    replace (e'' <=? 1024 - 53) with true by (symmetry; apply Z.leb_le; lia).
    eauto.
Qed.

Lemma binary_round_finite sx p :
  ((exists m e, binary_round 53 1024 sx p 0 = S754_finite sx m e) \/
   binary_round 53 1024 sx p 0 = S754_infinity sx) /\
  (Zpos (digits2_pos p) <= 1023 ->
   exists m e, binary_round 53 1024 sx p 0 = S754_finite sx m e).
Proof.
  unfold binary_round, shl_align, fexp, emin.
  destruct (Z.max (Z.pos (digits2_pos p) + 0 - 53) (3 - 1024 - 53) - 0) as [|d|d] eqn:Ed.
  - destruct (binary_round_aux_finite sx (Zpos p) 0 loc_Exact) as [H1 H2]; [lia..|].
    split; [exact H1|]. intros Hb. apply H2. simpl. lia.
  - destruct (binary_round_aux_finite sx (Zpos p) 0 loc_Exact) as [H1 H2]; [lia..|].
    split; [exact H1|]. intros Hb. apply H2. simpl. lia.
  - destruct (binary_round_aux_finite sx (Zpos (Pos.iter xO p d))
                (Z.max (Z.pos (digits2_pos p) + 0 - 53) (3 - 1024 - 53)) loc_Exact)
      as [H1 H2]; [lia..|].
    split; [exact H1|]. intros Hb. apply H2. cbn [Zdigits2].
    rewrite digits2_pos_iter_xO. lia.
Qed.

Lemma digits2_pos_le p : 2 ^ (Zpos (digits2_pos p) - 1) <= Zpos p.
Proof.
  induction p as [p IH|p IH|]; cbn [digits2_pos].
  - replace (Z.pos (Pos.succ (digits2_pos p)) - 1)
      with (Z.succ (Z.pos (digits2_pos p) - 1)) by lia.
    rewrite Z.pow_succ_r by lia. lia.
  - replace (Z.pos (Pos.succ (digits2_pos p)) - 1)
      with (Z.succ (Z.pos (digits2_pos p) - 1)) by lia.
    rewrite Z.pow_succ_r by lia. lia.
  - reflexivity.
Qed.

Lemma digits2_pos_bound p n :
  0 <= n -> Zpos p < 2 ^ n -> Zpos (digits2_pos p) <= n.
Proof.
  intros Hn Hp. destruct (Z.le_gt_cases (Zpos (digits2_pos p)) n) as [H|H]; [exact H|].
  pose proof (digits2_pos_le p) as Hle.
  assert (2 ^ n <= 2 ^ (Zpos (digits2_pos p) - 1)) by (apply Z.pow_le_mono_r; lia).
  lia.
Qed.

(** The float nearest to a nonzero integer is a nonzero finite float of the
    same sign, or an infinity; it is finite below 2^1023. *)
Lemma binary_normalize_nonzero z :
  z <> 0 ->
  ((exists m e, binary_normalize 53 1024 z 0 false = S754_finite (z <? 0) m e) \/
   binary_normalize 53 1024 z 0 false = S754_infinity (z <? 0)) /\
  (Z.abs z < 2 ^ 1023 ->
   exists m e, binary_normalize 53 1024 z 0 false = S754_finite (z <? 0) m e).
Proof.
  intros Hz. destruct z as [|p|p]; [congruence| |]; cbn [binary_normalize Z.ltb Z.compare].
  - destruct (binary_round_finite false p) as [H1 H2]. split; [exact H1|].
    intros Hb. apply H2, digits2_pos_bound; lia.
  - destruct (binary_round_finite true p) as [H1 H2]. split; [exact H1|].
    intros Hb. apply H2, digits2_pos_bound; lia.
Qed.

Lemma of_long_nonzero (z : Z) :
  z ≠ 0 →
  ((∃ m e, PyFloat.of_long z = Ok (S754_finite (z <? 0) m e)) ∨
   PyFloat.of_long z = Raise OverflowError) ∧
  (Z.abs z < 2 ^ 1023 → ∃ m e, PyFloat.of_long z = Ok (S754_finite (z <? 0) m e)).
Proof.
  intros Hz. unfold PyFloat.of_long, PyFloat.prec, PyFloat.emax.
  destruct (binary_normalize_nonzero z Hz) as [H1 H2]. split.
  - destruct H1 as [(m & e & ->)| ->]; eauto.
  - intros Hb. destruct (H2 Hb) as (m & e & ->). eauto.
Qed.

Lemma of_long_small (z : Z) :
  Z.abs z < 2 ^ 1023 → ∃ a, PyFloat.of_long z = Ok a.
Proof.
  intros Hb. destruct (decide (z = 0)) as [->|Hz]; [by eexists|].
  destruct (of_long_nonzero z Hz) as [_ H]. destruct (H Hb) as (m & e & ->). eauto.
Qed.

(** Dividing by the float of a nonzero integer raises no
    [ZeroDivisionError]. *)
Lemma div_of_long (a : spec_float) (z : Z) (b : spec_float) :
  z ≠ 0 → PyFloat.of_long z = Ok b →
  PyFloat.div a b = Ok (SFdiv PyFloat.prec PyFloat.emax a b).
Proof.
  intros Hz Hb. destruct (of_long_nonzero z Hz) as [[(m & e & H)|H] _].
  - rewrite H in Hb. by injection Hb as <-.
  - congruence.
Qed.

(** ** The rule *)

(** The degree is the multiplicity of any one edge plus the degree without
    that edge. *)
Lemma degree_of_delete (edges : gmap Name Edge) (name : Name) (e : Edge) :
  edges !! name = Some e →
  Node.degree_of edges = multiplicity e + Node.degree_of (delete name edges).
Proof.
  intros He. unfold Node.degree_of.
  rewrite (map_fold_delete_L _ _ name e edges); [done| |done].
  intros. lia.
Qed.

Lemma degree_of_nonneg (edges : gmap Name Edge) :
  (∀ name e, edges !! name = Some e → 1 ≤ multiplicity e) →
  0 ≤ Node.degree_of edges.
Proof.
  unfold Node.degree_of.
  apply (map_fold_weak_ind
           (fun d m => (∀ name e, m !! name = Some e → 1 ≤ multiplicity e) → 0 ≤ d)).
  - done.
  - intros name e m d Hnone IH Hall.
    assert (1 ≤ multiplicity e) by (apply (Hall name); apply lookup_insert_eq).
    assert (0 ≤ d); [|lia].
    apply IH. intros name' e' He'. apply (Hall name').
    rewrite lookup_insert_ne; [done|]. intros <-. congruence.
Qed.

(** With multiplicities of 1 or more, as [add_child] makes them, a parent
    that has an edge has a degree of at least the multiplicity of that
    edge: the degree is then not 0. *)
Lemma degree_of_edge (edges : gmap Name Edge) (name : Name) (e : Edge) :
  (∀ name e, edges !! name = Some e → 1 ≤ multiplicity e) →
  edges !! name = Some e →
  1 ≤ multiplicity e ≤ Node.degree_of edges.
Proof.
  intros Hall He. rewrite (degree_of_delete _ _ _ He).
  assert (0 ≤ Node.degree_of (delete name edges)).
  { apply degree_of_nonneg. intros name' e' He'.
    apply lookup_delete_Some in He' as [_ He']. by apply (Hall name'). }
  pose proof (Hall _ _ He). lia.
Qed.

Lemma tp_no_edge (from_node to_node : NodeView) :
  from_node.2 !! to_node.1 = None →
  Graph.tp from_node to_node = Raise (NameKeyError to_node.1).
Proof. intros H. unfold Graph.tp. by rewrite H. Qed.

(** C1: applied to a parent and to a child that the parent has an edge to,
    the default rule returns [0.0] when the degree of the parent (the sum
    of the multiplicities of its edges) is 0; otherwise it returns the
    float of the multiplicity of the edge divided by the float of the
    degree, the division raising no error (only the conversion of an
    integer of 2^1023 or more to a float can raise).  In no case does it
    raise [ZeroDivisionError]. *)
Theorem default_transmission_probability (from_node to_node : NodeView) (edge : Edge) :
  from_node.2 !! to_node.1 = Some edge →
  let degree := Node.degree_of from_node.2 in
  (degree = 0 → Graph.tp from_node to_node = Ok PyFloat.zero) ∧
  (degree ≠ 0 →
     Graph.tp from_node to_node =
     result_bind (PyFloat.of_long (multiplicity edge)) (fun a =>
     result_bind (PyFloat.of_long degree) (fun b =>
     Ok (SFdiv PyFloat.prec PyFloat.emax a b)))) ∧
  (degree ≠ 0 → Z.abs (multiplicity edge) < 2 ^ 1023 → Z.abs degree < 2 ^ 1023 →
     ∃ a b, PyFloat.of_long (multiplicity edge) = Ok a ∧
            PyFloat.of_long degree = Ok b ∧
            Graph.tp from_node to_node = Ok (SFdiv PyFloat.prec PyFloat.emax a b)) ∧
  Graph.tp from_node to_node ≠ Raise ZeroDivisionError.
Proof.
  intros Hedge degree.
  assert (H0 : degree = 0 → Graph.tp from_node to_node = Ok PyFloat.zero).
  { intros Hd. unfold Graph.tp. rewrite Hedge. fold degree. by rewrite Hd. }
  assert (H1 : degree ≠ 0 →
     Graph.tp from_node to_node =
     result_bind (PyFloat.of_long (multiplicity edge)) (fun a =>
     result_bind (PyFloat.of_long degree) (fun b =>
     Ok (SFdiv PyFloat.prec PyFloat.emax a b)))).
  { intros Hd. unfold Graph.tp. rewrite Hedge. fold degree.
    apply Z.eqb_neq in Hd as Hd'. rewrite Hd'.
    destruct (PyFloat.of_long (multiplicity edge)) as [a|e]; [|done]. simpl.
    destruct (PyFloat.of_long degree) as [b|e] eqn:Eb; [|done]. simpl.
    by apply div_of_long with degree. }
  split_and!; [exact H0 | exact H1 | |].
  - intros Hd Hm Hdb. rewrite (H1 Hd).
    destruct (of_long_small _ Hm) as [a Ha]. destruct (of_long_small _ Hdb) as [b Hb].
    exists a, b. rewrite Ha, Hb. by split_and!.
  - destruct (decide (degree = 0)) as [Hd|Hd].
    + by rewrite (H0 Hd).
    + rewrite (H1 Hd).
      destruct (PyFloat.of_long (multiplicity edge)) as [a|e] eqn:Ea; simpl.
      * destruct (PyFloat.of_long degree) as [b|e] eqn:Eb; simpl; [done|].
        destruct (of_long_nonzero degree Hd) as [[(m & e' & H)|H] _]; congruence.
      * unfold PyFloat.of_long in Ea.
        destruct (binary_normalize _ _ _ _ _); congruence.
Qed.

(** The rule on a parent with one edge of multiplicity 1: the edge is found,
    the division raises no error, and the result is the quotient of the two
    floats. *)
Lemma default_transmission_probability_witness :
  Example.view1.2 !! Example.view2.1 = Some Example.edge12 ∧
  Graph.tp Example.view1 Example.view2 ≠ Raise ZeroDivisionError ∧
  ∃ a b, PyFloat.of_long 1 = Ok a ∧ PyFloat.of_long 1 = Ok b ∧
         Graph.tp Example.view1 Example.view2
         = Ok (SFdiv PyFloat.prec PyFloat.emax a b).
Proof.
  assert (H : Example.view1.2 !! Example.view2.1 = Some Example.edge12)
    by reflexivity.
  split; [exact H|].
  destruct (default_transmission_probability _ _ _ H) as (_ & _ & Hdiv & Hno).
  split; [exact Hno|].
  apply Hdiv; vm_compute; congruence.
Defined.

(** On these inputs: one edge of multiplicity 1 gives 1.0, a degree of 0
    gives 0.0, and a child the parent has no edge to is a [KeyError]. *)
Lemma default_transmission_probability_values :
  Graph.tp Example.view1 Example.view2 = Ok PyFloat.one ∧
  Graph.tp Example.view_null Example.view2 = Ok PyFloat.zero ∧
  Graph.tp Example.view2 Example.view1 = Raise (NameKeyError (NInt 1)).
Proof. vm_compute. by split_and!. Qed.

(** * The closures installed by [set_infection] and [set_recovery] *)

Lemma i_run (callback : Callback) (n : ref) (o : NodeObj) (s : State) :
  heap s !! n = Some o →
  Graph.i callback n s =
  Graph.callback_call callback n
    (assign_infected (insert_absent (node_name o) n (__infected s)) s).
Proof.
  intros Hn. unfold Graph.i, Node.name, deref, insert_absent. munfold. rewrite Hn.
  destruct (decide (__infected s !! node_name o = None)); [reflexivity|].
  by destruct s.
Qed.

Lemma r_run (callback : Callback) (n : ref) (o : NodeObj) (s : State) :
  heap s !! n = Some o →
  Graph.r callback n s =
  (Ok tt, assign_infected (delete (node_name o) (__infected s)) s).
Proof.
  intros Hn. unfold Graph.r, Node.name, deref. munfold. rewrite Hn.
  destruct (decide (__infected s !! node_name o = None)) as [Hnone|]; [|reflexivity].
  rewrite delete_id by done. by destruct s.
Qed.

Lemma insert_absent_twice (name : Name) (n : ref) (index : gmap Name ref) :
  insert_absent name n (insert_absent name n index) = insert_absent name n index.
Proof.
  unfold insert_absent at 1.
  destruct (decide (insert_absent name n index !! name = None)) as [Hnone|]; [|reflexivity].
  exfalso. revert Hnone. unfold insert_absent.
  destruct (decide (index !! name = None)); [by rewrite lookup_insert_eq | done].
Qed.



(** What the procedure installed by [set_recovery callback] does on a node:
    it removes the node's name from the infected index and returns; the
    trace, where a call of [callback] would appear, is unchanged. *)
Lemma set_recovery_wrapper (callback : Callback) (n : ref) (o : NodeObj) (s : State) :
  heap s !! n = Some o →
  let s0 := (Graph.set_recovery callback s).2 in
  __recovery s0 = Some (RecoveryWrapper callback) ∧
  Graph.call (__recovery s0) n s0
    = (Ok tt, assign_infected (delete (node_name o) (__infected s)) s0) ∧
  trace (Graph.call (__recovery s0) n s0).2 = trace s.
Proof.
  intros Hn s0.
  assert (H0 : heap s0 !! n = Some o) by exact Hn.
  assert (E : Graph.call (__recovery s0) n s0
              = (Ok tt, assign_infected (delete (node_name o) (__infected s)) s0)).
  { simpl. by rewrite (r_run _ _ _ _ H0). }
  split_and!; [reflexivity | exact E | by rewrite E].
Qed.

(** C4: what the code does.  On the chain with node 1 infected, after
    [set_recovery(cb)], the installed procedure removes node 1 from the
    infected index and returns: no call of [cb] is recorded, neither when
    the procedure is called on the node nor through [recover()].  The
    wrapper that [set_infection(cb)] installs does call [cb]. *)
Lemma recovery_callback_dropped :
  let s := (Graph.set_recovery (CbUser 7) Example.chain_seeded).2 in
  let s' := (Graph.call (__recovery s) 1%positive s).2 in
  let t := (Graph.set_infection (CbUser 7) s).2 in
  elements (Graph.infected s) = [1%positive] ∧
  (Graph.call (__recovery s) 1%positive s).1 = Ok tt ∧
  elements (Graph.infected s') = [] ∧
  trace s' = trace s ∧
  (Graph.recover s).1 = Ok tt ∧
  elements (Graph.infected (Graph.recover s).2) = [] ∧
  trace (Graph.recover s).2 = EvNodeRecover 1%positive :: trace s ∧
  trace (Graph.call (__infection t) 1%positive t).2
    = EvCallback (CbUser 7) 1%positive :: trace s.
Proof. vm_compute. by split_and!. Qed.

(** * Construction *)

(** ** Running the construction steps *)

Lemma new_run (name : Name) (f : TransFn) (s : State) :
  Node.new name f s =
  (Ok (fresh (dom (heap s))),
   set_heap (<[fresh (dom (heap s)) := mkNode name ∅ f]> (heap s)) s).
Proof. reflexivity. Qed.

Lemma add_child_run (n other : ref) (o oo : NodeObj) ty w (s : State) :
  heap s !! n = Some o → heap s !! other = Some oo →
  Node.add_child n other ty w s =
  (Ok tt, set_heap (<[n := with_child o (node_name oo) other ty w]> (heap s)) s).
Proof.
  intros Hn Ho. unfold Node.add_child, Node.name, deref, store. munfold.
  rewrite Hn, Ho. reflexivity.
Qed.

Lemma add_node_run (node : ref) (o : NodeObj) (s : State) :
  heap s !! node = Some o →
  Graph.add_node node s =
  (Ok node, assign_nodes (insert_absent (node_name o) node (__nodes s)) s).
Proof.
  intros Hn. unfold Graph.add_node, Node.name, deref, insert_absent. munfold.
  rewrite Hn. destruct (decide (__nodes s !! node_name o = None)); [reflexivity|].
  by destruct s.
Qed.

Lemma fresh_heap (h : gmap ref NodeObj) : h !! fresh (dom h) = None.
Proof. apply not_elem_of_dom, is_fresh. Qed.

Lemma with_child_name o oname other ty w :
  node_name (with_child o oname other ty w) = node_name o.
Proof. reflexivity. Qed.

Lemma link_run parent child p c op oc ty w s :
  heap s !! p = Some op → node_name op = parent →
  heap s !! c = Some oc → node_name oc = child →
  (Node.add_child p c ty w;; Graph.add_node p;; Graph.add_node c;; ret tt) s
  = (Ok tt, linked parent child p c op ty w s).
Proof.
  intros Hp Np Hc Nc.
  unfold mbind, M_bind, bind.
  rewrite (add_child_run _ _ _ _ _ _ _ Hp Hc).
  set (s1 := set_heap _ s).
  assert (Hp1 : heap s1 !! p = Some (with_child op (node_name oc) c ty w)).
  { unfold s1. simpl. apply lookup_insert_eq. }
  rewrite (add_node_run _ _ _ Hp1).
  set (s2 := assign_nodes _ s1).
  assert (Hc2 : ∃ oc', heap s2 !! c = Some oc' ∧ node_name oc' = child).
  { unfold s2, s1. simpl. destruct (decide (p = c)) as [->|Hne].
    - rewrite lookup_insert_eq. eexists; split; [reflexivity|].
      simpl. congruence.
    - rewrite lookup_insert_ne by done. eauto. }
  destruct Hc2 as (oc' & Hc2 & Nc').
  rewrite (add_node_run _ _ _ Hc2).
  unfold linked, s2, s1. simpl. rewrite Nc', Np, Nc. reflexivity.
Qed.

Lemma resolved_run {B} name tpo (k : ref → M B) s :
  (p ← Graph.get_node_by_name name;
   p ← match p with
       | Some p => mret p
       | None => f ← Graph.tp_or_default tpo; Node.new name f
       end;
   k p) s
  = k (resolved name tpo s).1 (resolved name tpo s).2.
Proof.
  unfold resolved, Graph.get_node_by_name, Graph.tp_or_default. munfold.
  destruct (__nodes s !! name); reflexivity.
Qed.

(** Allocation keeps the objects that exist. *)
Lemma resolved_heap name tpo s r o :
  heap s !! r = Some o → heap (resolved name tpo s).2 !! r = Some o.
Proof.
  intros Hr. unfold resolved. destruct (__nodes s !! name); [exact Hr|].
  simpl. rewrite lookup_insert_ne; [exact Hr|].
  intros <-. by rewrite fresh_heap in Hr.
Qed.

Lemma resolved_graph name tpo s :
  let s' := (resolved name tpo s).2 in
  __nodes s' = __nodes s ∧ __infected s' = __infected s ∧
  __transmission_probability s' = __transmission_probability s ∧
  __infection s' = __infection s ∧ __recovery s' = __recovery s ∧
  trace s' = trace s ∧ cursor s' = cursor s.
Proof. unfold resolved. destruct (__nodes s !! name); simpl; auto 10. Qed.

(** The node that results is live and carries the name; it is the
    registered one, or a new one without edges bound to the supplied
    function or else to the graph's. *)
Lemma resolved_live name tpo s :
  registry_ok s →
  ∃ o, heap (resolved name tpo s).2 !! (resolved name tpo s).1 = Some o ∧
       node_name o = name ∧
       (__nodes s !! name = Some (resolved name tpo s).1 ∨
        (__nodes s !! name = None ∧ node_edges o = ∅ ∧
         heap s !! (resolved name tpo s).1 = None ∧
         node_tp o = default (__transmission_probability s) tpo)).
Proof.
  intros Hreg. unfold resolved.
  destruct (__nodes s !! name) as [r|] eqn:E; simpl.
  - destruct (Hreg _ _ E) as (o & Ho & Hname). eauto.
  - rewrite lookup_insert_eq. eexists; split_and!; [reflexivity..|].
    right. split_and!; auto using fresh_heap.
Qed.

Lemma insert_absent_old (k k' : Name) (v v' : ref) (m : gmap Name ref) :
  m !! k = Some v → insert_absent k' v' m !! k = Some v.
Proof.
  intros H. unfold insert_absent. case_decide as Hk'; [|exact H].
  rewrite lookup_insert_ne; [exact H | congruence].
Qed.

Lemma insert_absent_inv (k k' : Name) (v v' : ref) (m : gmap Name ref) :
  insert_absent k' v' m !! k = Some v →
  m !! k = Some v ∨ (k = k' ∧ v = v' ∧ m !! k' = None).
Proof.
  unfold insert_absent. case_decide as Hk'; [|auto].
  destruct (decide (k' = k)) as [->|Hne].
  - rewrite lookup_insert_eq. intros [= ->]. auto.
  - rewrite lookup_insert_ne by done. auto.
Qed.

Lemma insert_absent_is_Some (k : Name) (v : ref) (m : gmap Name ref) :
  is_Some (insert_absent k v m !! k).
Proof.
  unfold insert_absent. case_decide as Hk.
  - rewrite lookup_insert_eq. eauto.
  - by apply not_eq_None_Some.
Qed.

Lemma insert_absent_ne (k k' : Name) (v' : ref) (m : gmap Name ref) :
  k ≠ k' → insert_absent k' v' m !! k = m !! k.
Proof.
  intros Hne. unfold insert_absent. case_decide; [|done].
  by rewrite lookup_insert_ne.
Qed.

Lemma resolved_Inv name tpo s : Inv s → Inv (resolved name tpo s).2.
Proof.
  intros (Hreg & Hidx & Hedge). unfold resolved.
  destruct (__nodes s !! name) as [r|] eqn:E; [by split_and!|].
  simpl. set (r := fresh (dom (heap s))).
  assert (Hlive : ∀ r' o, heap s !! r' = Some o →
            <[r := mkNode name ∅ (default (__transmission_probability s) tpo)]>
              (heap s) !! r' = Some o).
  { intros r' o Hr'. rewrite lookup_insert_ne; [done|].
    intros <-. unfold r in Hr'. by rewrite fresh_heap in Hr'. }
  split_and!.
  - intros nm r' Hnm. simpl in *. destruct (Hreg _ _ Hnm) as (o & Ho & Hn). eauto.
  - exact Hidx.
  - intros nm r' o cn e Hnm Ho He. simpl in *.
    destruct (Hreg _ _ Hnm) as (o' & Ho' & Hn').
    rewrite (Hlive _ _ Ho') in Ho. injection Ho as <-.
    destruct (Hedge _ _ _ _ _ Hnm Ho' He) as ((oc & Hoc & Hcn) & Hor).
    split; [eauto | exact Hor].
Qed.

Lemma linked_Inv parent child p c op oc ty w s :
  Inv s →
  heap s !! p = Some op → node_name op = parent →
  heap s !! c = Some oc → node_name oc = child →
  (__nodes s !! parent = Some p ∨ (__nodes s !! parent = None ∧ node_edges op = ∅)) →
  (__nodes s !! child = Some c ∨ (__nodes s !! child = None ∧ node_edges oc = ∅)) →
  Inv (linked parent child p c op ty w s).
Proof.
  intros (Hreg & Hidx & Hedge) Hp Np Hc Nc HP HC.
  set (s' := linked parent child p c op ty w s).
  assert (Hgrow : ∀ nm r, __nodes s !! nm = Some r → __nodes s' !! nm = Some r).
  { intros nm r H. unfold s', linked. simpl. by do 2 apply insert_absent_old. }
  assert (Hnew : ∀ nm r, __nodes s' !! nm = Some r →
            __nodes s !! nm = Some r ∨
            (nm = parent ∧ r = p ∧ __nodes s !! parent = None) ∨
            (nm = child ∧ r = c ∧ __nodes s !! child = None ∧ child ≠ parent)).
  { intros nm r H. unfold s', linked in H. simpl in H.
    apply insert_absent_inv in H as [H|(-> & -> & H)].
    - apply insert_absent_inv in H as [H|(-> & -> & H)]; auto.
    - right. right. split_and!; auto.
      + unfold insert_absent in H. case_decide; [|done].
        destruct (decide (parent = child)) as [->|]; [by rewrite lookup_insert_eq in H|].
        by rewrite lookup_insert_ne in H.
      + intros ->. unfold insert_absent in H. case_decide; [|congruence].
        by rewrite lookup_insert_eq in H. }
  assert (Hlive : ∀ r o, heap s !! r = Some o →
            ∃ o', heap s' !! r = Some o' ∧ node_name o' = node_name o ∧
                  (r ≠ p → o' = o)).
  { intros r o Hr. unfold s', linked. simpl. destruct (decide (p = r)) as [->|Hne].
    - rewrite lookup_insert_eq. eexists; split_and!; [reflexivity| |done].
      simpl. congruence.
    - rewrite lookup_insert_ne by done. eauto. }
  assert (Hp' : heap s' !! p = Some (with_child op child c ty w)).
  { unfold s', linked. simpl. apply lookup_insert_eq. }
  split_and!.
  - intros nm r Hnm. destruct (Hnew _ _ Hnm) as [H|[(-> & -> & H)|(-> & -> & H & _)]].
    + destruct (Hreg _ _ H) as (o & Ho & Hn).
      destruct (Hlive _ _ Ho) as (o' & Ho' & Hn' & _). exists o'. split; congruence.
    + eexists; split; [exact Hp'|]. simpl. exact Np.
    + destruct (Hlive _ _ Hc) as (o' & Ho' & Hn' & _). exists o'. split; congruence.
  - intros nm r Hnm. apply Hgrow, Hidx, Hnm.
  - intros nm r o cn e Hnm Ho He.
    (* an edge that the pre-state already had, owned by a registered node *)
    assert (Hold : ∀ r0 o0, __nodes s !! nm = Some r0 → heap s !! r0 = Some o0 →
              node_edges o0 !! cn = Some e →
              (∃ oc0, heap s' !! target e = Some oc0 ∧ node_name oc0 = cn) ∧
              (__nodes s' !! cn = Some (target e) ∨ cn = nm)).
    { intros r0 o0 Hr0 Ho0 He0.
      destruct (Hedge _ _ _ _ _ Hr0 Ho0 He0) as ((oc0 & Hoc0 & Hcn) & Hor).
      destruct (Hlive _ _ Hoc0) as (oc1 & Hoc1 & Hn1 & _).
      split; [exists oc1; split; congruence|].
      destruct Hor as [Hor|Hor]; [left; by apply Hgrow | by right]. }
    destruct (decide (r = p)) as [->|Hrp].
    + (* the owner is the parent *)
      rewrite Hp' in Ho. injection Ho as <-.
      assert (nm = parent) as ->.
      { destruct (Hnew _ _ Hnm) as [H|[(-> & _)|(-> & -> & H & Hne)]]; [|done|].
        - destruct (Hreg _ _ H) as (o & Ho & Hn). congruence.
        - congruence. }
      simpl in He. destruct (decide (child = cn)) as [<-|Hcn].
      * rewrite lookup_insert_eq in He.
        destruct (node_edges op !! child) as [[m t w' c0]|] eqn:E0.
        -- (* the edge existed: the parent was registered *)
           injection He as <-. cbn [target].
           destruct HP as [HP|[_ HP]]; [|by rewrite HP in E0].
           destruct (Hedge _ _ _ _ _ HP Hp E0) as ((oc0 & Hoc0 & Hcn) & Hor).
           simpl in Hoc0, Hor.
           destruct (Hlive _ _ Hoc0) as (oc1 & Hoc1 & Hn1 & _).
           split; [exists oc1; split; congruence|].
           destruct Hor as [Hor|Hor]; [left; by apply Hgrow | by right].
        -- (* a new edge to c *)
           injection He as <-. cbn [target].
           destruct (Hlive _ _ Hc) as (oc1 & Hoc1 & Hn1 & _).
           split; [exists oc1; split; congruence|].
           destruct (decide (child = parent)) as [Heq|Hne]; [by right|left].
           destruct HC as [HC|[HC _]]; [by apply Hgrow|].
           unfold s', linked. simpl. unfold insert_absent at 1.
           rewrite decide_True.
           ++ apply lookup_insert_eq.
           ++ unfold insert_absent. case_decide; [|done].
              by rewrite lookup_insert_ne.
      * rewrite lookup_insert_ne in He by done.
        destruct HP as [HP|[_ HP]]; [|by rewrite HP in He].
        eapply Hold; eauto.
    + (* another owner: its object is the one of the pre-state *)
      destruct (Hnew _ _ Hnm) as [H|[(-> & -> & H)|(-> & -> & H & Hne)]]; [|done|].
      * destruct (Hreg _ _ H) as (o0 & Ho0 & Hn0).
        destruct (Hlive _ _ Ho0) as (o1 & Ho1 & _ & Hsame).
        rewrite Ho1 in Ho. injection Ho as <-. rewrite (Hsame Hrp) in He.
        eapply Hold; eauto.
      * destruct (Hlive _ _ Hc) as (o1 & Ho1 & _ & Hsame).
        rewrite Ho1 in Ho. injection Ho as <-. rewrite (Hsame Hrp) in He.
        destruct HC as [HC|[_ HC]]; [congruence | by rewrite HC in He].
Qed.

Lemma resolved_registry_ok name tpo s :
  registry_ok s → registry_ok (resolved name tpo s).2.
Proof.
  intros Hreg nm r Hnm.
  destruct (resolved_graph name tpo s) as (Hg & _). simpl in Hg. rewrite Hg in Hnm.
  destruct (Hreg _ _ Hnm) as (o & Ho & Hn). exists o. split; [|done].
  by apply resolved_heap.
Qed.

(** On a well-formed registry the method returns, in the state
    [after_edge]. *)
Lemma add_edge_by_node_sequence_run parent child d tpo ty w s :
  registry_ok s →
  Graph.add_edge_by_node_sequence parent child d tpo ty w s
  = (Ok tt, after_edge parent child tpo ty w s).
Proof.
  intros Hreg. unfold Graph.add_edge_by_node_sequence.
  rewrite resolved_run, resolved_run.
  destruct (resolved_live parent tpo s Hreg) as (op & Hop & Nop & _).
  pose proof (resolved_registry_ok parent tpo s Hreg) as Hreg1.
  destruct (resolved_live child tpo _ Hreg1) as (oc & Hoc & Noc & _).
  pose proof (resolved_heap child tpo _ _ _ Hop) as Hop2.
  rewrite (link_run parent child _ _ op oc ty w _ Hop2 Nop Hoc Noc).
  unfold after_edge. by rewrite Hop2.
Qed.

Lemma after_edge_Inv parent child tpo ty w s :
  Inv s → Inv (after_edge parent child tpo ty w s).
Proof.
  intros HI. pose proof HI as (Hreg & _).
  pose proof (resolved_Inv parent tpo s HI) as HI1.
  pose proof HI1 as (Hreg1 & _).
  pose proof (resolved_Inv child tpo _ HI1) as HI2.
  destruct (resolved_live parent tpo s Hreg) as (op & Hop & Nop & HP).
  destruct (resolved_live child tpo _ Hreg1) as (oc & Hoc & Noc & HC).
  pose proof (resolved_heap child tpo _ _ _ Hop) as Hop2.
  destruct (resolved_graph parent tpo s) as (Hg1 & _).
  destruct (resolved_graph child tpo (resolved parent tpo s).2) as (Hg2 & _).
  simpl in Hg1, Hg2.
  unfold after_edge. rewrite Hop2.
  apply linked_Inv with (oc := oc); try done.
  - rewrite Hg2, Hg1. destruct HP as [HP|(HP & He & _)]; auto.
  - rewrite Hg2. destruct HC as [HC|(HC & He & _)]; auto.
Qed.

Lemma frame_refl s : frame s s.
Proof. by repeat split. Qed.

Lemma frame_trans s1 s2 s3 : frame s1 s2 → frame s2 s3 → frame s1 s3.
Proof. unfold frame. intuition congruence. Qed.

Lemma resolved_frame name tpo s : frame s (resolved name tpo s).2.
Proof. unfold resolved. destruct (__nodes s !! name); by repeat split. Qed.

Lemma after_edge_frame parent child tpo ty w s :
  frame s (after_edge parent child tpo ty w s).
Proof.
  unfold after_edge.
  eapply frame_trans; [apply (resolved_frame parent tpo)|].
  eapply frame_trans; [apply (resolved_frame child tpo)|].
  destruct (heap _ !! _); by repeat split.
Qed.

Lemma after_edge_registry parent child tpo ty w s :
  registry_ok s →
  let s' := after_edge parent child tpo ty w s in
  registry_kept s s' ∧
  is_Some (__nodes s' !! parent) ∧ is_Some (__nodes s' !! child) ∧
  (∀ name, name ≠ parent → name ≠ child → __nodes s' !! name = __nodes s !! name).
Proof.
  intros Hreg s'.
  destruct (resolved_live parent tpo s Hreg) as (op & Hop & _).
  pose proof (resolved_heap child tpo _ _ _ Hop) as Hop2.
  destruct (resolved_graph parent tpo s) as (Hg1 & _).
  destruct (resolved_graph child tpo (resolved parent tpo s).2) as (Hg2 & _).
  simpl in Hg1, Hg2.
  assert (Hs' : __nodes s' =
    insert_absent child (resolved child tpo (resolved parent tpo s).2).1
      (insert_absent parent (resolved parent tpo s).1 (__nodes s))).
  { unfold s', after_edge. rewrite Hop2. unfold linked. simpl. by rewrite Hg2, Hg1. }
  unfold registry_kept. rewrite Hs'. split_and!.
  - intros nm r H. by do 2 apply insert_absent_old.
  - destruct (insert_absent_is_Some parent (resolved parent tpo s).1 (__nodes s))
      as [r Hr].
    exists r. by apply insert_absent_old.
  - apply insert_absent_is_Some.
  - intros nm Hp Hc. by rewrite !insert_absent_ne.
Qed.

(** ** The constructor *)

Lemma blank_Inv s : Inv (blank s).
Proof.
  split_and!.
  - intros nm r H. simpl in H. by rewrite lookup_empty in H.
  - intros nm r H. simpl in H. by rewrite lookup_empty in H.
  - intros nm r o cn e H. simpl in H. by rewrite lookup_empty in H.
Qed.

Lemma built_step parent child tpo ty w s0 s :
  built s0 s → built s0 (after_edge parent child tpo ty w s).
Proof.
  intros (HI & Hf & Hk). split_and!.
  - by apply after_edge_Inv.
  - eapply frame_trans; [exact Hf | apply after_edge_frame].
  - intros nm r H. apply after_edge_registry; [apply HI|]. by apply Hk.
Qed.

Lemma init_nodes_from_args_run graph kwargs s0 s :
  built s0 s →
  ∃ s', Graph.__init_nodes_from_args graph kwargs s = (Ok tt, s') ∧ built s0 s'.
Proof.
  unfold Graph.__init_nodes_from_args. revert s.
  induction graph as [|[parent child] graph IH]; intros s Hb.
  - exists s. by split.
  - simpl. unfold mbind, M_bind, bind.
    rewrite add_edge_by_node_sequence_run by apply Hb.
    apply IH. by apply built_step.
Qed.

Lemma init_nodes_from_kwargs_run kwargs graph s0 s :
  built s0 s → forallb well_formed graph = true →
  ∃ s', Graph.__init_nodes_from_kwargs kwargs graph s = (Ok tt, s') ∧ built s0 s'.
Proof.
  unfold Graph.__init_nodes_from_kwargs. revert s.
  induction graph as [|edge graph IH]; intros s Hb Hwf.
  - exists s. by split.
  - simpl in Hwf. apply andb_true_iff in Hwf as [Hedge Hrest].
    unfold well_formed in Hedge. simpl. unfold mbind, M_bind, bind.
    destruct (from_ edge) as [parent|]; [|done].
    destruct (to_ edge) as [child|]; [|done].
    rewrite add_edge_by_node_sequence_run by apply Hb.
    apply IH; [by apply built_step | done].
Qed.

(** The loop stops at the first record that lacks a required key, with the
    [KeyError] of that key. *)
Lemma init_nodes_from_kwargs_raises kwargs graph s0 s :
  built s0 s → forallb well_formed graph = false →
  ∃ key s', Graph.__init_nodes_from_kwargs kwargs graph s = (Raise (Exn (KeyError key)), s') ∧
            (key = "from_" ∨ key = "to_") ∧ built s0 s'.
Proof.
  unfold Graph.__init_nodes_from_kwargs. revert s.
  induction graph as [|edge graph IH]; intros s Hb Hwf; [done|].
  simpl in Hwf. simpl. unfold mbind, M_bind, bind.
  unfold well_formed in Hwf.
  destruct (from_ edge) as [parent|].
  - destruct (to_ edge) as [child|].
    + rewrite add_edge_by_node_sequence_run by apply Hb.
      apply IH; [by apply built_step | done].
    + exists "to_", s. auto.
  - exists "from_", s. auto.
Qed.

(** The constructor returns when every record of the keyword form has its
    required keys (and always in the positional form); the graph is then
    well formed, nothing is infected, and the two wrappers of the no-op
    callback are installed. *)
Lemma init_returns (a : InitArgs) (s : State) :
  (∀ graph, kw_graph a = Some graph → forallb well_formed graph = true) →
  ∃ s1, built (blank s) s1 ∧
        Graph.__init__ a s =
        (Ok tt, assign_recovery (Some (RecoveryWrapper CbNoop))
                  (assign_infection (Some (InfectionWrapper CbNoop)) s1)).
Proof.
  intros Hwf.
  assert (Hb : built (blank s) (blank s)).
  { split_and!; [apply blank_Inv | apply frame_refl | by intros ??]. }
  unfold Graph.__init__, Graph.set_infection, Graph.set_recovery. munfold.
  fold (blank s).
  destruct (kw_graph a) as [graph|] eqn:Ekw.
  - destruct (init_nodes_from_kwargs_run a graph _ _ Hb (Hwf _ eq_refl))
      as (s1 & -> & Hb1).
    by exists s1.
  - destruct (args a) as [graph|].
    + destruct (init_nodes_from_args_run graph a _ _ Hb) as (s1 & -> & Hb1).
      by exists s1.
    + by exists (blank s).
Qed.

Lemma init_raises (a : InitArgs) (graph : list EdgeRecord) (s : State) :
  kw_graph a = Some graph → forallb well_formed graph = false →
  ∃ key s', Graph.__init__ a s = (Raise (Exn (KeyError key)), s') ∧
            (key = "from_" ∨ key = "to_") ∧ built (blank s) s'.
Proof.
  intros Ekw Hwf.
  assert (Hb : built (blank s) (blank s)).
  { split_and!; [apply blank_Inv | apply frame_refl | by intros ??]. }
  unfold Graph.__init__. munfold. fold (blank s). rewrite Ekw.
  destruct (init_nodes_from_kwargs_raises a graph _ _ Hb Hwf)
    as (key & s' & -> & Hkey & Hb').
  by exists key, s'.
Qed.

Lemma init_Inv a s0 s : Graph.__init__ a s0 = (Ok tt, s) → Inv s.
Proof.
  intros Hinit.
  destruct (kw_graph a) as [graph|] eqn:Ekw.
  - destruct (forallb well_formed graph) eqn:Hwf.
    + destruct (init_returns a s0) as (s1 & (HI & _) & Hrun).
      { intros graph' Hg. rewrite Ekw in Hg. injection Hg as <-. exact Hwf. }
      rewrite Hrun in Hinit. injection Hinit as <-. exact HI.
    + destruct (init_raises a graph s0 Ekw Hwf) as (key & s' & Hrun & _).
      congruence.
  - destruct (init_returns a s0) as (s1 & (HI & _) & Hrun); [congruence|].
    rewrite Hrun in Hinit. injection Hinit as <-. exact HI.
Qed.

(** The graph of the edge (1, 2) is well formed. *)
Lemma pair_Inv : Inv Example.pair.
Proof.
  apply init_Inv with (a := Example.pair_args None) (s0 := Example.world).
  apply (run_pair (Graph.__init__ (Example.pair_args None)) Example.world tt).
  vm_compute. reflexivity.
Qed.

(** C9: in the keyword form, when some edge record lacks [from_] or [to_],
    the constructor raises the [KeyError] of the missing key: no graph is
    returned, and the wrappers that end a construction are not installed. *)
Theorem malformed_record_fails (a : InitArgs) (graph : list EdgeRecord)
    (edge : EdgeRecord) (s : State) :
  kw_graph a = Some graph →
  edge ∈ graph → from_ edge = None ∨ to_ edge = None →
  ∃ key s', Graph.__init__ a s = (Raise (Exn (KeyError key)), s') ∧
            (key = "from_" ∨ key = "to_") ∧
            __infection s' = None ∧ __recovery s' = None.
Proof.
  intros Ekw Hin Hbad.
  assert (Hwf : forallb well_formed graph = false).
  { apply not_true_is_false. intros Hall.
    rewrite forallb_forall in Hall.
    apply list_elem_of_In in Hin. specialize (Hall _ Hin).
    unfold well_formed in Hall.
    destruct Hbad as [Hb|Hb]; rewrite Hb in Hall; [done|].
    by destruct (from_ edge). }
  destruct (init_raises a graph s Ekw Hwf) as (key & s' & Hrun & Hkey & Hb).
  exists key, s'. split_and!; [done..| |].
  - destruct Hb as (_ & (_ & _ & Hi & _) & _). by rewrite Hi.
  - destruct Hb as (_ & (_ & _ & _ & Hr & _) & _). by rewrite Hr.
Qed.

(** A keyword graph whose second record lacks [to_]. *)
Lemma malformed_record_fails_witness :
  ∃ key s', Graph.__init__ Example.malformed_args Example.world
            = (Raise (Exn (KeyError key)), s') ∧
            (key = "from_" ∨ key = "to_") ∧
            __infection s' = None ∧ __recovery s' = None.
Proof.
  apply (malformed_record_fails Example.malformed_args Example.malformed_graph
           Example.short_record).
  - reflexivity.
  - apply list_elem_of_In. simpl. auto.
  - right. reflexivity.
Defined.

(** ** The keywords [directed] and [transmission_probability] *)

(** The keyword [directed] has no effect on a construction. *)
Lemma directed_ignored a g d d' f s :
  Graph.__init__ (mkInitArgs a g d f) s = Graph.__init__ (mkInitArgs a g d' f) s.
Proof. reflexivity. Qed.

(** C6: what the code does.  [Graph([(1, 2)])], undirected by default, and
    the keyword form with [directed=False], give node 1 one edge to node 2
    and give node 2 no edge; seeding node 2 and propagating attempts no
    transmission (no draw is made) and node 1 stays susceptible. *)
Lemma undirected_edges_one_way :
  (Graph.__init__ (Example.pair_args None) Example.world).1 = Ok tt ∧
  Example.edge_list Example.pair (NInt 1) = Some [(NInt 2, 1)] ∧
  Example.edge_list Example.pair (NInt 2) = Some [] ∧
  Example.edge_list Example.keyword_undirected (NInt 1) = Some [(NInt 2, 1)] ∧
  Example.edge_list Example.keyword_undirected (NInt 2) = Some [] ∧
  (Example.seed_and_tick 2%positive Example.pair).1 = Ok tt ∧
  elements (Graph.infected (Example.seed_and_tick 2%positive Example.pair).2)
    = [2%positive] ∧
  cursor (Example.seed_and_tick 2%positive Example.pair).2 = 0%nat.
Proof. vm_compute. by split_and!. Qed.

(** In the positional form the keyword [transmission_probability] has no
    effect on a construction. *)
Lemma positional_ignores_transmission_probability graph d f s :
  Graph.__init__ (mkInitArgs (Some graph) None d (Some f)) s
  = Graph.__init__ (mkInitArgs (Some graph) None d None) s.
Proof. reflexivity. Qed.

(** C7: what the code does.  In
    [Graph([(1, 2)], transmission_probability=never)] both nodes are bound
    to the default rule, not to [never]: a tick from node 1 infects node 2
    (the default probability of the only edge is 1.0).  The keyword form
    binds [never], and the same tick infects nobody. *)
Lemma positional_binds_default :
  node_tp <$> heap Example.pair_never !! 1%positive = Some Graph.tp ∧
  node_tp <$> heap Example.pair_never !! 2%positive = Some Graph.tp ∧
  elements (Graph.infected (Example.seed_and_tick 1%positive Example.pair_never).2)
    = [2%positive; 1%positive] ∧
  node_tp <$> heap Example.keyword_never !! 1%positive = Some Example.never ∧
  elements (Graph.infected (Example.seed_and_tick 1%positive Example.keyword_never).2)
    = [1%positive].
Proof.
  split_and!; [reflexivity | reflexivity | | reflexivity |];
    vm_compute; reflexivity.
Qed.

(** ** Duplicate names *)

(** The instance that stands for the parent holds, after
    [add_edge_by_node_sequence], an edge keyed by the child's name. *)
Lemma after_edge_parent parent child tpo ty w s :
  registry_ok s →
  ∃ o' e, heap (after_edge parent child tpo ty w s) !! (resolved parent tpo s).1
            = Some o' ∧
          node_edges o' !! child = Some e.
Proof.
  intros Hreg.
  destruct (resolved_live parent tpo s Hreg) as (op & Hop & _).
  pose proof (resolved_heap child tpo _ _ _ Hop) as Hop2.
  unfold after_edge. rewrite Hop2. unfold linked. simpl.
  rewrite lookup_insert_eq. eexists _, _. split; [reflexivity|].
  simpl. apply lookup_insert_eq.
Qed.

(** C8, amended: a name that is already registered is not an error and
    resolves by name lookup to the registered instance.  [add_node] returns
    the node it was given and registers it only when its name is free, so a
    registered name keeps its instance; [add_edge_by_node_sequence]
    returns, keeps every registered instance, leaves both names
    registered, and puts the edge into the registered instance of the
    parent, leading to the registered instance of the child (or, for a
    self-loop, to an instance of the same name). *)
Theorem duplicate_names_resolve (s : State) :
  Inv s →
  (∀ node o, heap s !! node = Some o →
     let s' := (Graph.add_node node s).2 in
     (Graph.add_node node s).1 = Ok node ∧
     registry_kept s s' ∧
     __nodes s' !! node_name o = Some (default node (__nodes s !! node_name o)) ∧
     (∀ name, name ≠ node_name o → __nodes s' !! name = __nodes s !! name)) ∧
  (∀ parent child directed tpo ty w,
     let s' := (Graph.add_edge_by_node_sequence parent child directed tpo ty w s).2 in
     (Graph.add_edge_by_node_sequence parent child directed tpo ty w s).1 = Ok tt ∧
     Inv s' ∧ registry_kept s s' ∧
     is_Some (__nodes s' !! parent) ∧ is_Some (__nodes s' !! child) ∧
     (∀ p, __nodes s !! parent = Some p →
        ∃ o' e, heap s' !! p = Some o' ∧ node_edges o' !! child = Some e ∧
                ∀ c, __nodes s !! child = Some c → target e = c ∨ child = parent)).
Proof.
  intros HI. split.
  - intros node o Ho. simpl. rewrite (add_node_run _ _ _ Ho). simpl. split_and!.
    + reflexivity.
    + intros name r Hr. simpl. by apply insert_absent_old.
    + unfold insert_absent. case_decide as Hfree.
      * rewrite Hfree. simpl. apply lookup_insert_eq.
      * destruct (__nodes s !! node_name o); [done | congruence].
    + intros name Hne. by apply insert_absent_ne.
  - intros parent child directed tpo ty w. simpl.
    pose proof HI as (Hreg & _).
    rewrite (add_edge_by_node_sequence_run _ _ _ _ _ _ _ Hreg). simpl.
    pose proof (after_edge_Inv parent child tpo ty w s HI) as HI'.
    destruct (after_edge_registry parent child tpo ty w s Hreg)
      as (Hkept & Hp & Hc & _).
    split_and!; try done.
    intros p Hparent.
    destruct (after_edge_parent parent child tpo ty w s Hreg) as (o' & e & Ho' & He).
    assert (Hres : (resolved parent tpo s).1 = p).
    { unfold resolved. by rewrite Hparent. }
    rewrite Hres in Ho'. exists o', e. split_and!; [done..|].
    intros c Hchild.
    destruct HI' as (_ & _ & Hedge').
    destruct (Hedge' parent p o' child e (Hkept _ _ Hparent) Ho' He) as (_ & [Ht|Heq]).
    + left. pose proof (Hkept _ _ Hchild). congruence.
    + by right.
Qed.

(** A second record from node 1, on the graph of the edge (1, 2). *)
Lemma duplicate_names_resolve_witness :
  Inv Example.pair ∧
  (Graph.add_edge_by_node_sequence (NInt 1) (NInt 3) None None None PyFloat.one
     Example.pair).1 = Ok tt ∧
  registry_kept Example.pair
    (Graph.add_edge_by_node_sequence (NInt 1) (NInt 3) None None None PyFloat.one
       Example.pair).2.
Proof.
  split; [exact pair_Inv|].
  destruct (duplicate_names_resolve Example.pair pair_Inv) as [_ H].
  destruct (H (NInt 1) (NInt 3) None None None PyFloat.one) as (Hok & _ & Hkept & _).
  split; [exact Hok | exact Hkept].
Defined.

(** C8 as stated fails on [add_node]: given a second instance of a
    registered name, it returns that second instance, not the registered
    one. *)
Lemma add_node_returns_argument_counterexample :
  __nodes Example.twin !! NInt 1 = Some 1%positive ∧
  node_name <$> heap Example.twin !! 3%positive = Some (NInt 1) ∧
  (Graph.add_node 3%positive Example.twin).1 = Ok 3%positive ∧
  __nodes (Graph.add_node 3%positive Example.twin).2 !! NInt 1 = Some 1%positive ∧
  ¬ (∀ s node o r, heap s !! node = Some o → __nodes s !! node_name o = Some r →
       (Graph.add_node node s).1 = Ok r).
Proof.
  assert (H1 : __nodes Example.twin !! NInt 1 = Some 1%positive)
    by (vm_compute; reflexivity).
  assert (H2 : heap Example.twin !! 3%positive
               = Some (mkNode (NInt 1) ∅ Example.always)) by reflexivity.
  assert (H3 : (Graph.add_node 3%positive Example.twin).1 = Ok 3%positive)
    by (vm_compute; reflexivity).
  split_and!; [exact H1 | by rewrite H2 | exact H3 | vm_compute; reflexivity |].
  intros Hclaim. specialize (Hclaim Example.twin 3%positive _ 1%positive H2 H1).
  rewrite H3 in Hclaim. discriminate Hclaim.
Qed.

(** * The simulation steps *)

(** [Node.infect]: the invariant [I] holds once the call is recorded, and
    the callback keeps it. *)
Lemma node_infect_triple P I E n (cb : ref → M unit) :
  (∀ s, P s → I (set_trace (EvNodeInfect n :: trace s) s)) →
  triple I (cb n) (fun _ => I) E →
  triple P (Node.infect n cb) (fun _ => I) E.
Proof.
  intros Hlog Hcb. unfold Node.infect.
  apply triple_bind with (Q := fun _ => I); [by apply triple_log | done].
Qed.

(** [Node.propagate]: drawing keeps [I], the failures of the draws are
    accepted by [E], and the callback keeps [I] on every neighbor. *)
Lemma node_propagate_triple P I E n (cb : ref → M unit) :
  (∀ s, P s → I (set_trace (EvNodePropagate n :: trace s) s)) →
  (∀ s c, I s → I (set_cursor c s)) →
  (∀ s f, I s → f ≠ NoneNotCallable → E f s) →
  (∀ o cn e, node_edges o !! cn = Some e →
     triple (fun s => I s ∧ heap s !! n = Some o) (cb (target e))
            (fun _ s => I s ∧ heap s !! n = Some o) E) →
  triple P (Node.propagate n cb) (fun _ => I) E.
Proof.
  intros Hlog Hcur HE Hcb. unfold Node.propagate.
  apply triple_bind with (Q := fun _ => I); [by apply triple_log | intros _].
  apply triple_bind with (Q := fun o s => I s ∧ heap s !! n = Some o).
  { apply triple_deref. intros s Hs. destruct (heap s !! n) eqn:E0; [done|].
    by apply HE. }
  intros o.
  apply triple_conseq with (P' := fun s => I s ∧ heap s !! n = Some o)
    (Q' := fun _ s => I s ∧ heap s !! n = Some o) (E' := E);
    [| by intros | by intros ?? [] | by intros].
  apply triple_for_each. intros [cn e] Hin. apply elem_of_map_to_list in Hin.
  simpl.
  apply triple_bind with (Q := fun _ s => I s ∧ heap s !! n = Some o).
  { apply triple_deref. intros s [Hs Ho]. destruct (heap s !! target e); [done|].
    by apply HE. }
  intros oc.
  apply triple_bind with (Q := fun _ s => I s ∧ heap s !! n = Some o).
  { apply triple_lift. intros s [Hs Ho]. destruct (node_tp o _ _); [done|].
    by apply HE. }
  intros p.
  apply triple_bind with (Q := fun _ s => I s ∧ heap s !! n = Some o).
  { apply triple_random. intros s [Hs Ho]. split; [by apply Hcur | done]. }
  intros u. destruct (PyFloat.ltb u p).
  - by apply Hcb with (cn := cn).
  - by apply triple_ret.
Qed.

(** [Node.recover]: as above, with at most one call of the callback, on the
    node itself. *)
Lemma node_recover_triple P I E n (cb : ref → M unit) :
  (∀ s, P s → I (set_trace (EvNodeRecover n :: trace s) s)) →
  (∀ s c, I s → I (set_cursor c s)) →
  (∀ s f, I s → f ≠ NoneNotCallable → E f s) →
  triple I (cb n) (fun _ => I) E →
  triple P (Node.recover n cb) (fun _ => I) E.
Proof.
  intros Hlog Hcur HE Hcb. unfold Node.recover.
  apply triple_bind with (Q := fun _ => I); [by apply triple_log | intros _].
  apply triple_bind with (Q := fun _ => I).
  { apply triple_deref. intros s Hs. destruct (heap s !! n); [done|]. by apply HE. }
  intros o.
  apply triple_bind with (Q := fun _ => I).
  { apply triple_random. intros s Hs. by apply Hcur. }
  intros u. apply triple_get_bind. intros s0.
  destruct (recovers s0 (node_name o) u).
  - apply triple_conseq with (P' := I) (Q' := fun _ => I) (E' := E);
      [exact Hcb | by intros ? [] | done | done].
  - apply triple_ret. by intros ? [].
Qed.

(** The wrappers as triples: what they do to the state of a live node, and
    that they fail on no other ground than a reference that is not live. *)
Lemma call_infection_triple P (Q : State → Prop) E callback n :
  (∀ s o, P s → heap s !! n = Some o →
     Q (set_trace (EvCallback callback n :: trace s)
          (assign_infected (insert_absent (node_name o) n (__infected s)) s))) →
  (∀ s, P s → heap s !! n = None → E (DanglingRef n) s) →
  triple P (Graph.call (Some (InfectionWrapper callback)) n) (fun _ => Q) E.
Proof.
  intros HQ HE s Hs. simpl. destruct (heap s !! n) as [o|] eqn:Hn.
  - rewrite (i_run _ _ _ _ Hn). exact (HQ _ _ Hs Hn).
  - unfold Graph.i, Node.name, deref. munfold. rewrite Hn. by apply HE.
Qed.

Lemma call_recovery_triple P (Q : State → Prop) E callback n :
  (∀ s o, P s → heap s !! n = Some o →
     Q (assign_infected (delete (node_name o) (__infected s)) s)) →
  (∀ s, P s → heap s !! n = None → E (DanglingRef n) s) →
  triple P (Graph.call (Some (RecoveryWrapper callback)) n) (fun _ => Q) E.
Proof.
  intros HQ HE s Hs. simpl. destruct (heap s !! n) as [o|] eqn:Hn.
  - rewrite (r_run _ _ _ _ Hn). exact (HQ _ _ Hs Hn).
  - unfold Graph.r, Node.name, deref. munfold. rewrite Hn. by apply HE.
Qed.

(** ** No unset callback is ever called *)

Lemma stable_trace I s t : step_stable I → I s → I (set_trace t s).
Proof. intros HI Hs. apply (HI s Hs). Qed.

Lemma stable_infected I s m : step_stable I → I s → I (assign_infected m s).
Proof. intros HI Hs. apply (HI s Hs). Qed.

Lemma stable_cursor I s c : step_stable I → I s → I (set_cursor c s).
Proof. intros HI Hs. apply (HI s Hs). Qed.

Lemma installed_stable : step_stable installed.
Proof. intros s Hs. by split_and!. Qed.

Lemma call_stable I pr n :
  step_stable I →
  triple I (Graph.call (Some pr) n) (fun _ => I) (no_unset I).
Proof.
  intros HI. destruct pr as [cb|cb].
  - apply call_infection_triple.
    + intros s o Hs _. apply HI, HI, Hs.
    + intros s Hs _. by split.
  - apply call_recovery_triple.
    + intros s o Hs _. apply HI, Hs.
    + intros s Hs _. by split.
Qed.

Lemma infect_seeds_stable I seeds :
  step_stable I → (∀ s, I s → is_Some (__infection s)) →
  triple I (Graph.infect_seeds seeds) (fun _ => I) (no_unset I).
Proof.
  intros HI Hin. unfold Graph.infect_seeds.
  apply triple_for_each. intros n _. apply triple_get_bind. intros s0.
  apply triple_conseq with (P' := fun s => I s ∧ is_Some (__infection s0))
    (Q' := fun _ => I) (E' := no_unset I); [| |done..].
  2:{ intros s [Hs ->]. split; [done | by apply Hin]. }
  intros s [Hs [pr Hpr]]. revert s Hs. rewrite Hpr.
  apply node_infect_triple with (I := I).
  - intros s Hs. apply HI, Hs.
  - by apply call_stable.
Qed.

Lemma propagate_stable I :
  step_stable I → (∀ s, I s → is_Some (__infection s)) →
  triple I Graph.propagate (fun _ => I) (no_unset I).
Proof.
  intros HI Hin. unfold Graph.propagate.
  apply triple_get_bind. intros s0.
  apply triple_conseq with (P' := I) (Q' := fun _ => I) (E' := no_unset I);
    [| by intros ? [] | done..].
  apply triple_for_each. intros n _. apply triple_get_bind. intros s1.
  apply triple_conseq with (P' := fun s => I s ∧ is_Some (__infection s1))
    (Q' := fun _ => I) (E' := no_unset I); [| |done..].
  2:{ intros s [Hs ->]. split; [done | by apply Hin]. }
  intros s [Hs [pr Hpr]]. revert s Hs. rewrite Hpr.
  apply node_propagate_triple with (I := I).
  - intros s Hs. apply HI, Hs.
  - intros s c Hs. apply HI, Hs.
  - intros s f Hs Hf. by split.
  - intros o cn e _.
    apply triple_conseq with (P' := fun s => I s ∧ heap s !! n = Some o)
      (Q' := fun _ s => I s ∧ heap s !! n = Some o)
      (E' := no_unset (fun s => I s ∧ heap s !! n = Some o)); [|done|done|].
    + apply call_stable. intros s [Hs Ho]. split_and!; intros; (split; [apply HI, Hs | done]).
    + intros f s [Hf [Hs _]]. by split.
Qed.

Lemma recover_stable I :
  step_stable I → (∀ s, I s → is_Some (__recovery s)) →
  triple I Graph.recover (fun _ => I) (no_unset I).
Proof.
  intros HI Hin. unfold Graph.recover.
  apply triple_get_bind. intros s0.
  apply triple_conseq with (P' := I) (Q' := fun _ => I) (E' := no_unset I);
    [| by intros ? [] | done..].
  apply triple_for_each. intros n _. apply triple_get_bind. intros s1.
  apply triple_conseq with (P' := fun s => I s ∧ is_Some (__recovery s1))
    (Q' := fun _ => I) (E' := no_unset I); [| |done..].
  2:{ intros s [Hs ->]. split; [done | by apply Hin]. }
  intros s [Hs [pr Hpr]]. revert s Hs. rewrite Hpr.
  apply node_recover_triple with (I := I).
  - intros s Hs. apply HI, Hs.
  - intros s c Hs. apply HI, Hs.
  - intros s f Hs Hf. by split.
  - by apply call_stable.
Qed.

Lemma triple_no_unset {A} I (c : M A) (s : State) :
  triple I c (fun _ => I) (no_unset I) → I s →
  (c s).1 ≠ Raise NoneNotCallable ∧ I (c s).2.
Proof.
  intros H Hs. specialize (H s Hs).
  destruct (c s) as [[a|e] s']; simpl; [done|].
  destruct H as [He H']. split; [congruence | done].
Qed.

Lemma infect_seeds_returns (seeds : list ref) (s : State) :
  is_Some (__infection s) → (∀ n, n ∈ seeds → is_Some (heap s !! n)) →
  (Graph.infect_seeds seeds s).1 = Ok tt.
Proof.
  intros Hi Hlive.
  set (I := fun s : State =>
         is_Some (__infection s) ∧ ∀ n, n ∈ seeds → is_Some (heap s !! n)).
  assert (HI : step_stable I) by (intros ? []; by split_and!).
  assert (H : triple I (Graph.infect_seeds seeds) (fun _ => I) (fun _ _ => False)).
  { unfold Graph.infect_seeds. apply triple_for_each. intros n Hn.
    apply triple_get_bind. intros s0.
    apply triple_conseq with (P' := fun s => I s ∧ is_Some (__infection s0))
      (Q' := fun _ => I) (E' := fun _ _ => False); [| |done..].
    2:{ intros s1 [Hs ->]. split; [done | apply Hs]. }
    intros s1 [Hs [pr Hpr]]. revert s1 Hs. rewrite Hpr.
    apply node_infect_triple with (I := I).
    - intros s1 Hs. by apply stable_trace.
    - destruct pr as [cb|cb].
      + apply call_infection_triple.
        * intros s1 o Hs _. by apply stable_trace, stable_infected.
        * intros s1 [_ Hs] Hnone. destruct (Hs n Hn). congruence.
      + apply call_recovery_triple.
        * intros s1 o Hs _. by apply stable_infected.
        * intros s1 [_ Hs] Hnone. destruct (Hs n Hn). congruence. }
  specialize (H s (conj Hi Hlive)).
  destruct (Graph.infect_seeds seeds s) as [[[]|e] s']; [done | destruct H].
Qed.

Lemma propagate_nothing_infected (s : State) :
  __infected s = ∅ → Graph.propagate s = (Ok tt, s).
Proof.
  intros H. unfold Graph.propagate, Graph.infected. munfold.
  by rewrite H, map_img_empty_L, elements_empty.
Qed.

Lemma recover_nothing_infected (s : State) :
  __infected s = ∅ → Graph.recover s = (Ok tt, s).
Proof.
  intros H. unfold Graph.recover, Graph.infected. munfold.
  by rewrite H, map_img_empty_L, elements_empty.
Qed.

(** C10: a construction that returns leaves the wrappers of a no-op
    infection callback and of a no-op recovery callback installed; on the
    new graph, whose infected index is empty, [propagate] and [recover]
    return at once and [infect_seeds] returns on nodes of the graph; and in
    any later state, where the two attributes are still set,
    [infect_seeds], [propagate] and [recover] never call an unset callback
    and leave the attributes set. *)
Theorem init_installs_callbacks (a : InitArgs) (s : State) :
  (∀ graph, kw_graph a = Some graph → forallb well_formed graph = true) →
  ∃ s', Graph.__init__ a s = (Ok tt, s') ∧
    __infection s' = Some (InfectionWrapper CbNoop) ∧
    __recovery s' = Some (RecoveryWrapper CbNoop) ∧
    __infected s' = ∅ ∧
    Graph.propagate s' = (Ok tt, s') ∧
    Graph.recover s' = (Ok tt, s') ∧
    (∀ seeds, (∀ n, n ∈ seeds → n ∈ Graph.nodes s') →
       (Graph.infect_seeds seeds s').1 = Ok tt) ∧
    (∀ t seeds, installed t →
       (Graph.infect_seeds seeds t).1 ≠ Raise NoneNotCallable ∧
       installed (Graph.infect_seeds seeds t).2 ∧
       (Graph.propagate t).1 ≠ Raise NoneNotCallable ∧
       installed (Graph.propagate t).2 ∧
       (Graph.recover t).1 ≠ Raise NoneNotCallable ∧
       installed (Graph.recover t).2).
Proof.
  intros Hwf. destruct (init_returns a s Hwf) as (s1 & (HI & Hf & _) & Hrun).
  eexists. split; [exact Hrun|].
  assert (Hinf : __infected s1 = ∅).
  { destruct Hf as (Hinf & _). by rewrite Hinf. }
  split_and!; try done.
  - by apply propagate_nothing_infected.
  - by apply recover_nothing_infected.
  - intros seeds Hseeds. apply infect_seeds_returns; [by eexists|].
    intros n Hn. apply Hseeds in Hn. unfold Graph.nodes in Hn. simpl in Hn.
    apply elem_of_map_img in Hn as [name Hname].
    destruct HI as (Hreg & _). destruct (Hreg _ _ Hname) as (o & Ho & _).
    simpl. by exists o.
  - intros t seeds Ht.
    pose proof (triple_no_unset _ _ t
      (infect_seeds_stable installed seeds installed_stable (fun s Hs => proj1 Hs))
      Ht) as [H1 H1'].
    pose proof (triple_no_unset _ _ t
      (propagate_stable installed installed_stable (fun s Hs => proj1 Hs))
      Ht) as [H2 H2'].
    pose proof (triple_no_unset _ _ t
      (recover_stable installed installed_stable (fun s Hs => proj2 Hs))
      Ht) as [H3 H3'].
    by split_and!.
Qed.

(** A keyword graph of one well-formed record. *)
Lemma init_installs_callbacks_witness :
  ∃ s', Graph.__init__ (Example.keyword_args None) Example.world = (Ok tt, s') ∧
        __infection s' = Some (InfectionWrapper CbNoop) ∧
        __recovery s' = Some (RecoveryWrapper CbNoop).
Proof.
  destruct (init_installs_callbacks (Example.keyword_args None) Example.world)
    as (s' & Hrun & Hi & Hr & _).
  - intros graph Hg. injection Hg as <-. reflexivity.
  - exists s'. by split_and!.
Defined.

(** ** The propagation step iterates a snapshot *)

(** Calling the value of the attribute, whatever it is, records only calls
    of the caller's callback and changes only the infected index. *)
Lemma call_any_triple (J : State → Prop) (f : option Proc) (n : ref) :
  (∀ s cb m, J s → J (set_trace (EvCallback cb n :: trace s) (assign_infected m s))) →
  (∀ s m, J s → J (assign_infected m s)) →
  triple J (Graph.call f n) (fun _ => J) (fun _ => J).
Proof.
  intros Hi Hr. destruct f as [[cb|cb]|].
  - apply call_infection_triple; [|done]. intros s o Hs _. by apply Hi.
  - apply call_recovery_triple; [|done]. intros s o Hs _. by apply Hr.
  - by apply triple_raise.
Qed.

Lemma propagate_progress (s : State) :
  match Graph.propagate s with
  | (Ok _, s') => tick_progress (trace s) (elements (Graph.infected s)) [] s'
  | (Raise _, s') =>
      ∃ rest, tick_progress (trace s) (elements (Graph.infected s)) rest s'
  end.
Proof.
  set (t0 := trace s).
  assert (H : ∀ snapshot,
            triple (tick_progress t0 snapshot snapshot)
              (for_each snapshot (fun n =>
                 s ← get; Node.propagate n (Graph.call (__infection s))))
              (fun _ => tick_progress t0 snapshot [])
              (fun _ st => ∃ rest, tick_progress t0 snapshot rest st)).
  2:{ apply (H (elements (Graph.infected s)) s). by exists [], []. }
  intros snapshot.
  apply (triple_for_each_rest (tick_progress t0 snapshot)).
  intros x l'. apply triple_get_bind. intros s1.
  apply triple_conseq with (P' := tick_progress t0 snapshot (x :: l'))
    (Q' := fun _ => tick_progress t0 snapshot l')
    (E' := fun _ st => ∃ rest, tick_progress t0 snapshot rest st);
    [| by intros ? [] | done..].
  apply node_propagate_triple with (I := tick_progress t0 snapshot l').
  - intros st (new & done & Ht & Hl & Ha).
    exists (EvNodePropagate x :: new), (done ++ [x]). split_and!.
    + simpl. by rewrite Ht.
    + by rewrite Hl, <- app_assoc.
    + simpl. by rewrite Ha, reverse_app.
  - intros st c (new & done & Ht & Hl & Ha). by exists new, done.
  - intros st f Hst _. by exists l'.
  - intros o cn e _.
    apply triple_conseq
      with (P' := fun st => tick_progress t0 snapshot l' st ∧ heap st !! x = Some o)
           (Q' := fun _ st => tick_progress t0 snapshot l' st ∧ heap st !! x = Some o)
           (E' := fun _ st => tick_progress t0 snapshot l' st ∧ heap st !! x = Some o);
      [|done|done|].
    + apply call_any_triple.
      * intros st cb m [(new & done & Ht & Hl & Ha) Ho]. split; [|done].
        exists (EvCallback cb (target e) :: new), done. split_and!; [|done..].
        simpl. by rewrite Ht.
      * intros st m [(new & done & Ht & Hl & Ha) Ho]. split; [|done].
        by exists new, done.
    + intros _ st [Hst _]. by exists l'.
Qed.

(** C3: [propagate] iterates the infected set as it was when the tick
    started.  The nodes asked to propagate during the tick are, in order,
    the elements of that snapshot (all of them when the tick returns, the
    first ones when it raises); hence a node that is infected after the
    tick and was not before it was not asked to propagate during it. *)
Theorem propagate_snapshot (s : State) :
  ∃ new done rest,
    trace (Graph.propagate s).2 = new ++ trace s ∧
    elements (Graph.infected s) = done ++ rest ∧
    asked new = reverse done ∧
    ((Graph.propagate s).1 = Ok tt → rest = []) ∧
    ∀ n, n ∈ Graph.infected (Graph.propagate s).2 → n ∉ Graph.infected s →
         n ∉ asked new.
Proof.
  pose proof (propagate_progress s) as H.
  destruct (Graph.propagate s) as [[[]|e] s'].
  - destruct H as (new & done & Ht & Hl & Ha).
    exists new, done, []. split_and!; try done.
    intros n _ Hn Hin. apply Hn. apply elem_of_elements.
    rewrite Hl, app_nil_r. rewrite Ha in Hin. by apply elem_of_reverse.
  - destruct H as (rest & new & done & Ht & Hl & Ha).
    exists new, done, rest. split_and!; try done.
    intros n _ Hn Hin. apply Hn. apply elem_of_elements.
    rewrite Hl. rewrite Ha in Hin. apply elem_of_app. left.
    by apply elem_of_reverse.
Qed.

(** On the chain 1 -> 2 -> 3 with node 1 seeded, one tick infects node 2
    (the default probability of the edge is 1.0 and the draw is 0.5); node
    2 is not asked to propagate in that tick and node 3 stays
    susceptible. *)
Lemma chain_tick_values :
  elements (Graph.infected Example.chain_seeded) = [1%positive] ∧
  elements (Graph.infected Example.chain_tick) = [2%positive; 1%positive] ∧
  asked (trace Example.chain_tick) = [1%positive] ∧
  elements (Graph.susceptible Example.chain_tick) = [3%positive].
Proof. vm_compute. by split_and!. Qed.

(** ** The partition into infected and susceptible nodes *)

Lemma Inv_trace s t : Inv s → Inv (set_trace t s).
Proof. intros H. exact H. Qed.

Lemma Inv_cursor s c : Inv s → Inv (set_cursor c s).
Proof. intros H. exact H. Qed.

(** The infection wrapper keeps the index inside the registry when it runs
    on the registered instance, or on a node whose name is infected. *)
Lemma Inv_infect s n o t :
  Inv s → heap s !! n = Some o →
  __nodes s !! node_name o = Some n ∨ __infected s !! node_name o ≠ None →
  Inv (set_trace t (assign_infected (insert_absent (node_name o) n (__infected s)) s)).
Proof.
  intros (Hreg & Hidx & Hedge) Hn Hor. split_and!; [exact Hreg| |exact Hedge].
  intros name r Hname. simpl in *.
  apply insert_absent_inv in Hname as [H|(-> & -> & H)]; [by apply Hidx|].
  by destruct Hor.
Qed.

Lemma Inv_recover s name :
  Inv s → Inv (assign_infected (delete name (__infected s)) s).
Proof.
  intros (Hreg & Hidx & Hedge). split_and!; [exact Hreg| |exact Hedge].
  intros k r Hk. simpl in *. apply lookup_delete_Some in Hk as [_ Hk].
  by apply Hidx.
Qed.

Lemma all_infected_insert l s name n t :
  all_infected l s →
  all_infected l (set_trace t (assign_infected (insert_absent name n (__infected s)) s)).
Proof.
  intros H x Hx. destruct (H x Hx) as [k Hk]. exists k. simpl.
  by apply insert_absent_old.
Qed.

(** An infected node is registered under its own name. *)
Lemma infected_registered s n name o :
  Inv s → __infected s !! name = Some n → heap s !! n = Some o →
  __nodes s !! name = Some n ∧ node_name o = name.
Proof.
  intros (Hreg & Hidx & _) Hinf Ho. pose proof (Hidx _ _ Hinf) as Hn.
  split; [done|]. destruct (Hreg _ _ Hn) as (o' & Ho' & Hname). congruence.
Qed.

Lemma propagate_Inv : triple Inv Graph.propagate (fun _ => Inv) (fun _ => Inv).
Proof.
  unfold Graph.propagate. apply triple_get_bind. intros s0.
  set (l := elements (Graph.infected s0)). set (f := __infection s0).
  apply triple_conseq with (P' := tick_inv f l) (Q' := fun _ => tick_inv f l)
    (E' := fun _ => tick_inv f l).
  2:{ intros s [Hs ->]. split_and!; [done..|]. intros cb _ n Hn.
      apply elem_of_elements, elem_of_map_img in Hn. exact Hn. }
  2,3: by intros ?? [].
  apply triple_for_each. intros n Hn. apply triple_get_bind. intros s1.
  apply triple_conseq with (P' := fun s => tick_inv f l s ∧ __infection s1 = f)
    (Q' := fun _ => tick_inv f l) (E' := fun _ => tick_inv f l); [| |done..].
  2:{ intros s [Hs ->]. split; [done | apply Hs]. }
  intros s [Hs Hf]. revert s Hs. rewrite Hf.
  apply node_propagate_triple with (I := tick_inv f l);
    [by intros s Hs | by intros s c Hs | by intros | ].
  intros o cn e He. destruct f as [[cb|cb]|] eqn:Ef.
  - apply call_infection_triple; [|by intros ? []].
    intros s oc [(HI & Hfs & Hall) Ho] Hoc.
    destruct (Hall cb eq_refl n Hn) as [name Hname].
    destruct (infected_registered _ _ _ _ HI Hname Ho) as [Hreg Hnm].
    destruct HI as (Hr & Hi & Hedge).
    destruct (Hedge _ _ _ _ _ Hreg Ho He) as ((oc' & Hoc' & Hcn) & Hor).
    assert (oc' = oc) as -> by congruence.
    split; [|done]. split_and!.
    + apply Inv_infect; [done | done |].
      rewrite Hcn. destruct Hor as [Hor| ->]; [by left | right; congruence].
    + done.
    + intros cb' _. apply all_infected_insert. by apply Hall with cb.
  - apply call_recovery_triple; [|by intros ? []].
    intros s oc [(HI & Hfs & Hall) Ho] Hoc. split; [|done].
    split_and!; [by apply Inv_recover | done | done].
  - apply triple_raise. by intros ? [].
Qed.

Lemma recover_Inv : triple Inv Graph.recover (fun _ => Inv) (fun _ => Inv).
Proof.
  unfold Graph.recover. apply triple_get_bind. intros s0.
  set (l := elements (Graph.infected s0)). set (f := __recovery s0).
  apply triple_conseq with (P' := recover_inv f l) (Q' := fun _ => recover_inv f l)
    (E' := fun _ => recover_inv f l).
  2:{ intros s [Hs ->]. split_and!; [done..|]. intros cb _ n Hn.
      apply elem_of_elements, elem_of_map_img in Hn. exact Hn. }
  2,3: by intros ?? [].
  apply triple_for_each. intros n Hn. apply triple_get_bind. intros s1.
  apply triple_conseq with (P' := fun s => recover_inv f l s ∧ __recovery s1 = f)
    (Q' := fun _ => recover_inv f l) (E' := fun _ => recover_inv f l); [| |done..].
  2:{ intros s [Hs ->]. split; [done | apply Hs]. }
  intros s [Hs Hf]. revert s Hs. rewrite Hf.
  apply node_recover_triple with (I := recover_inv f l);
    [by intros s Hs | by intros s c Hs | by intros | ].
  destruct f as [[cb|cb]|] eqn:Ef.
  - apply call_infection_triple; [|done].
    intros s o (HI & Hfs & Hall) Ho.
    destruct (Hall cb eq_refl n Hn) as [name Hname].
    destruct (infected_registered _ _ _ _ HI Hname Ho) as [Hreg Hnm].
    split_and!.
    + apply Inv_infect; [done | done | left; congruence].
    + done.
    + intros cb' _. apply all_infected_insert. by apply Hall with cb.
  - apply call_recovery_triple; [|done].
    intros s o (HI & Hfs & Hall) Ho.
    split_and!; [by apply Inv_recover | done | done].
  - by apply triple_raise.
Qed.

Lemma infect_seeds_Inv seeds :
  triple (fun s => Inv s ∧ seeds_registered seeds s)
    (Graph.infect_seeds seeds) (fun _ => Inv) (fun _ => Inv).
Proof.
  unfold Graph.infect_seeds.
  apply triple_conseq with (P' := fun s => Inv s ∧ seeds_registered seeds s)
    (Q' := fun _ s => Inv s ∧ seeds_registered seeds s)
    (E' := fun _ s => Inv s ∧ seeds_registered seeds s);
    [|done | by intros ?? [] | by intros ?? []].
  apply triple_for_each. intros n Hn. apply triple_get_bind. intros s1.
  apply triple_conseq with (P' := fun s => Inv s ∧ seeds_registered seeds s)
    (Q' := fun _ s => Inv s ∧ seeds_registered seeds s)
    (E' := fun _ s => Inv s ∧ seeds_registered seeds s);
    [|by intros ? [] | done | done].
  apply node_infect_triple with (I := fun s => Inv s ∧ seeds_registered seeds s);
    [by intros s Hs|].
  destruct (__infection s1) as [[cb|cb]|].
  - apply call_infection_triple; [|done].
    intros s o [HI Hseeds] Ho. split; [|exact Hseeds].
    apply Inv_infect; [done | done | left].
    pose proof (Hseeds n Hn) as Hreg. unfold Graph.nodes in Hreg.
    apply elem_of_map_img in Hreg as [name Hname].
    destruct HI as (Hr & _). destruct (Hr _ _ Hname) as (o' & Ho' & Hnm).
    congruence.
  - apply call_recovery_triple; [|done].
    intros s o [HI Hseeds] Ho. split; [by apply Inv_recover | exact Hseeds].
  - by apply triple_raise.
Qed.


Lemma add_node_names_ok node :
  triple names_ok (Graph.add_node node) (fun _ => names_ok) (fun _ => names_ok).
Proof.
  intros s [Hreg Hidx]. destruct (heap s !! node) as [o|] eqn:Ho.
  - rewrite (add_node_run _ _ _ Ho). split.
    + intros name r Hname. simpl in *.
      apply insert_absent_inv in Hname as [H|(-> & -> & _)]; [by apply Hreg|eauto].
    + intros name r Hname. simpl in *. by apply insert_absent_old, Hidx.
  - unfold Graph.add_node, Node.name, deref. munfold. by rewrite Ho.
Qed.

Lemma add_child_names_ok n other ty w :
  triple names_ok (Node.add_child n other ty w) (fun _ => names_ok) (fun _ => names_ok).
Proof.
  intros s [Hreg Hidx].
  destruct (heap s !! n) as [o|] eqn:Ho; [destruct (heap s !! other) as [oo|] eqn:Hoo|].
  - rewrite (add_child_run _ _ _ _ _ _ _ Ho Hoo). split; [|exact Hidx].
    intros name r Hname. simpl in *. destruct (Hreg _ _ Hname) as (o' & Ho' & Hn).
    destruct (decide (n = r)) as [->|Hne].
    + rewrite lookup_insert_eq. eexists; split; [reflexivity|]. simpl. congruence.
    + rewrite lookup_insert_ne by done. eauto.
  - unfold Node.add_child, Node.name, deref. munfold. by rewrite Ho, Hoo.
  - unfold Node.add_child, Node.name, deref. munfold. by rewrite Ho.
Qed.

Lemma add_edge_names_ok from_ to_ :
  triple names_ok (Graph.add_edge from_ to_) (fun _ => names_ok) (fun _ => names_ok).
Proof.
  unfold Graph.add_edge.
  apply triple_bind with (Q := fun _ => names_ok); [apply add_node_names_ok|intros _].
  apply triple_bind with (Q := fun _ => names_ok); [apply add_node_names_ok|intros _].
  apply triple_bind with (Q := fun _ => names_ok); [apply add_child_names_ok|intros _].
  apply triple_bind with (Q := fun _ => names_ok).
  { unfold Node.edges. apply triple_bind with (Q := fun _ => names_ok).
    - apply triple_deref. intros s Hs. by destruct (heap s !! from_).
    - intros o. by apply triple_ret. }
  intros es.
  apply triple_bind with (Q := fun _ => names_ok).
  { unfold Node.name. apply triple_bind with (Q := fun _ => names_ok).
    - apply triple_deref. intros s Hs. by destruct (heap s !! to_).
    - intros o. by apply triple_ret. }
  intros tname. destruct (es !! tname); [by apply triple_ret | by apply triple_raise].
Qed.

Lemma new_Inv name f s : Inv s → Inv (Node.new name f s).2.
Proof.
  intros (Hreg & Hidx & Hedge). rewrite new_run. simpl.
  set (r := fresh (dom (heap s))).
  assert (Hlive : ∀ r' o, heap s !! r' = Some o →
            <[r := mkNode name ∅ f]> (heap s) !! r' = Some o).
  { intros r' o Hr'. rewrite lookup_insert_ne; [done|].
    intros <-. unfold r in Hr'. by rewrite fresh_heap in Hr'. }
  split_and!.
  - intros nm r' Hnm. simpl in *. destruct (Hreg _ _ Hnm) as (o & Ho & Hn). eauto.
  - exact Hidx.
  - intros nm r' o cn e Hnm Ho He. simpl in *.
    destruct (Hreg _ _ Hnm) as (o' & Ho' & Hn').
    rewrite (Hlive _ _ Ho') in Ho. injection Ho as <-.
    destruct (Hedge _ _ _ _ _ Hnm Ho' He) as ((oc & Hoc & Hcn) & Hor).
    split; [eauto | exact Hor].
Qed.

Lemma run_op_Inv op s : Inv s → allowed op s → Inv (run_op op s).2.
Proof.
  intros HI [Hseeds Hedges].
  assert (Hnames : names_ok s) by (split; apply HI).
  destruct op as [parent child d tpo ty w|node|src dst|cb|cb|seed_nodes| |
                  |name f|n other ty w];
    simpl in *.
  - rewrite add_edge_by_node_sequence_run by apply HI. by apply after_edge_Inv.
  - pose proof (add_node_names_ok node s Hnames) as H.
    unfold mbind, M_bind, bind in *.
    destruct (Graph.add_node node s) as [[r|e] s']; destruct H; by split_and!.
  - pose proof (add_edge_names_ok src dst s Hnames) as H.
    unfold mbind, M_bind, bind in *.
    destruct (Graph.add_edge src dst s) as [[r|e] s']; destruct H; by split_and!.
  - exact HI.
  - exact HI.
  - by apply (triple_keeps Inv _ _ s (infect_seeds_Inv seed_nodes)).
  - by apply (triple_keeps Inv _ _ s propagate_Inv).
  - by apply (triple_keeps Inv _ _ s recover_Inv).
  - exact (new_Inv name f s HI).
  - pose proof (add_child_names_ok n other ty w s Hnames) as H.
    destruct (Node.add_child n other ty w s) as [[r|e] s']; destruct H; by split_and!.
Qed.

Lemma reachable_Inv s : reachable allowed s → Inv s.
Proof.
  induction 1 as [a s0 s Hinit | op s Hreach IH Hallowed].
  - by apply init_Inv in Hinit.
  - by apply run_op_Inv.
Qed.





(** Registering a node that has no edge keeps the edges of the registered
    nodes as they are. *)
Lemma add_node_edgeless s node o :
  Inv s → heap s !! node = Some o → node_edges o = ∅ →
  edges_ok (Graph.add_node node s).2.
Proof.
  intros (Hreg & _ & Hedge) Ho He.
  rewrite (add_node_run _ _ _ Ho). intros name r o' cn e Hname Ho' He'. simpl in *.
  apply insert_absent_inv in Hname as [Hname|(-> & -> & _)].
  - destruct (Hedge _ _ _ _ _ Hname Ho' He') as (Hlive & Hor).
    split; [exact Hlive|]. destruct Hor as [Hor|Hor]; [left|by right].
    by apply insert_absent_old.
  - assert (o' = o) as -> by congruence. by rewrite He, lookup_empty in He'.
Qed.

(** The condition on the caller's own [add_child] is needed: a node
    registered while it has no edge satisfies the conditions on the calls
    of the graph; wired afterwards by the caller to a node that is not
    registered, seeded and asked to propagate, it infects that node, whose
    name is then in the infected index and not in the registry. *)
Lemma wiring_after_add_node :
  reachable allowed_graph_calls Example.late_tick ∧
  is_Some (__infected Example.late_tick !! NStr "b") ∧
  __nodes Example.late_tick !! NStr "b" = None ∧
  ¬ partitioned Example.late_tick.
Proof.
  assert (Hb : is_Some (__infected Example.late_tick !! NStr "b")).
  { exists 2%positive. vm_compute. reflexivity. }
  assert (Hn : __nodes Example.late_tick !! NStr "b" = None).
  { vm_compute. reflexivity. }
  assert (Hnodes : reachable allowed Example.late_nodes).
  { unfold Example.late_nodes.
    apply (reachable_step _ (OpNewNode (NStr "b") Example.always)); [|by split].
    apply (reachable_step _ (OpNewNode (NStr "a") Example.always)); [|by split].
    apply reachable_init with (a := Example.no_args) (s0 := Example.world).
    apply (run_pair (Graph.__init__ Example.no_args) Example.world tt).
    vm_compute. reflexivity. }
  assert (Hwider : ∀ s, reachable allowed s → reachable allowed_graph_calls s).
  { induction 1 as [a s0 s Hinit | op s Hreach IH [Hseeds Hedges]].
    - by apply reachable_init with (a := a) (s0 := s0).
    - apply reachable_step; [exact IH|]. split; [exact Hseeds|].
      by destruct op. }
  split_and!; [|exact Hb|exact Hn|].
  - unfold Example.late_tick, Example.late_seeded, Example.late_wired, Example.late_a.
    apply (reachable_step _ OpPropagate); [|by split].
    apply (reachable_step _ (OpInfectSeeds [1%positive])).
    apply (reachable_step _ (OpAddChild 1%positive 2%positive None PyFloat.one));
      [|by split].
    apply (reachable_step _ (OpAddNode 1%positive)).
    + by apply Hwider.
    + split; [exact I|].
      apply (add_node_edgeless Example.late_nodes 1%positive
               (mkNode (NStr "a") ∅ Example.always)).
      * by apply reachable_Inv.
      * reflexivity.
      * reflexivity.
    + split; [|exact I]. intros n Hin. apply list_elem_of_singleton in Hin as ->.
      apply elem_of_map_img. exists (NStr "a"). vm_compute. reflexivity.
  - intros (_ & Hnames & _). destruct (Hnames _ Hb) as [r Hr]. congruence.
Qed.

(** * Further properties of the methods *)

(** On the chain with node 1 seeded the callbacks are those of the
    constructor. *)
Lemma chain_seeded_quiet : quiet_installed Example.chain_seeded.
Proof.
  split.
  - intros cb _ n st. reflexivity.
  - intros cb. vm_compute. discriminate.
Qed.

(** ** What the simulation steps leave alone *)

Lemma call_keeps I f n :
  step_stable I → triple I (Graph.call f n) (fun _ => I) (fun _ => I).
Proof.
  intros HI. apply call_any_triple.
  - intros s cb m Hs. by apply stable_trace, stable_infected.
  - intros s m Hs. by apply stable_infected.
Qed.

Lemma infect_seeds_keeps I seeds :
  step_stable I → triple I (Graph.infect_seeds seeds) (fun _ => I) (fun _ => I).
Proof.
  intros HI. unfold Graph.infect_seeds.
  apply triple_for_each. intros n _. apply triple_get_bind. intros s0.
  apply triple_conseq with (P' := I) (Q' := fun _ => I) (E' := fun _ => I);
    [| by intros ? [] | done..].
  apply node_infect_triple with (I := I).
  - intros s Hs. by apply stable_trace.
  - by apply call_keeps.
Qed.

Lemma propagate_keeps I :
  step_stable I → triple I Graph.propagate (fun _ => I) (fun _ => I).
Proof.
  intros HI. unfold Graph.propagate.
  apply triple_get_bind. intros s0.
  apply triple_conseq with (P' := I) (Q' := fun _ => I) (E' := fun _ => I);
    [| by intros ? [] | done..].
  apply triple_for_each. intros n _. apply triple_get_bind. intros s1.
  apply triple_conseq with (P' := I) (Q' := fun _ => I) (E' := fun _ => I);
    [| by intros ? [] | done..].
  apply node_propagate_triple with (I := I).
  - intros s Hs. by apply stable_trace.
  - intros s c Hs. by apply stable_cursor.
  - done.
  - intros o cn e _.
    apply triple_conseq with (P' := fun s => I s ∧ heap s !! n = Some o)
      (Q' := fun _ s => I s ∧ heap s !! n = Some o)
      (E' := fun _ s => I s ∧ heap s !! n = Some o); [|done|done|by intros ?? []].
    apply call_keeps. intros s [Hs Ho].
    split_and!; intros; (split; [apply HI, Hs | done]).
Qed.

Lemma recover_keeps I :
  step_stable I → triple I Graph.recover (fun _ => I) (fun _ => I).
Proof.
  intros HI. unfold Graph.recover.
  apply triple_get_bind. intros s0.
  apply triple_conseq with (P' := I) (Q' := fun _ => I) (E' := fun _ => I);
    [| by intros ? [] | done..].
  apply triple_for_each. intros n _. apply triple_get_bind. intros s1.
  apply triple_conseq with (P' := I) (Q' := fun _ => I) (E' := fun _ => I);
    [| by intros ? [] | done..].
  apply node_recover_triple with (I := I).
  - intros s Hs. by apply stable_trace.
  - intros s c Hs. by apply stable_cursor.
  - done.
  - by apply call_keeps.
Qed.

Lemma same_graph_stable s : step_stable (same_graph s).
Proof. intros s' Hs'. by split_and!. Qed.

Lemma same_graph_refl s : same_graph s s.
Proof. by split_and!. Qed.

(** X1: when the installed infection callback returns and leaves the graph
    alone (as the no-op callback of the constructor does; the wrapper of
    [set_recovery] calls no callback), [infect_seeds], [propagate] and
    [recover] change the infected index and nothing else of the graph: the
    node objects with their edges and functions, the registry, the default
    function and the two installed procedures are after the call what they
    were before it, whether the call returned or raised; in particular
    [nodes()] is unchanged. *)
Theorem steps_leave_graph (s : State) (seeds : list ref) :
  quiet_installed s →
  (same_graph s (Graph.infect_seeds seeds s).2 ∧
   same_graph s (Graph.propagate s).2 ∧
   same_graph s (Graph.recover s).2) ∧
  Graph.nodes (Graph.infect_seeds seeds s).2 = Graph.nodes s ∧
  Graph.nodes (Graph.propagate s).2 = Graph.nodes s ∧
  Graph.nodes (Graph.recover s).2 = Graph.nodes s.
Proof.
  intros _.
  pose proof (triple_keeps _ _ _ s
    (infect_seeds_keeps _ seeds (same_graph_stable s)) (same_graph_refl s)) as H1.
  pose proof (triple_keeps _ _ _ s
    (propagate_keeps _ (same_graph_stable s)) (same_graph_refl s)) as H2.
  pose proof (triple_keeps _ _ _ s
    (recover_keeps _ (same_graph_stable s)) (same_graph_refl s)) as H3.
  split; [done|]. unfold Graph.nodes.
  destruct H1 as (_ & -> & _), H2 as (_ & -> & _), H3 as (_ & -> & _). done.
Qed.

(** The chain with node 1 seeded, and one tick. *)
Lemma steps_leave_graph_witness :
  same_graph Example.chain_seeded (Graph.propagate Example.chain_seeded).2.
Proof.
  destruct (steps_leave_graph Example.chain_seeded []) as ((_ & H & _) & _).
  - exact chain_seeded_quiet.
  - exact H.
Defined.

(** ** What the construction steps leave alone *)

Lemma name_keeps I n : triple I (Node.name n) (fun _ => I) (fun _ => I).
Proof.
  unfold Node.name. apply triple_bind with (Q := fun _ => I).
  - apply triple_deref. intros s Hs. by destruct (heap s !! n).
  - intros o. by apply triple_ret.
Qed.

Lemma new_keeps I name f :
  build_stable I → triple I (Node.new name f) (fun _ => I) (fun _ => I).
Proof. intros HI s Hs. rewrite new_run. by apply HI. Qed.

Lemma add_child_keeps I n other ty w :
  build_stable I → triple I (Node.add_child n other ty w) (fun _ => I) (fun _ => I).
Proof.
  intros HI s Hs.
  destruct (heap s !! n) as [o|] eqn:Ho; [destruct (heap s !! other) as [oo|] eqn:Hoo|].
  - rewrite (add_child_run _ _ _ _ _ _ _ Ho Hoo). by apply HI.
  - unfold Node.add_child, Node.name, deref. munfold. by rewrite Ho, Hoo.
  - unfold Node.add_child, Node.name, deref. munfold. by rewrite Ho.
Qed.

Lemma add_node_keeps I node :
  build_stable I → triple I (Graph.add_node node) (fun _ => I) (fun _ => I).
Proof.
  intros HI s Hs. destruct (heap s !! node) as [o|] eqn:Ho.
  - rewrite (add_node_run _ _ _ Ho). unfold insert_absent.
    case_decide as Hk; [by apply HI | by destruct s].
  - unfold Graph.add_node, Node.name, deref. munfold. by rewrite Ho.
Qed.

Lemma resolve_keeps I name tpo :
  build_stable I →
  triple I (p ← Graph.get_node_by_name name;
            match p with
            | Some p => mret p
            | None => f ← Graph.tp_or_default tpo; Node.new name f
            end) (fun _ => I) (fun _ => I).
Proof.
  intros HI s Hs. unfold Graph.get_node_by_name, Graph.tp_or_default. munfold.
  destruct (__nodes s !! name); [done|]. by apply (new_keeps I _ _ HI s).
Qed.

Lemma add_edge_by_node_sequence_keeps I parent child d tpo ty w :
  build_stable I →
  triple I (Graph.add_edge_by_node_sequence parent child d tpo ty w)
    (fun _ => I) (fun _ => I).
Proof.
  intros HI s Hs. unfold Graph.add_edge_by_node_sequence.
  rewrite resolved_run, resolved_run.
  assert (H1 : I (resolved parent tpo s).2).
  { unfold resolved. destruct (__nodes s !! parent); [done|]. by apply HI. }
  set (s1 := (resolved parent tpo s).2) in *.
  assert (H2 : I (resolved child tpo s1).2).
  { unfold resolved. destruct (__nodes s1 !! child); [done|]. by apply HI. }
  revert H2. generalize (resolved child tpo s1).2. generalize (resolved child tpo s1).1.
  generalize (resolved parent tpo s).1. intros p c s2 H2.
  assert (H : triple I (Node.add_child p c ty w;; Graph.add_node p;; Graph.add_node c;; ret tt)
            (fun _ => I) (fun _ => I)).
  { apply triple_bind with (Q := fun _ => I); [by apply add_child_keeps|intros _].
    apply triple_bind with (Q := fun _ => I); [by apply add_node_keeps|intros _].
    apply triple_bind with (Q := fun _ => I); [by apply add_node_keeps|intros _].
    by apply triple_ret. }
  exact (H s2 H2).
Qed.

Lemma add_edge_keeps I from_ to_ :
  build_stable I → triple I (Graph.add_edge from_ to_) (fun _ => I) (fun _ => I).
Proof.
  intros HI. unfold Graph.add_edge.
  apply triple_bind with (Q := fun _ => I); [by apply add_node_keeps|intros _].
  apply triple_bind with (Q := fun _ => I); [by apply add_node_keeps|intros _].
  apply triple_bind with (Q := fun _ => I); [by apply add_child_keeps|intros _].
  apply triple_bind with (Q := fun _ => I).
  { unfold Node.edges. apply triple_bind with (Q := fun _ => I).
    - apply triple_deref. intros s Hs. by destruct (heap s !! from_).
    - intros o. by apply triple_ret. }
  intros es.
  apply triple_bind with (Q := fun _ => I); [apply name_keeps|].
  intros tname. destruct (es !! tname); [by apply triple_ret | by apply triple_raise].
Qed.

Lemma registry_kept_build s : build_stable (registry_kept s).
Proof.
  intros s' Hs'. split; [done|]. intros name r Hnone k v Hk. simpl.
  destruct (decide (name = k)) as [->|Hne].
  - apply Hs' in Hk. congruence.
  - rewrite lookup_insert_ne by done. by apply Hs'.
Qed.

Lemma registry_kept_stable s : step_stable (registry_kept s).
Proof. intros s' Hs'. by split_and!. Qed.

Lemma frame_build s : build_stable (frame s).
Proof. intros s' Hs'. by split. Qed.

Lemma run_op_keeps (I : State → Prop) op s :
  build_stable I → step_stable I →
  (∀ s f, I s → I (assign_infection f s)) → (∀ s f, I s → I (assign_recovery f s)) →
  I s → I (run_op op s).2.
Proof.
  intros Hb Hst Hi Hr Hs.
  destruct op as [parent child d tpo ty w|node|src dst|cb|cb|seed_nodes| |
                  |name f|n other ty w]; simpl.
  - by apply (triple_keeps I I _ s (add_edge_by_node_sequence_keeps I _ _ _ _ _ _ Hb)).
  - pose proof (add_node_keeps I node Hb s Hs) as H.
    unfold mbind, M_bind, bind. by destruct (Graph.add_node node s) as [[r|e] s'].
  - pose proof (add_edge_keeps I src dst Hb s Hs) as H.
    unfold mbind, M_bind, bind. by destruct (Graph.add_edge src dst s) as [[r|e] s'].
  - by apply Hi.
  - by apply Hr.
  - by apply (triple_keeps I I _ s (infect_seeds_keeps I _ Hst)).
  - by apply (triple_keeps I I _ s (propagate_keeps I Hst)).
  - by apply (triple_keeps I I _ s (recover_keeps I Hst)).
  - exact (triple_keeps I I (Node.new name f) s (new_keeps I name f Hb) Hs).
  - by apply (triple_keeps I I _ s (add_child_keeps I n other ty w Hb)).
Qed.

(** X2: no call removes a node or replaces the instance registered under a
    name.  After any call of [add_edge_by_node_sequence], [add_node],
    [add_edge], [set_infection], [set_recovery], [infect_seeds],
    [propagate] or [recover], in any state and whether the call returned or
    raised, every name registered before designates the same instance, so
    [nodes()] contains what it contained. *)
Theorem registry_only_grows (op : Op) (s : State) :
  registry_kept s (run_op op s).2 ∧ Graph.nodes s ⊆ Graph.nodes (run_op op s).2.
Proof.
  assert (H : registry_kept s (run_op op s).2).
  { apply run_op_keeps with (I := registry_kept s);
      [apply registry_kept_build | apply registry_kept_stable | ..].
    - intros s' f Hs'. exact Hs'.
    - intros s' f Hs'. exact Hs'.
    - by intros ??. }
  split; [exact H|]. intros n Hn. unfold Graph.nodes in *.
  apply elem_of_map_img in Hn as [name Hname].
  apply elem_of_map_img. exists name. by apply H.
Qed.

(** X3: [add_node], [add_edge] and [add_edge_by_node_sequence] leave the
    simulation alone: the infected index, the default function and the two
    installed procedures are unchanged, no callback is called and no random
    number is drawn, in any state and whether the call returned or
    raised. *)
Theorem construction_leaves_simulation (s : State) (node from_ to_ : ref)
    (parent child : Name) (d : option bool) (tpo : option TransFn)
    (ty : option string) (w : spec_float) :
  frame s (Graph.add_node node s).2 ∧
  frame s (Graph.add_edge from_ to_ s).2 ∧
  frame s (Graph.add_edge_by_node_sequence parent child d tpo ty w s).2.
Proof.
  split_and!.
  - apply (triple_keeps _ _ _ s (add_node_keeps _ node (frame_build s))), frame_refl.
  - apply (triple_keeps _ _ _ s (add_edge_keeps _ from_ to_ (frame_build s))), frame_refl.
  - apply (triple_keeps _ _ _ s
      (add_edge_by_node_sequence_keeps _ parent child d tpo ty w (frame_build s))),
      frame_refl.
Qed.

(** ** Registering and looking up *)

(** X4: [add_node] on a node returns that node; calling it again with the
    same node returns it again and changes nothing; after the call
    [get_node_by_name] of the node's name returns the instance registered
    first under that name (the node itself when the name was free), and the
    lookup of any other name returns what it returned before, [None] for a
    name that is not registered, without raising. *)
Theorem add_node_idempotent (s : State) (node : ref) (o : NodeObj) :
  heap s !! node = Some o →
  let s1 := (Graph.add_node node s).2 in
  Graph.add_node node s = (Ok node, s1) ∧
  Graph.add_node node s1 = (Ok node, s1) ∧
  Graph.get_node_by_name (node_name o) s1 =
    (Ok (Some (default node (__nodes s !! node_name o))), s1) ∧
  ∀ name, name ≠ node_name o →
    Graph.get_node_by_name name s1 = (Ok (__nodes s !! name), s1).
Proof.
  intros Ho s1. unfold s1. rewrite (add_node_run _ _ _ Ho). simpl.
  split_and!.
  - reflexivity.
  - rewrite (add_node_run node o) by exact Ho. simpl.
    by rewrite insert_absent_twice.
  - unfold Graph.get_node_by_name. munfold. simpl. unfold insert_absent.
    case_decide as Hk.
    + by rewrite lookup_insert_eq, Hk.
    + destruct (__nodes s !! node_name o); [done|congruence].
  - intros name Hne. unfold Graph.get_node_by_name. munfold. simpl.
    by rewrite insert_absent_ne.
Qed.

(** A single node, added twice. *)
Lemma add_node_idempotent_witness :
  let s1 := (Graph.add_node 1%positive Example.single).2 in
  Graph.add_node 1%positive s1 = (Ok 1%positive, s1).
Proof.
  apply (add_node_idempotent Example.single 1%positive Example.node_a).
  reflexivity.
Defined.

(** ** The infected index under the two wrappers *)

Lemma index_kept_refl s : index_kept s s.
Proof. by intros ??. Qed.

Lemma index_kept_img s s' : index_kept s s' → Graph.infected s ⊆ Graph.infected s'.
Proof.
  intros H n Hn. unfold Graph.infected in *.
  apply elem_of_map_img in Hn as [name Hname].
  apply elem_of_map_img. exists name. by apply H.
Qed.



(** X6: as long as the attribute [__recovery] holds what [set_recovery]
    puts there (the wrapper [r]) or nothing, [recover] never adds to the
    infected index: every entry of the index after the call was an entry
    before it, so [infected()] only shrinks, also when the call raises. *)
Theorem recovery_never_infects (s : State) :
  (∀ cb, __recovery s ≠ Some (InfectionWrapper cb)) →
  index_kept (Graph.recover s).2 s ∧
  Graph.infected (Graph.recover s).2 ⊆ Graph.infected s.
Proof.
  intros Hno.
  set (I := fun st : State => index_kept st s ∧ __recovery st = __recovery s).
  assert (Hs : I s) by (split; [apply index_kept_refl | done]).
  assert (H : I (Graph.recover s).2).
  { apply (triple_keeps I I _ s); [|exact Hs]. unfold Graph.recover.
    apply triple_get_bind. intros s0.
    apply triple_conseq with (P' := I) (Q' := fun _ => I) (E' := fun _ => I);
      [| by intros ? [] | done..].
    apply triple_for_each. intros n _. apply triple_get_bind. intros s1.
    apply triple_conseq with (P' := fun st => I st ∧ __recovery s1 = __recovery s)
      (Q' := fun _ => I) (E' := fun _ => I); [| |done..].
    2:{ intros st [Hst ->]. split; [done | apply Hst]. }
    intros st [Hst Hf]. revert st Hst. rewrite Hf.
    apply node_recover_triple with (I := I);
      [by intros st Hst | by intros st c Hst | done |].
    destruct (__recovery s) as [[cb|cb]|] eqn:Ef.
    - by destruct (Hno cb).
    - apply call_recovery_triple; [|done].
      intros st o [Hk Hr] _. split; [|exact Hr].
      intros name r Hname. simpl in Hname.
      apply lookup_delete_Some in Hname as [_ Hname]. by apply Hk.
    - by apply triple_raise. }
  destruct H as [H _]. split; [exact H | by apply index_kept_img].
Qed.

(** The chain after a seed and a tick, and one call of [recover]. *)
Lemma recovery_never_infects_witness :
  Graph.infected (Graph.recover Example.chain_tick).2 ⊆ Graph.infected Example.chain_tick.
Proof.
  apply (recovery_never_infects Example.chain_tick).
  intros cb. vm_compute. discriminate.
Defined.

(** ** The recovery step iterates a snapshot *)

Lemma recover_progress_run (s : State) :
  match Graph.recover s with
  | (Ok _, s') => recover_progress (trace s) (elements (Graph.infected s)) [] s'
  | (Raise _, s') =>
      ∃ rest, recover_progress (trace s) (elements (Graph.infected s)) rest s'
  end.
Proof.
  set (t0 := trace s).
  assert (H : ∀ snapshot,
            triple (recover_progress t0 snapshot snapshot)
              (for_each snapshot (fun n =>
                 s ← get; Node.recover n (Graph.call (__recovery s))))
              (fun _ => recover_progress t0 snapshot [])
              (fun _ st => ∃ rest, recover_progress t0 snapshot rest st)).
  2:{ apply (H (elements (Graph.infected s)) s). by exists [], []. }
  intros snapshot.
  apply (triple_for_each_rest (recover_progress t0 snapshot)).
  intros x l'. apply triple_get_bind. intros s1.
  apply triple_conseq with (P' := recover_progress t0 snapshot (x :: l'))
    (Q' := fun _ => recover_progress t0 snapshot l')
    (E' := fun _ st => ∃ rest, recover_progress t0 snapshot rest st);
    [| by intros ? [] | done..].
  apply node_recover_triple with (I := recover_progress t0 snapshot l').
  - intros st (new & done & Ht & Hl & Ha).
    exists (EvNodeRecover x :: new), (done ++ [x]). split_and!.
    + simpl. by rewrite Ht.
    + by rewrite Hl, <- app_assoc.
    + simpl. by rewrite Ha, reverse_app.
  - intros st c (new & done & Ht & Hl & Ha). by exists new, done.
  - intros st f Hst _. by exists l'.
  - apply triple_conseq
      with (P' := recover_progress t0 snapshot l')
           (Q' := fun _ => recover_progress t0 snapshot l')
           (E' := fun _ => recover_progress t0 snapshot l');
      [|done|done|].
    + apply call_any_triple.
      * intros st cb m (new & done & Ht & Hl & Ha).
        exists (EvCallback cb x :: new), done. split_and!; [|done..].
        simpl. by rewrite Ht.
      * intros st m (new & done & Ht & Hl & Ha). by exists new, done.
    + intros _ st Hst. by exists l'.
Qed.

(** X7: [recover] iterates the infected set as it was when the call started:
    the nodes asked to recover are, in order and each one once, the
    elements of that snapshot (all of them when the call returns, the first
    ones when it raises), although the wrapper removes entries from the
    index during the iteration. *)
Theorem recover_snapshot (s : State) :
  ∃ new done rest,
    trace (Graph.recover s).2 = new ++ trace s ∧
    elements (Graph.infected s) = done ++ rest ∧
    asked_to_recover new = reverse done ∧
    NoDup (asked_to_recover new) ∧
    ((Graph.recover s).1 = Ok tt → rest = []).
Proof.
  pose proof (recover_progress_run s) as H.
  assert (Hnd : ∀ new done rest, elements (Graph.infected s) = done ++ rest →
            asked_to_recover new = reverse done → NoDup (asked_to_recover new)).
  { intros new done rest Hl Ha. rewrite Ha, reverse_Permutation.
    pose proof (NoDup_elements (Graph.infected s)) as Hn.
    rewrite Hl in Hn. by apply NoDup_app in Hn as [Hn _]. }
  destruct (Graph.recover s) as [[[]|e] s'].
  - destruct H as (new & done & Ht & Hl & Ha).
    exists new, done, []. split_and!; eauto.
  - destruct H as (rest & new & done & Ht & Hl & Ha).
    exists new, done, rest. split_and!; eauto. done.
Qed.

(** The chain, and the chain with node 1 seeded, are well formed. *)
Lemma chain_Inv : Inv Example.chain.
Proof.
  apply (init_Inv Example.chain_args Example.world).
  apply (run_pair (Graph.__init__ Example.chain_args) Example.world tt).
  vm_compute. reflexivity.
Qed.

(** ** Recovery by the policy of the nodes *)

Lemma node_recover_run n (cb : ref → M unit) o st :
  heap st !! n = Some o →
  Node.recover n cb st =
  if recovers st (node_name o) (samples st (cursor st))
  then cb n (set_cursor (S (cursor st)) (set_trace (EvNodeRecover n :: trace st) st))
  else (Ok tt, set_cursor (S (cursor st)) (set_trace (EvNodeRecover n :: trace st) st)).
Proof.
  intros Ho. unfold Node.recover, deref, random. munfold. simpl. rewrite Ho. simpl.
  by destruct (recovers st (node_name o) (samples st (cursor st))).
Qed.

(** X8: on a graph whose registry and index agree, with the wrapper of
    [set_recovery] installed, [recover] returns; the index afterwards is a
    part of the index before; a node whose policy recovers at every draw is
    no more infected, a node whose policy recovers at no draw is still
    infected; and when every infected node always recovers, [infected()] is
    empty afterwards and [susceptible()] is [nodes()]. *)
Theorem recover_by_policy (s : State) (cb : Callback) :
  names_ok s → __recovery s = Some (RecoveryWrapper cb) →
  ∃ s', Graph.recover s = (Ok tt, s') ∧ index_kept s' s ∧
    (∀ name n, __infected s !! name = Some n →
       (always_recovers s name → __infected s' !! name = None) ∧
       (never_recovers s name → __infected s' !! name = Some n)) ∧
    ((∀ name, is_Some (__infected s !! name) → always_recovers s name) →
     Graph.infected s' = ∅ ∧ Graph.susceptible s' = Graph.nodes s').
Proof.
  intros [Hreg Hidx] Hrec.
  assert (Hown : ∀ name x, __infected s !! name = Some x →
            ∃ o, heap s !! x = Some o ∧ node_name o = name).
  { intros name x Hx. by apply Hreg, Hidx. }
  assert (H : triple (recover_rest s (elements (Graph.infected s)))
            (for_each (elements (Graph.infected s)) (fun n =>
               s ← get; Node.recover n (Graph.call (__recovery s))))
            (fun _ => recover_rest s []) (fun _ _ => False)).
  { apply (triple_for_each_rest (recover_rest s)).
    intros x l' st (Hh & Hr & Hp & Hk & Hl & Hst).
    destruct (Hl x) as [name Hname]; [apply elem_of_cons; by left|].
    destruct (Hown _ _ Hname) as (o & Ho & Hnm).
    assert (Ho' : heap st !! x = Some o) by (by rewrite Hh).
    unfold mbind, M_bind, bind, get. rewrite (node_recover_run _ _ _ _ Ho').
    rewrite Hr, Hrec, Hp, Hnm.
    destruct (recovers s name (samples st (cursor st))) eqn:Epol.
    - simpl. rewrite (r_run cb x o) by exact Ho'. rewrite Hnm.
      split_and!; try done.
      + intros k v Hkv. simpl in Hkv.
        apply lookup_delete_Some in Hkv as [_ Hkv]. by apply Hk.
      + intros y Hy. apply Hl, elem_of_cons. by right.
      + intros k v Hkv. destruct (Hst k v Hkv) as [Hyes Hno]. split.
        * intros Ha. simpl. destruct (decide (name = k)) as [->|Hne].
          -- right. apply lookup_delete_eq.
          -- rewrite lookup_delete_ne by done.
             destruct (Hyes Ha) as [Hin|Hnone]; [|by right].
             apply elem_of_cons in Hin as [->|Hin]; [|by left].
             destruct (Hown _ _ Hkv) as (o' & Ho2 & Hnm2). congruence.
        * intros Hn. simpl. rewrite lookup_delete_ne; [by apply Hno|].
          intros ->. specialize (Hn (samples st (cursor st))). congruence.
    - split_and!; try done.
      + intros y Hy. apply Hl, elem_of_cons. by right.
      + intros k v Hkv. destruct (Hst k v Hkv) as [Hyes Hno]. split; [|exact Hno].
        intros Ha. destruct (Hyes Ha) as [Hin|Hnone]; [|by right].
        apply elem_of_cons in Hin as [->|Hin]; [|by left].
        destruct (Hown _ _ Hkv) as (o' & Ho2 & Hnm2).
        assert (k = name) as -> by congruence.
        specialize (Ha (samples st (cursor st))). congruence. }
  assert (Hs : recover_rest s (elements (Graph.infected s)) s).
  { split_and!; [done..|apply index_kept_refl| |].
    - intros x Hx. apply elem_of_elements, elem_of_map_img in Hx. exact Hx.
    - intros name n Hname. split; [|done]. intros _. left.
      apply elem_of_elements, elem_of_map_img. by exists name. }
  specialize (H s Hs). unfold Graph.recover. unfold mbind, M_bind, bind, get at 1.
  destruct (for_each _ _ s) as [[[]|e] s']; [|done].
  destruct H as (Hh & Hr & Hp & Hk & Hl & Hst).
  exists s'. split_and!; [done|done| |].
  - intros name n Hname. destruct (Hst name n Hname) as [Hyes Hno]. split; [|exact Hno].
    intros Ha. destruct (Hyes Ha) as [Hin|Hnone]; [|done].
    by apply elem_of_nil in Hin.
  - intros Hall.
    assert (He : __infected s' = ∅).
    { apply map_empty. intros name.
      destruct (__infected s' !! name) as [n|] eqn:En; [|done].
      pose proof (Hk _ _ En) as Hn. destruct (Hst name n Hn) as [Hyes _].
      destruct (Hyes (Hall name (mk_is_Some _ _ Hn))) as [Hin|Hnone]; [|congruence].
      by apply elem_of_nil in Hin. }
    unfold Graph.susceptible, Graph.infected. rewrite He, map_img_empty_L.
    split; [done|]. apply difference_empty_L.
Qed.

Lemma chain_seeded_Inv : Inv Example.chain_seeded.
Proof.
  apply reachable_Inv. unfold Example.chain_seeded.
  apply (reachable_step _ (OpInfectSeeds [1%positive])).
  - apply reachable_init with (a := Example.chain_args) (s0 := Example.world).
    apply (run_pair (Graph.__init__ Example.chain_args) Example.world tt).
    vm_compute. reflexivity.
  - split; [|done]. intros n Hn. apply list_elem_of_singleton in Hn as ->.
    apply elem_of_map_img. exists (NInt 1). vm_compute. reflexivity.
Qed.

(** The chain with node 1 seeded. *)
Lemma recover_by_policy_witness :
  ∃ s', Graph.recover Example.chain_seeded = (Ok tt, s') ∧
        index_kept s' Example.chain_seeded.
Proof.
  destruct (recover_by_policy Example.chain_seeded CbNoop) as (s' & H1 & H2 & _).
  - split; apply chain_seeded_Inv.
  - vm_compute. reflexivity.
  - exists s'. by split.
Defined.

(** ** Seeding *)

Lemma infected_insert (index : gmap Name ref) (name : Name) (n : ref) :
  (∀ r, index !! name = Some r → r = n) →
  map_img (insert_absent name n index) = (map_img index : gset ref) ∪ {[n]}.
Proof.
  intros Hsame. unfold insert_absent. case_decide as Hk.
  - rewrite map_img_insert_notin_L by done. apply union_comm_L.
  - destruct (index !! name) as [r|] eqn:Er; [|done].
    rewrite (Hsame r eq_refl) in Er.
    symmetry. rewrite union_comm_L. apply subseteq_union_1_L.
    apply singleton_subseteq_l, elem_of_map_img. by exists name.
Qed.

(** X9: on a graph whose registry and index agree, with the wrapper of
    [set_infection callback] installed for a callback that returns and
    leaves the graph alone, [infect_seeds] on nodes of the graph returns;
    [infected()] afterwards is [infected()] before together with the
    seeds; each seed had its [infect] called and then the callback called
    on it, in the order of the list, and nothing else was recorded; the
    rest of the graph is unchanged. *)
Theorem infect_seeds_infects (s : State) (cb : Callback) (seeds : list ref) :
  names_ok s → __infection s = Some (InfectionWrapper cb) → quiet cb →
  seeds_registered seeds s →
  ∃ s', Graph.infect_seeds seeds s = (Ok tt, s') ∧
    Graph.infected s' = Graph.infected s ∪ list_to_set seeds ∧
    trace s' = reverse (seeding cb seeds) ++ trace s ∧
    same_graph s s' ∧ names_ok s'.
Proof.
  intros Hok Hinf Hquiet. revert s Hok Hinf.
  induction seeds as [|n seeds IH]; intros s Hok Hinf Hseeds.
  - exists s. split_and!; [done| |done|apply same_graph_refl|done].
    simpl. by rewrite union_empty_r_L.
  - destruct Hok as [Hreg Hidx].
    assert (Hn : n ∈ Graph.nodes s) by (apply Hseeds, elem_of_cons; by left).
    unfold Graph.nodes in Hn. apply elem_of_map_img in Hn as [name Hname].
    destruct (Hreg _ _ Hname) as (o & Ho & Hnm).
    set (s1 := set_trace (EvCallback cb n :: EvNodeInfect n :: trace s)
                 (assign_infected (insert_absent name n (__infected s)) s)).
    assert (Hrun : Graph.infect_seeds (n :: seeds) s = Graph.infect_seeds seeds s1).
    { unfold Graph.infect_seeds. simpl. unfold mbind, M_bind, bind, get.
      unfold Node.infect, log, modify, mbind, M_bind, bind. rewrite Hinf. simpl.
      rewrite (i_run cb n o) by exact Ho. rewrite Hnm, Hquiet. reflexivity. }
    destruct (IH s1) as (s' & Hrun' & Hset & Htr & Hsame & Hok').
    + split; [exact Hreg|]. intros k r Hk. simpl in *.
      apply insert_absent_inv in Hk as [Hk|(-> & -> & _)]; [by apply Hidx | done].
    + exact Hinf.
    + intros x Hx. apply (Hseeds x), elem_of_cons. by right.
    + exists s'. rewrite Hrun. split_and!; [exact Hrun'| | |exact Hsame|exact Hok'].
      * rewrite Hset. unfold Graph.infected at 1. simpl.
        rewrite infected_insert.
        -- unfold Graph.infected. by rewrite <- (assoc_L (∪)).
        -- intros r Hr. apply Hidx in Hr. congruence.
      * rewrite Htr. simpl. rewrite reverse_cons, reverse_cons, <- !app_assoc.
        reflexivity.
Qed.

(** The chain, seeded with node 1. *)
Lemma infect_seeds_infects_witness :
  ∃ s', Graph.infect_seeds [1%positive] Example.chain = (Ok tt, s') ∧
        Graph.infected s' = Graph.infected Example.chain ∪ list_to_set [1%positive].
Proof.
  destruct (infect_seeds_infects Example.chain CbNoop [1%positive])
    as (s' & H1 & H2 & _).
  - split; apply chain_Inv.
  - vm_compute. reflexivity.
  - by intros n st.
  - intros n Hn. apply list_elem_of_singleton in Hn as ->.
    apply elem_of_map_img. exists (NInt 1). vm_compute. reflexivity.
  - exists s'. by split.
Defined.

(** ** What a construction registers *)

Lemma resolved_objects name tpo s r o' :
  heap (resolved name tpo s).2 !! r = Some o' →
  heap s !! r = Some o' ∨
  (heap s !! r = None ∧ r = (resolved name tpo s).1 ∧ __nodes s !! name = None ∧
   o' = mkNode name ∅ (default (__transmission_probability s) tpo)).
Proof.
  unfold resolved. destruct (__nodes s !! name) as [r0|] eqn:E; simpl; [auto|].
  destruct (decide (fresh (dom (heap s)) = r)) as [<-|Hne].
  - rewrite lookup_insert_eq. intros [= <-]. right. auto using fresh_heap.
  - rewrite lookup_insert_ne by done. auto.
Qed.

Lemma resolved_unregistered name tpo s :
  __nodes s !! name = None → heap s !! (resolved name tpo s).1 = None.
Proof. intros H. unfold resolved. rewrite H. simpl. apply fresh_heap. Qed.

(** The registry and the store after [add_edge_by_node_sequence]. *)
Lemma after_edge_state parent child tpo ty w s :
  registry_ok s →
  let p := (resolved parent tpo s).1 in
  let s1 := (resolved parent tpo s).2 in
  let c := (resolved child tpo s1).1 in
  let s2 := (resolved child tpo s1).2 in
  let s' := after_edge parent child tpo ty w s in
  ∃ op, heap s2 !! p = Some op ∧ node_name op = parent ∧
    heap s' = <[p := with_child op child c ty w]> (heap s2) ∧
    __nodes s' = insert_absent child c (insert_absent parent p (__nodes s)).
Proof.
  intros Hreg p s1 c s2 s'.
  destruct (resolved_live parent tpo s Hreg) as (op & Hop & Nop & _).
  pose proof (resolved_heap child tpo _ _ _ Hop) as Hop2.
  destruct (resolved_graph parent tpo s) as (Hg1 & _).
  destruct (resolved_graph child tpo (resolved parent tpo s).2) as (Hg2 & _).
  simpl in Hg1, Hg2.
  exists op. split_and!; [exact Hop2 | exact Nop | |].
  - unfold s', after_edge. rewrite Hop2. reflexivity.
  - unfold s', after_edge. rewrite Hop2. unfold linked. simpl. by rewrite Hg2, Hg1.
Qed.

(** Every object of the store after the call is an object that existed,
    with its name and its function, or a new node of one of the two names,
    bound to the supplied function or else to the graph's. *)
Lemma after_edge_objects parent child tpo ty w s r o' :
  registry_ok s →
  heap (after_edge parent child tpo ty w s) !! r = Some o' →
  (∃ o, heap s !! r = Some o ∧ node_name o' = node_name o ∧ node_tp o' = node_tp o) ∨
  (heap s !! r = None ∧ node_tp o' = default (__transmission_probability s) tpo ∧
   (node_name o' = parent ∨ node_name o' = child)).
Proof.
  intros Hreg Hr.
  destruct (after_edge_state parent child tpo ty w s Hreg) as (op & Hop & Nop & Hh & _).
  destruct (resolved_graph parent tpo s) as (_ & _ & Htp & _). simpl in Htp.
  assert (Htrace : ∀ r0 o0, heap (resolved child tpo (resolved parent tpo s).2).2 !! r0
                            = Some o0 →
            heap s !! r0 = Some o0 ∨
            (heap s !! r0 = None ∧
             node_tp o0 = default (__transmission_probability s) tpo ∧
             (node_name o0 = parent ∨ node_name o0 = child))).
  { intros r0 o0 H0.
    apply resolved_objects in H0 as [H0|(Hnone & _ & _ & ->)].
    - apply resolved_objects in H0 as [H0|(Hnone & _ & _ & ->)]; [by left|].
      right. simpl. auto.
    - right. simpl. rewrite Htp. split_and!; [|done|by right].
      destruct (heap s !! r0) as [o|] eqn:E0; [|done].
      apply (resolved_heap parent tpo) in E0. congruence. }
  rewrite Hh in Hr. destruct (decide ((resolved parent tpo s).1 = r)) as [<-|Hne].
  - rewrite lookup_insert_eq in Hr. injection Hr as <-. simpl.
    destruct (Htrace _ _ Hop) as [H0|H0]; [left; by exists op | by right].
  - rewrite lookup_insert_ne in Hr by done.
    destruct (Htrace _ _ Hr) as [H0|H0]; [left; by exists o' | by right].
Qed.

(** A name registered by the call designates the node that was registered
    under it, or a node that did not exist. *)
Lemma after_edge_entries parent child tpo ty w s name r :
  registry_ok s →
  __nodes (after_edge parent child tpo ty w s) !! name = Some r →
  __nodes s !! name = Some r ∨ heap s !! r = None.
Proof.
  intros Hreg Hname.
  destruct (after_edge_state parent child tpo ty w s Hreg) as (op & _ & _ & _ & Hn).
  destruct (resolved_graph parent tpo s) as (Hg1 & _). simpl in Hg1.
  rewrite Hn in Hname.
  apply insert_absent_inv in Hname as [Hname|(-> & -> & Hnone)].
  - apply insert_absent_inv in Hname as [Hname|(-> & -> & Hnone)]; [by left|].
    right. by apply resolved_unregistered.
  - right.
    assert (Hc : __nodes (resolved parent tpo s).2 !! child = None).
    { rewrite Hg1. destruct (__nodes s !! child) as [r0|] eqn:E0; [|done].
      by rewrite (insert_absent_old _ _ _ _ _ E0) in Hnone. }
    apply (resolved_unregistered child tpo) in Hc.
    destruct (heap s !! _) as [o|] eqn:E0; [|done].
    apply (resolved_heap parent tpo) in E0. congruence.
Qed.

Lemma after_edge_dom parent child tpo ty w s :
  registry_ok s →
  dom (__nodes (after_edge parent child tpo ty w s)) = dom (__nodes s) ∪ {[parent; child]}.
Proof.
  intros Hreg.
  destruct (after_edge_registry parent child tpo ty w s Hreg) as (Hk & Hp & Hc & Hothers).
  apply set_eq. intros x.
  rewrite elem_of_union, elem_of_union, !elem_of_singleton, !elem_of_dom.
  split.
  - intros Hx. destruct (decide (x = parent)) as [->|Hxp]; [auto|].
    destruct (decide (x = child)) as [->|Hxc]; [auto|].
    left. by rewrite <- Hothers.
  - intros [[r Hx]|[->| ->]]; [|done..]. exists r. by apply Hk.
Qed.

Lemma after_edge_bound parent child tpo ty w s f :
  registry_ok s → default (__transmission_probability s) tpo = f →
  all_bound f s → all_bound f (after_edge parent child tpo ty w s).
Proof.
  intros Hreg Hf Hb name r o' Hname Ho'.
  destruct (after_edge_objects _ _ _ _ _ _ _ _ Hreg Ho')
    as [(o & Ho & _ & ->)|(Hnone & -> & _)]; [|exact Hf].
  destruct (after_edge_entries _ _ _ _ _ _ _ _ Hreg Hname) as [Hold|Hnone];
    [|congruence].
  by apply (Hb name r).
Qed.

Lemma built_names_step f parent child tpo ty w s0 names s :
  default (__transmission_probability s0) tpo = f →
  built_names f s0 names s →
  built_names f s0 (names ++ [parent; child]) (after_edge parent child tpo ty w s).
Proof.
  intros Hf (Hb & Hd & Hbound).
  assert (Hreg : registry_ok s) by apply Hb.
  split_and!.
  - by apply built_step.
  - rewrite after_edge_dom, Hd, list_to_set_app_L by done. simpl.
    rewrite union_empty_r_L. by rewrite <- (assoc_L (∪)).
  - intros H0. apply after_edge_bound; [done| |by apply Hbound].
    destruct Hb as (_ & (_ & -> & _) & _). exact Hf.
Qed.

Lemma init_nodes_from_args_names graph kwargs s0 names s :
  built_names Graph.tp s0 names s → __transmission_probability s0 = Graph.tp →
  ∃ s', Graph.__init_nodes_from_args graph kwargs s = (Ok tt, s') ∧
        built_names Graph.tp s0 (names ++ flat_map (fun e => [e.1; e.2]) graph) s'.
Proof.
  intros Hb Htp. unfold Graph.__init_nodes_from_args. revert names s Hb.
  induction graph as [|[parent child] graph IH]; intros names s Hb.
  - exists s. simpl. by rewrite app_nil_r.
  - simpl. unfold mbind, M_bind, bind.
    rewrite add_edge_by_node_sequence_run by apply Hb.
    destruct (IH (names ++ [parent; child])
                (after_edge parent child None None PyFloat.one s)) as (s' & Hrun & Hb').
    { apply built_names_step; [exact Htp | exact Hb]. }
    exists s'. split; [exact Hrun|]. by rewrite <- app_assoc in Hb'.
Qed.

Lemma init_nodes_from_kwargs_names kwargs graph s0 names s :
  built_names (default Graph.tp (kw_transmission_probability kwargs)) s0 names s →
  __transmission_probability s0 = Graph.tp →
  forallb well_formed graph = true →
  ∃ s', Graph.__init_nodes_from_kwargs kwargs graph s = (Ok tt, s') ∧
        built_names (default Graph.tp (kw_transmission_probability kwargs)) s0
          (names ++ flat_map (fun e => option_list (from_ e) ++ option_list (to_ e)) graph)
          s'.
Proof.
  intros Hb Htp. unfold Graph.__init_nodes_from_kwargs. revert names s Hb.
  induction graph as [|edge graph IH]; intros names s Hb Hwf.
  - exists s. simpl. by rewrite app_nil_r.
  - simpl in Hwf. apply andb_true_iff in Hwf as [Hedge Hrest].
    unfold well_formed in Hedge. simpl. unfold mbind, M_bind, bind.
    destruct (from_ edge) as [parent|]; [|done].
    destruct (to_ edge) as [child|]; [|done].
    rewrite add_edge_by_node_sequence_run by apply Hb.
    destruct (IH (names ++ [parent; child])
                (after_edge parent child (kw_transmission_probability kwargs)
                   (rec_type_ edge) (default PyFloat.one (rec_weight_ edge)) s))
      as (s' & Hrun & Hb').
    { apply built_names_step; [by rewrite Htp | exact Hb]. }
    { exact Hrest. }
    exists s'. split; [exact Hrun|]. simpl. by rewrite <- app_assoc in Hb'.
Qed.

Lemma init_names (a : InitArgs) (s : State) :
  (∀ graph, kw_graph a = Some graph → forallb well_formed graph = true) →
  ∃ s1, built_names (bound_function a) (blank s) (edge_names a) s1 ∧
        Graph.__init__ a s =
        (Ok tt, assign_recovery (Some (RecoveryWrapper CbNoop))
                  (assign_infection (Some (InfectionWrapper CbNoop)) s1)).
Proof.
  intros Hwf.
  assert (Hb : ∀ f, built_names f (blank s) [] (blank s)).
  { intros f. split_and!.
    - split_and!; [apply blank_Inv | apply frame_refl | by intros ??].
    - simpl. by rewrite union_empty_r_L.
    - done. }
  unfold Graph.__init__, Graph.set_infection, Graph.set_recovery. munfold.
  fold (blank s). unfold bound_function, edge_names.
  destruct (kw_graph a) as [graph|] eqn:Ekw.
  - destruct (init_nodes_from_kwargs_names a graph _ _ _ (Hb _) eq_refl (Hwf _ eq_refl))
      as (s1 & -> & Hb1).
    by exists s1.
  - destruct (args a) as [graph|].
    + destruct (init_nodes_from_args_names graph a _ _ _ (Hb _) eq_refl)
        as (s1 & -> & Hb1).
      by exists s1.
    + by exists (blank s).
Qed.

Lemma map_img_size (m : gmap Name ref) :
  (∀ k1 k2 v, m !! k1 = Some v → m !! k2 = Some v → k1 = k2) →
  size (map_img m : gset ref) = size (dom m).
Proof.
  induction m as [|i x m Hi Hfold IH] using map_first_key_ind; intros Hinj.
  - by rewrite map_img_empty_L, dom_empty_L, !size_empty.
  - rewrite map_img_insert_notin_L, dom_insert_L by done.
    rewrite !size_union, !size_singleton.
    + f_equal. apply IH. intros k1 k2 v H1 H2.
      apply (Hinj k1 k2 v); rewrite lookup_insert_ne; try done; congruence.
    + apply disjoint_singleton_l, not_elem_of_dom, Hi.
    + apply disjoint_singleton_l. intros Hx.
      apply elem_of_map_img in Hx as [k Hk].
      assert (i = k) as ->; [|congruence].
      apply (Hinj i k x); [apply lookup_insert_eq|].
      rewrite lookup_insert_ne; [done|congruence].
Qed.

Lemma registry_size s : registry_ok s → size (Graph.nodes s) = size (dom (__nodes s)).
Proof.
  intros Hreg. apply map_img_size. intros k1 k2 v H1 H2.
  destruct (Hreg _ _ H1) as (o1 & Ho1 & <-), (Hreg _ _ H2) as (o2 & Ho2 & <-).
  congruence.
Qed.

(** X10: a construction whose keyword records are well formed (or
    positional, or without arguments) registers exactly the names its edge
    list mentions: the registered names are these names, [nodes()] has one
    node per distinct name, nothing is infected and [susceptible()] is
    [nodes()]. *)
Theorem construction_registers_endpoints (a : InitArgs) (s : State) :
  (∀ graph, kw_graph a = Some graph → forallb well_formed graph = true) →
  ∃ s', Graph.__init__ a s = (Ok tt, s') ∧
    dom (__nodes s') = list_to_set (edge_names a) ∧
    size (Graph.nodes s') = size (list_to_set (edge_names a) : gset Name) ∧
    Graph.infected s' = ∅ ∧ Graph.susceptible s' = Graph.nodes s'.
Proof.
  intros Hwf. destruct (init_names a s Hwf) as (s1 & ((HI & Hf & _) & Hd & _) & Hrun).
  eexists. split; [exact Hrun|].
  assert (Hdom : dom (__nodes s1) = list_to_set (edge_names a)).
  { rewrite Hd. simpl. by rewrite dom_empty_L, union_empty_l_L. }
  assert (Hinf : __infected s1 = ∅) by (destruct Hf as (-> & _); done).
  unfold Graph.susceptible, Graph.infected, Graph.nodes. simpl.
  rewrite Hinf, map_img_empty_L. split_and!; [exact Hdom| |done|apply difference_empty_L].
  rewrite <- Hdom. apply (registry_size s1), HI.
Qed.

(** A keyword graph of one record. *)
Lemma construction_registers_endpoints_witness :
  ∃ s', Graph.__init__ (Example.keyword_args None) Example.world = (Ok tt, s') ∧
        dom (__nodes s') = list_to_set (edge_names (Example.keyword_args None)).
Proof.
  destruct (construction_registers_endpoints (Example.keyword_args None) Example.world)
    as (s' & Hrun & Hd & _).
  - intros graph Hg. injection Hg as <-. reflexivity.
  - exists s'. by split.
Defined.

(** X11: after such a construction every registered node is a live node
    of the name it is registered under, bound to one function: in the
    keyword form the function given as [transmission_probability], or the
    default rule when none is given; in the positional form the default
    rule. *)
Theorem construction_binds_function (a : InitArgs) (s : State) :
  (∀ graph, kw_graph a = Some graph → forallb well_formed graph = true) →
  ∃ s', Graph.__init__ a s = (Ok tt, s') ∧
    ∀ name r, __nodes s' !! name = Some r →
      ∃ o, heap s' !! r = Some o ∧ node_name o = name ∧ node_tp o = bound_function a.
Proof.
  intros Hwf. destruct (init_names a s Hwf) as (s1 & ((HI & _) & _ & Hb) & Hrun).
  eexists. split; [exact Hrun|]. simpl. intros name r Hname.
  destruct HI as (Hreg & _). destruct (Hreg _ _ Hname) as (o & Ho & Hnm).
  exists o. split_and!; [done..|]. apply (Hb ltac:(by intros ???) name r o Hname Ho).
Qed.

(** A keyword graph of one record, with a supplied function. *)
Lemma construction_binds_function_witness :
  ∃ s', Graph.__init__ (Example.keyword_args (Some Example.never)) Example.world
        = (Ok tt, s') ∧
    ∀ name r, __nodes s' !! name = Some r →
      ∃ o, heap s' !! r = Some o ∧ node_name o = name ∧ node_tp o = Example.never.
Proof.
  apply (construction_binds_function (Example.keyword_args (Some Example.never))
           Example.world).
  intros graph Hg. injection Hg as <-. reflexivity.
Defined.

(** X12: [add_edge_by_node_sequence] on a graph with a sound registry
    keeps every node that existed, with its name and its function, even
    when the call supplies another function; a node it creates carries one
    of the two names and is bound to the supplied function, or to the
    graph's default when none is supplied; and a name it registers
    designates the instance that was registered under it or a node the
    call created. *)
Theorem existing_nodes_keep_function (s : State) (parent child : Name)
    (d : option bool) (tpo : option TransFn) (ty : option string) (w : spec_float) :
  registry_ok s →
  let s' := (Graph.add_edge_by_node_sequence parent child d tpo ty w s).2 in
  (∀ r o, heap s !! r = Some o →
     ∃ o', heap s' !! r = Some o' ∧ node_name o' = node_name o ∧ node_tp o' = node_tp o) ∧
  (∀ r o', heap s' !! r = Some o' → heap s !! r = None →
     node_tp o' = default (__transmission_probability s) tpo ∧
     (node_name o' = parent ∨ node_name o' = child)) ∧
  (∀ name r, __nodes s' !! name = Some r →
     __nodes s !! name = Some r ∨ heap s !! r = None).
Proof.
  intros Hreg s'. unfold s'. rewrite add_edge_by_node_sequence_run by done. simpl.
  split_and!.
  - intros r o Ho.
    destruct (after_edge_state parent child tpo ty w s Hreg) as (op & Hop & _ & Hh & _).
    apply (resolved_heap parent tpo), (resolved_heap child tpo) in Ho.
    rewrite Hh. destruct (decide ((resolved parent tpo s).1 = r)) as [<-|Hne].
    + rewrite lookup_insert_eq. eexists. split; [reflexivity|].
      simpl. split; congruence.
    + rewrite lookup_insert_ne by done. by exists o.
  - intros r o' Ho' Hnone.
    destruct (after_edge_objects _ _ _ _ _ _ _ _ Hreg Ho') as [(o & Ho & _)|(_ & H)];
      [congruence | exact H].
  - intros name r. by apply after_edge_entries.
Qed.

(** The graph of one edge 1 -> 2, and a further edge 2 -> 3 with a
    supplied function. *)
Lemma existing_nodes_keep_function_witness :
  ∃ o', heap (Graph.add_edge_by_node_sequence (NInt 2) (NInt 3) None
                (Some Example.never) None PyFloat.one Example.pair).2 !! 1%positive
        = Some o' ∧
        node_name o' = NInt 1.
Proof.
  destruct (existing_nodes_keep_function Example.pair (NInt 2) (NInt 3) None
              (Some Example.never) None PyFloat.one) as (Hkeep & _).
  - apply pair_Inv.
  - destruct pair_Inv as (Hreg & _).
    destruct (Hreg (NInt 1) 1%positive) as (o & Ho & Hnm); [vm_compute; reflexivity|].
    destruct (Hkeep 1%positive o Ho) as (o' & Ho' & Hnm' & _).
    exists o'. split; [exact Ho' | congruence].
Defined.

(** ** A self-loop record *)

Lemma resolved_new name tpo s :
  __nodes s !! name = None →
  resolved name tpo s =
  (fresh (dom (heap s)),
   set_heap (<[fresh (dom (heap s)) :=
                 mkNode name ∅ (default (__transmission_probability s) tpo)]> (heap s)) s).
Proof. intros H. unfold resolved. by rewrite H. Qed.

(** X13: a record from a name to itself, when the name is not registered,
    creates two nodes of that name (the child is looked up before the
    parent is registered): the first is registered and gets one edge of
    multiplicity 1, keyed by its own name, that leads to the second; the
    second has no edge and is not in [nodes()]. *)
Theorem self_loop_creates_two_instances (s : State) (x : Name) (d : option bool)
    (tpo : option TransFn) (ty : option string) (w : spec_float) :
  registry_ok s → __nodes s !! x = None →
  let s' := (Graph.add_edge_by_node_sequence x x d tpo ty w s).2 in
  let f := default (__transmission_probability s) tpo in
  ∃ p c, p ≠ c ∧ heap s !! p = None ∧ heap s !! c = None ∧
    __nodes s' = <[x := p]> (__nodes s) ∧
    heap s' !! p = Some (mkNode x {[x := mkEdge 1 ty w c]} f) ∧
    heap s' !! c = Some (mkNode x ∅ f) ∧
    c ∉ Graph.nodes s'.
Proof.
  intros Hreg Hx s' f. unfold s'.
  rewrite add_edge_by_node_sequence_run by done. simpl.
  pose proof (after_edge_state x x tpo ty w s Hreg) as H. simpl in H.
  revert H. generalize (after_edge x x tpo ty w s). intros s2.
  rewrite (resolved_new x tpo s Hx). simpl.
  set (p := fresh (dom (heap s))).
  set (s1 := set_heap _ s).
  assert (Hx1 : __nodes s1 !! x = None) by exact Hx.
  rewrite (resolved_new x tpo s1 Hx1). simpl.
  set (c := fresh (dom (heap s1))).
  assert (Hpc : p ≠ c).
  { intros Heq. pose proof (fresh_heap (heap s1)) as Hc. fold c in Hc.
    rewrite <- Heq in Hc. unfold s1 in Hc. simpl in Hc.
    by rewrite lookup_insert_eq in Hc. }
  assert (Hc0 : heap s !! c = None).
  { pose proof (fresh_heap (heap s1)) as Hc. fold c in Hc.
    unfold s1 in Hc. simpl in Hc. rewrite lookup_insert_ne in Hc by done. exact Hc. }
  intros (op & Hop & _ & Hh & Hn).
  rewrite lookup_insert_ne, lookup_insert_eq in Hop by done. injection Hop as <-.
  assert (Hn' : __nodes s2 = <[x := p]> (__nodes s)).
  { rewrite Hn. unfold insert_absent at 2. rewrite decide_True by done.
    unfold insert_absent. rewrite decide_False; [done|].
    by rewrite lookup_insert_eq. }
  exists p, c. split_and!; [exact Hpc | apply fresh_heap | exact Hc0 | exact Hn' | | |].
  - rewrite Hh, lookup_insert_eq. unfold with_child. simpl.
    rewrite lookup_empty, insert_empty. reflexivity.
  - rewrite Hh, lookup_insert_ne, lookup_insert_eq by done. reflexivity.
  - unfold Graph.nodes. rewrite Hn'. intros Hin.
    apply elem_of_map_img in Hin as [k Hk].
    destruct (decide (x = k)) as [->|Hne].
    + rewrite lookup_insert_eq in Hk. congruence.
    + rewrite lookup_insert_ne in Hk by done.
      destruct (Hreg _ _ Hk) as (o & Ho & _). congruence.
Qed.

(** The graph of one edge 1 -> 2, and a record from 7 to 7. *)
Lemma self_loop_creates_two_instances_witness :
  ∃ p c, p ≠ c ∧
    __nodes (Graph.add_edge_by_node_sequence (NInt 7) (NInt 7) None None None
               PyFloat.one Example.pair).2 !! NInt 7 = Some p ∧
    c ∉ Graph.nodes (Graph.add_edge_by_node_sequence (NInt 7) (NInt 7) None None None
                       PyFloat.one Example.pair).2.
Proof.
  destruct (self_loop_creates_two_instances Example.pair (NInt 7) None None None
              PyFloat.one) as (p & c & Hpc & _ & _ & Hn & _ & _ & Hc).
  - apply pair_Inv.
  - vm_compute. reflexivity.
  - exists p, c. split_and!; [exact Hpc | | exact Hc].
    rewrite Hn. apply lookup_insert_eq.
Defined.

(** ** [add_edge] *)

(** X14: [add_edge] on two nodes returns the triple of the first node, the
    edge, and the second node, and raises no [KeyError]: it registers each
    node under its name when the name is free (the first node first) and
    keeps the registered instance otherwise, adds the edge to the first
    node itself (a new edge of multiplicity 1 to the second node, or the
    existing edge of that name with its multiplicity incremented and its
    target kept), and returns the edge that the first node then holds under
    the second node's name; the infected index and the installed procedures
    are untouched. *)
Theorem add_edge_returns (s : State) (from_ to_ : ref) (ofrom oto : NodeObj) :
  heap s !! from_ = Some ofrom → heap s !! to_ = Some oto →
  ∃ e s', Graph.add_edge from_ to_ s = (Ok (from_, e, to_), s') ∧
    __nodes s' = insert_absent (node_name oto) to_
                   (insert_absent (node_name ofrom) from_ (__nodes s)) ∧
    heap s' = <[from_ := with_child ofrom (node_name oto) to_ None PyFloat.one]> (heap s) ∧
    node_edges (with_child ofrom (node_name oto) to_ None PyFloat.one) !! node_name oto
      = Some e ∧
    (node_edges ofrom !! node_name oto = None → e = mkEdge 1 None PyFloat.one to_) ∧
    (∀ e0, node_edges ofrom !! node_name oto = Some e0 →
       multiplicity e = multiplicity e0 + 1 ∧ target e = target e0) ∧
    frame s s'.
Proof.
  intros Hf Ht. unfold Graph.add_edge. unfold mbind, M_bind, bind.
  rewrite (add_node_run _ _ _ Hf).
  set (s1 := assign_nodes _ s).
  assert (Ht1 : heap s1 !! to_ = Some oto) by exact Ht.
  rewrite (add_node_run _ _ _ Ht1).
  set (s2 := assign_nodes _ s1).
  assert (Hf2 : heap s2 !! from_ = Some ofrom) by exact Hf.
  assert (Ht2 : heap s2 !! to_ = Some oto) by exact Ht.
  rewrite (add_child_run _ _ _ _ _ _ _ Hf2 Ht2).
  set (onew := with_child ofrom (node_name oto) to_ None PyFloat.one).
  set (s3 := set_heap _ s2).
  assert (Hf3 : heap s3 !! from_ = Some onew) by apply lookup_insert_eq.
  assert (Ht3 : ∃ o, heap s3 !! to_ = Some o ∧ node_name o = node_name oto).
  { unfold s3. simpl. destruct (decide (from_ = to_)) as [->|Hne].
    - rewrite lookup_insert_eq. eexists. split; [reflexivity|].
      unfold onew. simpl. congruence.
    - rewrite lookup_insert_ne by done. by exists oto. }
  destruct Ht3 as (o3 & Ht3 & Hn3).
  unfold Node.edges, Node.name, deref. munfold. rewrite Hf3, Ht3, Hn3.
  assert (He : ∃ e, node_edges onew !! node_name oto = Some e ∧
            (node_edges ofrom !! node_name oto = None → e = mkEdge 1 None PyFloat.one to_) ∧
            (∀ e0, node_edges ofrom !! node_name oto = Some e0 →
               multiplicity e = multiplicity e0 + 1 ∧ target e = target e0)).
  { unfold onew, with_child. simpl. rewrite lookup_insert_eq. eexists. split; [reflexivity|].
    destruct (node_edges ofrom !! node_name oto) as [[m t w' c]|]; split; try done.
    intros e0 [= <-]. by split. }
  destruct He as (e & He & Hnew & Hold). rewrite He.
  exists e, s3. split_and!; try done.
Qed.

(** The two nodes wired by the caller, and a second edge between them. *)
Lemma add_edge_returns_witness :
  ∃ e s', Graph.add_edge 1%positive 2%positive Example.wired
          = (Ok (1%positive, e, 2%positive), s').
Proof.
  destruct (add_edge_returns Example.wired 1%positive 2%positive
              (mkNode (NStr "a") {[NStr "b" := mkEdge 1 None PyFloat.one 2%positive]}
                 Example.always)
              (mkNode (NStr "b") ∅ Example.always))
    as (e & s' & H & _).
  - reflexivity.
  - reflexivity.
  - by exists e, s'.
Defined.

(** ** One hop per tick *)

(** X15: when the installed infection callback returns and leaves the graph
    alone, one call of [propagate] spreads the infection by at most one
    hop: the node objects are unchanged, and every node infected after the
    call was infected before it or is the target of an edge of a node that
    was infected before it, whether the call returned or raised. *)
Theorem one_hop_per_tick (s : State) :
  (∀ cb, __infection s = Some (InfectionWrapper cb) → quiet cb) →
  heap (Graph.propagate s).2 = heap s ∧
  ∀ n, n ∈ Graph.infected (Graph.propagate s).2 →
    n ∈ Graph.infected s ∨ neighbor_of_infected s n.
Proof.
  intros _.
  assert (Hs : one_hop s s) by (split; [done | by left]).
  apply (triple_keeps (one_hop s) (fun st => st = s) _ s); [|done].
  unfold Graph.propagate. apply triple_get_bind. intros s0.
  apply triple_conseq with (P' := fun st => one_hop s st ∧ s0 = s)
    (Q' := fun _ => one_hop s) (E' := fun _ => one_hop s); [| |done..].
  2:{ intros st [-> <-]. by split. }
  intros st [Hst ->]. revert st Hst.
  apply triple_for_each. intros n Hn. apply elem_of_elements in Hn.
  apply triple_get_bind. intros s1.
  apply triple_conseq with (P' := one_hop s) (Q' := fun _ => one_hop s)
    (E' := fun _ => one_hop s); [| by intros ? [] | done..].
  apply node_propagate_triple with (I := one_hop s);
    [intros st Hst | intros st c Hst | done |].
  1,2: exact Hst.
  intros o cn e He.
  destruct (__infection s1) as [[cb|cb]|].
  - apply call_infection_triple; [|by intros ? []].
    intros st oc [[Hh Hhop] Ho] _. split; [|exact Ho]. split; [exact Hh|].
    intros x Hx. unfold Graph.infected in Hx. simpl in Hx.
    apply elem_of_map_img in Hx as [k Hk].
    apply insert_absent_inv in Hk as [Hk|(_ & -> & _)].
    + apply Hhop, elem_of_map_img. by exists k.
    + right. exists n, o, cn, e. rewrite <- Hh. by split_and!.
  - apply call_recovery_triple; [|by intros ? []].
    intros st oc [[Hh Hhop] Ho] _. split; [|exact Ho]. split; [exact Hh|].
    intros x Hx. unfold Graph.infected in Hx. simpl in Hx.
    apply elem_of_map_img in Hx as [k Hk].
    apply lookup_delete_Some in Hk as [_ Hk].
    apply Hhop, elem_of_map_img. by exists k.
  - apply triple_raise. by intros ? [].
Qed.

(** The chain with node 1 seeded, and one tick. *)
Lemma one_hop_per_tick_witness :
  heap (Graph.propagate Example.chain_seeded).2 = heap Example.chain_seeded.
Proof.
  destruct (one_hop_per_tick Example.chain_seeded) as [H _].
  - apply chain_seeded_quiet.
  - exact H.
Defined.

(** ** Duplicate records accumulate *)

Lemma with_child_multiplicity o oname other ty w cn :
  multiplicity <$> node_edges (with_child o oname other ty w) !! cn =
  if decide (cn = oname)
  then Some (default 0 (multiplicity <$> node_edges o !! cn) + 1)
  else multiplicity <$> node_edges o !! cn.
Proof.
  unfold with_child. simpl. case_decide as Hcn.
  - subst cn. rewrite lookup_insert_eq.
    destruct (node_edges o !! oname) as [[m t w' c]|]; reflexivity.
  - by rewrite lookup_insert_ne.
Qed.

Lemma multiplicity_of_eq s name r o cn :
  __nodes s !! name = Some r → heap s !! r = Some o →
  multiplicity_of s name cn = multiplicity <$> node_edges o !! cn.
Proof. intros Hn Ho. unfold multiplicity_of. rewrite Hn. simpl. by rewrite Ho. Qed.

Lemma multiplicity_of_none s name cn :
  __nodes s !! name = None → multiplicity_of s name cn = None.
Proof. intros Hn. unfold multiplicity_of. by rewrite Hn. Qed.

Lemma after_edge_multiplicity parent child tpo ty w s name cn :
  registry_ok s →
  multiplicity_of (after_edge parent child tpo ty w s) name cn =
  if decide (name = parent ∧ cn = child)
  then Some (default 0 (multiplicity_of s name cn) + 1)
  else multiplicity_of s name cn.
Proof.
  intros Hreg.
  destruct (after_edge_state parent child tpo ty w s Hreg) as (op & Hop & Nop & Hh & Hn).
  set (s' := after_edge parent child tpo ty w s) in *.
  set (p := (resolved parent tpo s).1) in *.
  set (s1 := (resolved parent tpo s).2) in *.
  set (c := (resolved child tpo s1).1) in *.
  set (s2 := (resolved child tpo s1).2) in *.
  assert (Hup : ∀ r o, heap s !! r = Some o → heap s2 !! r = Some o).
  { intros r o Ho. by apply (resolved_heap child tpo), (resolved_heap parent tpo). }
  assert (Hg1 : __nodes s1 = __nodes s) by apply (resolved_graph parent tpo s).
  (* the parent: registered, or new without edges *)
  assert (HP : (__nodes s !! parent = Some p ∧ heap s !! p = Some op) ∨
               (__nodes s !! parent = None ∧ node_edges op = ∅)).
  { destruct (__nodes s !! parent) as [r0|] eqn:E0.
    - left. assert (p = r0) as ->.
      { unfold p, resolved. by rewrite E0. }
      split; [done|]. destruct (Hreg _ _ E0) as (o0 & Ho0 & _).
      rewrite (Hup _ _ Ho0) in Hop. congruence.
    - right. split; [done|].
      assert (Hp1 : heap s1 !! p = Some (mkNode parent ∅
                      (default (__transmission_probability s) tpo))).
      { unfold p, s1. rewrite (resolved_new parent tpo s E0). simpl.
        apply lookup_insert_eq. }
      apply (resolved_heap child tpo) in Hp1. fold s2 in Hp1.
      rewrite Hp1 in Hop. by injection Hop as <-. }
  destruct (__nodes s' !! name) as [r|] eqn:Er.
  - pose proof Er as Er'. rewrite Hn in Er.
    apply insert_absent_inv in Er as [Er|(-> & -> & Hnone)].
    + apply insert_absent_inv in Er as [Er|(-> & -> & Hnone)].
      * (* registered before *)
        destruct (Hreg _ _ Er) as (o0 & Ho0 & Hnm0).
        rewrite (multiplicity_of_eq s _ _ _ cn Er Ho0).
        destruct (decide (p = r)) as [<-|Hne].
        -- assert (op = o0) as -> by (rewrite (Hup _ _ Ho0) in Hop; congruence).
           rewrite (multiplicity_of_eq s' name p (with_child o0 child c ty w) cn Er')
             by (rewrite Hh; apply lookup_insert_eq).
           rewrite with_child_multiplicity.
           assert (name = parent) as -> by congruence.
           destruct (decide (cn = child)) as [->|Hcn].
           ++ by rewrite decide_True.
           ++ rewrite decide_False; [done|]. by intros [_ ?].
        -- rewrite (multiplicity_of_eq s' name r o0 cn Er')
             by (rewrite Hh, lookup_insert_ne by done; by apply Hup).
           rewrite decide_False; [done|]. intros [-> _].
           destruct HP as [[HP _]|[HP _]]; congruence.
      * (* the parent was created by the call *)
        rewrite (multiplicity_of_none s parent cn Hnone).
        rewrite (multiplicity_of_eq s' parent p (with_child op child c ty w) cn Er')
          by (rewrite Hh; apply lookup_insert_eq).
        rewrite with_child_multiplicity.
        destruct HP as [[HP _]|[_ HP]]; [congruence|]. rewrite HP, lookup_empty.
        destruct (decide (cn = child)) as [->|Hcn].
        -- by rewrite decide_True.
        -- rewrite decide_False; [done|]. by intros [_ ?].
    + (* the child was created by the call *)
      assert (Hcp : child ≠ parent).
      { intros ->. destruct (insert_absent_is_Some parent p (__nodes s)) as [r1 Hr1].
        congruence. }
      assert (Hc0 : __nodes s !! child = None).
      { destruct (__nodes s !! child) as [r0|] eqn:E0; [|done].
        by rewrite (insert_absent_old _ _ _ _ _ E0) in Hnone. }
      assert (Hc1 : __nodes s1 !! child = None) by (by rewrite Hg1).
      assert (Hc2 : heap s2 !! c = Some (mkNode child ∅
                      (default (__transmission_probability s1) tpo))).
      { unfold c, s2. rewrite (resolved_new child tpo s1 Hc1). simpl.
        apply lookup_insert_eq. }
      assert (Hpc : p ≠ c).
      { intros Heq. pose proof (resolved_unregistered child tpo s1 Hc1) as Hf.
        fold c in Hf. rewrite <- Heq in Hf.
        destruct (resolved_live parent tpo s Hreg) as (o1 & Ho1 & _).
        fold p s1 in Ho1. congruence. }
      rewrite (multiplicity_of_none s child cn Hc0).
      rewrite (multiplicity_of_eq s' child c _ cn Er')
        by (rewrite Hh, lookup_insert_ne by done; exact Hc2).
      simpl. rewrite lookup_empty.
      rewrite decide_False; [done|]. by intros [? _].
  - (* not registered after, then not before *)
    rewrite (multiplicity_of_none s' name cn Er). rewrite Hn in Er.
    destruct (__nodes s !! name) as [r0|] eqn:E0.
    + by rewrite (insert_absent_old _ _ _ _ _ (insert_absent_old _ _ _ _ _ E0)) in Er.
    + rewrite (multiplicity_of_none s name cn E0).
      rewrite decide_False; [done|]. intros [-> _].
      destruct (insert_absent_is_Some parent p (__nodes s)) as [r1 Hr1].
      by rewrite (insert_absent_old _ _ _ _ _ Hr1) in Er.
Qed.

Lemma occurrences_snoc pairs parent child name cn :
  occurrences (pairs ++ [(parent, child)]) name cn =
  if decide (name = parent ∧ cn = child)
  then S (occurrences pairs name cn)
  else occurrences pairs name cn.
Proof.
  unfold occurrences. rewrite filter_app, length_app. simpl.
  case_decide as H.
  - destruct H as [-> ->]. rewrite filter_cons_True, filter_nil by done. simpl. lia.
  - rewrite filter_cons_False, filter_nil; [simpl; lia|].
    intros [= -> ->]. by apply H.
Qed.

Lemma counted_step parent child tpo ty w pairs s :
  registry_ok s → counted pairs s →
  counted (pairs ++ [(parent, child)]) (after_edge parent child tpo ty w s).
Proof.
  intros Hreg Hc name cn.
  rewrite after_edge_multiplicity by done. rewrite occurrences_snoc, (Hc name cn).
  case_decide; [|done].
  destruct (occurrences pairs name cn); simpl; f_equal; lia.
Qed.

Lemma init_nodes_from_args_counted graph kwargs s0 pairs s :
  built s0 s → counted pairs s →
  ∃ s', Graph.__init_nodes_from_args graph kwargs s = (Ok tt, s') ∧
        built s0 s' ∧ counted (pairs ++ graph) s'.
Proof.
  unfold Graph.__init_nodes_from_args. revert pairs s.
  induction graph as [|[parent child] graph IH]; intros pairs s Hb Hc.
  - exists s. by rewrite app_nil_r.
  - simpl. unfold mbind, M_bind, bind.
    rewrite add_edge_by_node_sequence_run by apply Hb.
    destruct (IH (pairs ++ [(parent, child)])
                (after_edge parent child None None PyFloat.one s)) as (s' & Hrun & Hb' & Hc').
    { by apply built_step. }
    { apply counted_step; [apply Hb | exact Hc]. }
    exists s'. split_and!; [exact Hrun | exact Hb' |].
    by rewrite <- app_assoc in Hc'.
Qed.

Lemma init_nodes_from_kwargs_counted kwargs graph s0 pairs s :
  built s0 s → counted pairs s → forallb well_formed graph = true →
  ∃ s', Graph.__init_nodes_from_kwargs kwargs graph s = (Ok tt, s') ∧
        built s0 s' ∧
        counted (pairs ++ omap (fun e => match from_ e, to_ e with
                                         | Some p, Some c => Some (p, c)
                                         | _, _ => None
                                         end) graph) s'.
Proof.
  unfold Graph.__init_nodes_from_kwargs. revert pairs s.
  induction graph as [|edge graph IH]; intros pairs s Hb Hc Hwf.
  - exists s. simpl. by rewrite app_nil_r.
  - simpl in Hwf. apply andb_true_iff in Hwf as [Hedge Hrest].
    unfold well_formed in Hedge. simpl. unfold mbind, M_bind, bind.
    destruct (from_ edge) as [parent|]; [|done].
    destruct (to_ edge) as [child|]; [|done].
    rewrite add_edge_by_node_sequence_run by apply Hb.
    destruct (IH (pairs ++ [(parent, child)])
                (after_edge parent child (kw_transmission_probability kwargs)
                   (rec_type_ edge) (default PyFloat.one (rec_weight_ edge)) s))
      as (s' & Hrun & Hb' & Hc').
    { by apply built_step. }
    { apply counted_step; [apply Hb | exact Hc]. }
    { exact Hrest. }
    exists s'. split_and!; [exact Hrun | exact Hb' |].
    by rewrite <- app_assoc in Hc'.
Qed.

(** X16: after a construction whose keyword records are well formed (or
    positional, or without arguments), the node registered under a name
    [parent] has an edge to the name [child] exactly when the edge list
    contains the pair, and the multiplicity of the edge is the number of
    occurrences of the pair in the list: duplicate records accumulate in
    one edge. *)
Theorem construction_counts_duplicates (a : InitArgs) (s : State) :
  (∀ graph, kw_graph a = Some graph → forallb well_formed graph = true) →
  ∃ s', Graph.__init__ a s = (Ok tt, s') ∧
    ∀ parent child,
      multiplicity_of s' parent child =
      match occurrences (edge_pairs a) parent child with
      | O => None
      | S k => Some (Z.of_nat (S k))
      end.
Proof.
  intros Hwf.
  assert (Hb : built (blank s) (blank s)).
  { split_and!; [apply blank_Inv | apply frame_refl | by intros ??]. }
  assert (Hc : counted [] (blank s)).
  { intros name cn. unfold multiplicity_of. simpl. by rewrite lookup_empty. }
  unfold Graph.__init__, Graph.set_infection, Graph.set_recovery. munfold.
  fold (blank s). unfold edge_pairs.
  destruct (kw_graph a) as [graph|] eqn:Ekw.
  - destruct (init_nodes_from_kwargs_counted a graph _ _ _ Hb Hc (Hwf _ eq_refl))
      as (s1 & -> & _ & Hc1).
    eexists. split; [reflexivity|]. exact Hc1.
  - destruct (args a) as [graph|].
    + destruct (init_nodes_from_args_counted graph a _ _ _ Hb Hc) as (s1 & -> & _ & Hc1).
      eexists. split; [reflexivity|]. exact Hc1.
    + eexists. split; [reflexivity|]. exact Hc.
Qed.

(** A keyword graph of one record. *)
Lemma construction_counts_duplicates_witness :
  ∃ s', Graph.__init__ (Example.keyword_args None) Example.world = (Ok tt, s') ∧
        multiplicity_of s' (NInt 1) (NInt 2) = Some 1.
Proof.
  destruct (construction_counts_duplicates (Example.keyword_args None) Example.world)
    as (s' & Hrun & Hm).
  - intros graph Hg. injection Hg as <-. reflexivity.
  - exists s'. split; [exact Hrun|]. rewrite Hm. reflexivity.
Defined.

(** ** What a step can raise *)

Lemma same_store_stable s : step_stable (same_store s).
Proof. intros st Hst. by split_and!. Qed.

Lemma call_live s pr n o (E : failure → State → Prop) :
  heap s !! n = Some o →
  triple (same_store s) (Graph.call (Some pr) n) (fun _ => same_store s) E.
Proof.
  intros Ho. destruct pr as [cb|cb].
  - apply call_infection_triple.
    + intros st o' Hst _. exact Hst.
    + intros st (Hh & _) Hnone. rewrite Hh in Hnone. congruence.
  - apply call_recovery_triple.
    + intros st o' Hst _. exact Hst.
    + intros st (Hh & _) Hnone. rewrite Hh in Hnone. congruence.
Qed.

Lemma infected_live s n :
  Inv s → n ∈ Graph.infected s →
  ∃ name o, __nodes s !! name = Some n ∧ heap s !! n = Some o ∧ node_name o = name.
Proof.
  intros (Hreg & Hidx & _) Hn. unfold Graph.infected in Hn.
  apply elem_of_map_img in Hn as [name Hname]. apply Hidx in Hname.
  destruct (Hreg _ _ Hname) as (o & Ho & Hnm). by exists name, o.
Qed.

Lemma recover_returns (s : State) :
  Inv s → is_Some (__recovery s) → (Graph.recover s).1 = Ok tt.
Proof.
  intros HI [pr Hpr].
  assert (H : triple (fun st => st = s) Graph.recover
                (fun _ => same_store s) (fun _ _ => False)).
  { unfold Graph.recover. apply triple_get_bind. intros s0.
    apply triple_conseq with (P' := fun st => same_store s st ∧ s0 = s)
      (Q' := fun _ => same_store s) (E' := fun _ _ => False); [| |done..].
    2:{ intros st [-> <-]. by split. }
    intros st [Hst ->]. revert st Hst.
    apply triple_for_each. intros n Hn. apply elem_of_elements in Hn.
    destruct (infected_live s n HI Hn) as (name & o & _ & Ho & _).
    apply triple_get_bind. intros s1.
    apply triple_conseq with (P' := fun st => same_store s st ∧ __recovery s1 = Some pr)
      (Q' := fun _ => same_store s) (E' := fun _ _ => False); [| |done..].
    2:{ intros st [Hst ->]. split; [done|]. destruct Hst as (_ & _ & ->). exact Hpr. }
    intros st [Hst Hf]. revert st Hst. rewrite Hf. unfold Node.recover.
    apply triple_bind with (Q := fun _ => same_store s); [by apply triple_log|intros _].
    apply triple_bind with (Q := fun _ => same_store s).
    { apply triple_deref. intros st Hst. destruct Hst as (Hh & ?).
      rewrite Hh, Ho. by split. }
    intros o'.
    apply triple_bind with (Q := fun _ => same_store s); [by apply triple_random|].
    intros u. apply triple_get_bind. intros s2.
    apply triple_conseq with (P' := same_store s) (Q' := fun _ => same_store s)
      (E' := fun _ _ => False); [| by intros ? [] | done..].
    destruct (recovers s2 (node_name o') u); [|by apply triple_ret].
    by apply call_live with o. }
  specialize (H s eq_refl). by destruct (Graph.recover s) as [[[]|e] s'].
Qed.

Lemma propagate_raises (s : State) (E : failure → State → Prop) :
  Inv s → is_Some (__infection s) →
  (∀ e st, tp_raises s e → E (Exn e) st) →
  triple (fun st => st = s) Graph.propagate (fun _ => same_store s) E.
Proof.
  intros HI [pr Hpr] HE.
  unfold Graph.propagate. apply triple_get_bind. intros s0.
  apply triple_conseq with (P' := fun st => same_store s st ∧ s0 = s)
    (Q' := fun _ => same_store s) (E' := E); [| |done..].
  2:{ intros st [-> <-]. by split. }
  intros st [Hst ->]. revert st Hst.
  apply triple_for_each. intros n Hn. apply elem_of_elements in Hn.
  destruct (infected_live s n HI Hn) as (name & o & Hname & Ho & Hnm).
  apply triple_get_bind. intros s1.
  apply triple_conseq with (P' := fun st => same_store s st ∧ __infection s1 = Some pr)
    (Q' := fun _ => same_store s) (E' := E); [| |done..].
  2:{ intros st [Hst ->]. split; [done|]. destruct Hst as (_ & -> & _). exact Hpr. }
  intros st [Hst Hf]. revert st Hst. rewrite Hf. unfold Node.propagate.
  apply triple_bind with (Q := fun _ => same_store s); [by apply triple_log|intros _].
  apply triple_bind with (Q := fun o' st => same_store s st ∧ o' = o).
  { apply triple_deref. intros st Hst. pose proof Hst as (Hh & _).
    rewrite Hh, Ho. by split. }
  intros o'.
  apply triple_conseq with (P' := fun st => same_store s st ∧ o' = o)
    (Q' := fun _ => same_store s) (E' := E); [| done | done | done].
  intros st [Hst ->]. revert st Hst.
  apply triple_for_each. intros [cn ed] Hin. apply elem_of_map_to_list in Hin.
  simpl.
  destruct HI as (Hreg & Hidx & Hedge).
  destruct (Hedge _ _ _ _ _ Hname Ho Hin) as ((oc & Hoc & Hcn) & _).
  apply triple_bind with (Q := fun oc' st => same_store s st ∧ oc' = oc).
  { apply triple_deref. intros st Hst. pose proof Hst as (Hh & _).
    rewrite Hh, Hoc. by split. }
  intros oc'.
  apply triple_bind with (Q := fun _ => same_store s).
  { apply triple_lift. intros st [Hst ->].
    destruct (node_tp o (view o) (view oc)) as [p|e] eqn:Etp; [done|].
    apply HE. by exists n, o, cn, ed, oc. }
  intros p.
  apply triple_bind with (Q := fun _ => same_store s); [by apply triple_random|].
  intros u. destruct (PyFloat.ltb u p); [|by apply triple_ret].
  by apply call_live with oc.
Qed.

Lemma default_rule_returns (from_node to_node : NodeView) (edge : Edge) :
  from_node.2 !! to_node.1 = Some edge →
  Z.abs (multiplicity edge) < 2 ^ 1023 →
  Z.abs (Node.degree_of from_node.2) < 2 ^ 1023 →
  ∃ p, Graph.tp from_node to_node = Ok p.
Proof.
  intros He Hm Hd. unfold Graph.tp. rewrite He.
  destruct (Node.degree_of from_node.2 =? 0) eqn:E0; [by eexists|].
  apply Z.eqb_neq in E0.
  destruct (of_long_small _ Hm) as [a Ha]. destruct (of_long_small _ Hd) as [b Hb].
  rewrite Ha, Hb. simpl. rewrite (div_of_long a _ b E0 Hb). by eexists.
Qed.

(** X17: on a well-formed graph with both procedures installed, the
    infection callback being one that returns and leaves the graph alone,
    [infect_seeds] on nodes of the graph and [recover] return, and
    [propagate] returns or raises an exception that the transmission
    function of an infected node raised on one of the edges of that node;
    it returns when the infected nodes are bound to the default rule and
    their degrees and multiplicities are below 2^1023 (no [KeyError]: every
    edge is keyed by the name of its target). *)
Theorem steps_raise_only_from_tp (s : State) (seeds : list ref) :
  Inv s → installed s → quiet_installed s → seeds_registered seeds s →
  (Graph.infect_seeds seeds s).1 = Ok tt ∧
  (Graph.recover s).1 = Ok tt ∧
  ((Graph.propagate s).1 = Ok tt ∨
   ∃ e, (Graph.propagate s).1 = Raise (Exn e) ∧ tp_raises s e) ∧
  (small_default s → (Graph.propagate s).1 = Ok tt).
Proof.
  intros HI [Hinf Hrec] _ Hseeds.
  assert (Hp : (Graph.propagate s).1 = Ok tt ∨
               ∃ e, (Graph.propagate s).1 = Raise (Exn e) ∧ tp_raises s e).
  { pose proof (propagate_raises s (fun f _ => ∃ e, f = Exn e ∧ tp_raises s e)
                  HI Hinf) as H.
    specialize (H (fun e st He => ex_intro _ e (conj eq_refl He)) s eq_refl).
    destruct (Graph.propagate s) as [[[]|f] s']; [by left|].
    destruct H as (e & -> & He). right. by exists e. }
  split_and!; [| by apply recover_returns | exact Hp |].
  - apply infect_seeds_returns; [exact Hinf|]. intros n Hn.
    apply Hseeds in Hn. unfold Graph.nodes in Hn.
    apply elem_of_map_img in Hn as [name Hname].
    destruct HI as (Hreg & _). destruct (Hreg _ _ Hname) as (o & Ho & _). by exists o.
  - intros Hsmall. destruct Hp as [Hp|(e & _ & n & o & cn & ed & oc & Hn & Ho & He & Hoc & Htp)];
      [exact Hp | exfalso].
    destruct (Hsmall n o Hn Ho) as (Hdef & Hdeg & Hmul).
    destruct (infected_live s n HI Hn) as (name & o' & Hname & Ho' & _).
    assert (o' = o) as -> by congruence.
    destruct HI as (_ & _ & Hedge).
    destruct (Hedge _ _ _ _ _ Hname Ho He) as ((oc' & Hoc' & Hcn) & _).
    assert (oc' = oc) as -> by congruence.
    destruct (default_rule_returns (view o) (view oc) ed) as [p Hp].
    + simpl. by rewrite Hcn.
    + by apply (Hmul cn).
    + exact Hdeg.
    + rewrite Hdef in Htp. congruence.
Qed.

(** The chain with node 1 seeded. *)
Lemma steps_raise_only_from_tp_witness :
  (Graph.recover Example.chain_seeded).1 = Ok tt ∧
  ((Graph.propagate Example.chain_seeded).1 = Ok tt ∨
   ∃ e, (Graph.propagate Example.chain_seeded).1 = Raise (Exn e) ∧
        tp_raises Example.chain_seeded e).
Proof.
  destruct (steps_raise_only_from_tp Example.chain_seeded [1%positive])
    as (_ & H1 & H2 & _).
  - apply chain_seeded_Inv.
  - split; eexists; vm_compute; reflexivity.
  - exact chain_seeded_quiet.
  - intros n Hn. apply list_elem_of_singleton in Hn as ->.
    apply elem_of_map_img. exists (NInt 1). vm_compute. reflexivity.
  - by split.
Defined.
